(** * ELO matchmaking simulator: a shallow embedding and its properties

    The development follows the two modules of the repository:
    [matchmaking/models.py] ([GameOutcome], [Player], [Team], [Game]) and
    [matchmaking/server.py] ([PlayerStatus], [PlayerStore], [LivePlot],
    [MatchMakerServer]).

    Modelling conventions.
    - Python floats are idealised as real numbers ([R]): the arithmetic is
      exact, with no rounding, no overflow (the [OverflowError] of
      [10 ** x] for a large [x] is not modelled) and no underflow.  A
      property that holds only of exact arithmetic, or only in a range
      of ratings, says so.  Python integers are [Z] (counters that start
      at 0 and are only incremented are [nat]).
    - Python objects that are mutated and shared ([Player], [Team]) live in
      a heap indexed by references; a reference never dangles, so the heap
      is a total function.
    - Exceptions are values of [exn]; a computation that may raise returns
      [res].  An exception is never caught in the repository, so the state
      reached before the exception is not observed.
    - [random], [datetime.now] and [perf_counter] are oracles: infinite
      sequences of readings with a read position. *)

From Stdlib Require Import List ZArith Reals Lra Lia Bool Arith PeanoNat.
From Stdlib Require Import Permutation Sorted Ascii.
Import ListNotations.

(** ** Exceptions *)

Inductive exn : Type :=
| ZeroDivisionError
| ValueError
| IndexError
| TypeError
| KeyError.

Inductive res (A : Type) : Type :=
| Ok (a : A)
| Raise (e : exn).

Arguments Ok {A} a.
Arguments Raise {A} e.

Definition bind {A B : Type} (c : res A) (f : A -> res B) : res B :=
  match c with
  | Ok a => f a
  | Raise e => Raise e
  end.

Notation "x <- c1 ;; c2" := (bind c1 (fun x => c2))
  (at level 61, c1 at next level, right associativity).
Notation "' pat <- c1 ;; c2" := (bind c1 (fun x => match x with pat => c2 end))
  (at level 61, pat pattern, c1 at next level, right associativity).

(** Monadic left fold: a [for] loop whose body may raise. *)
Fixpoint foldM {A S : Type} (f : S -> A -> res S) (l : list A) (s : S) : res S :=
  match l with
  | [] => Ok s
  | x :: l' => s' <- f s x ;; foldM f l' s'
  end.

(** ** Oracles for the environment *)

(** One draw of the random generator; each primitive reads the component
    it needs. *)
Record Draw : Type := {
  d_bit : bool;      (* the result of [random.randint(0, 1)], [true] is 1 *)
  d_unit : R;        (* the result of [random.random()] *)
  d_index : nat      (* the raw index behind [random.choice] *)
}.

Record Rng : Type := {
  rng_stream : nat -> Draw;
  rng_pos : nat
}.

Definition rng_next (g : Rng) : Draw * Rng :=
  (rng_stream g (rng_pos g),
   {| rng_stream := rng_stream g; rng_pos := S (rng_pos g) |}).

Definition randint01 (g : Rng) : bool * Rng :=
  let (d, g') := rng_next g in (d_bit d, g').

Definition random_unit (g : Rng) : R * Rng :=
  let (d, g') := rng_next g in (d_unit d, g').

(** [datetime.now()] and [perf_counter()]. *)
Record Clock : Type := {
  now_stream : nat -> Z;
  now_pos : nat;
  perf_stream : nat -> R;
  perf_pos : nat
}.

Definition datetime_now (c : Clock) : Z * Clock :=
  (now_stream c (now_pos c),
   {| now_stream := now_stream c; now_pos := S (now_pos c);
      perf_stream := perf_stream c; perf_pos := perf_pos c |}).

Definition perf_counter (c : Clock) : R * Clock :=
  (perf_stream c (perf_pos c),
   {| now_stream := now_stream c; now_pos := now_pos c;
      perf_stream := perf_stream c; perf_pos := S (perf_pos c) |}).

(** ** models.py *)

Inductive GameOutcome : Type := P1_WIN | P2_WIN | DRAW.

Definition GameOutcome_eqb (a b : GameOutcome) : bool :=
  match a, b with
  | P1_WIN, P1_WIN | P2_WIN, P2_WIN | DRAW, DRAW => true
  | _, _ => false
  end.

(** *** Player *)

Record Player : Type := {
  elo : R;
  name : Z;
  last_played : Z;
  last_played_ns : R;
  god : bool;
  true_rating : Z;
  win : nat;
  lose : nat
}.

(** [Player.__init__]: the constructor reads both clocks. *)
Definition Player_init (nm : Z) (tr : Z) (e : R) (g : bool) (c : Clock)
  : Player * Clock :=
  let (t, c1) := datetime_now c in
  let (tns, c2) := perf_counter c1 in
  ({| elo := e; name := nm; last_played := t; last_played_ns := tns;
      god := g; true_rating := tr; win := 0; lose := 0 |}, c2).

Definition set_elo (p : Player) (new_elo : R) : Player :=
  {| elo := new_elo; name := name p; last_played := last_played p;
     last_played_ns := last_played_ns p; god := god p;
     true_rating := true_rating p; win := win p; lose := lose p |}.

Definition set_true_rating (p : Player) (tr : Z) : Player :=
  {| elo := elo p; name := name p; last_played := last_played p;
     last_played_ns := last_played_ns p; god := god p;
     true_rating := tr; win := win p; lose := lose p |}.

Definition set_last_played (p : Player) (t : Z) : Player :=
  {| elo := elo p; name := name p; last_played := t;
     last_played_ns := last_played_ns p; god := god p;
     true_rating := true_rating p; win := win p; lose := lose p |}.

Definition set_last_played_ns (p : Player) (t : R) : Player :=
  {| elo := elo p; name := name p; last_played := last_played p;
     last_played_ns := t; god := god p;
     true_rating := true_rating p; win := win p; lose := lose p |}.

(** [rating]: [10 ** (self.elo / 400)]. *)
Definition rating (p : Player) : R := Rpower 10 (elo p / 400)%R.

(** [ratio]: [self.win / total if total > 0 else 0.0]. *)
Definition ratio (p : Player) : R :=
  let total := (win p + lose p)%nat in
  if (0 <? total)%nat then (INR (win p) / INR total)%R else 0%R.

Definition get_elo_delta (self other : Player) (result : GameOutcome)
    (k_factor : R) : R :=
  let rating_1 := rating self in
  let rating_2 := rating other in
  let expected_1 := (rating_1 / (rating_1 + rating_2))%R in
  let score_1 :=
    if GameOutcome_eqb result DRAW then (5 / 10)%R
    else if GameOutcome_eqb result P1_WIN then 1%R else 0%R in
  (k_factor * (score_1 - expected_1))%R.

(** [Player.nudge]: the generator is read only for a player that is not a
    god. *)
Definition Player_nudge (p : Player) (nudge : Z) (g : Rng) : Player * Rng :=
  let (direction, g') := if god p then (false, g) else randint01 g in
  let tr := if direction then (true_rating p - nudge)%Z
            else (true_rating p + nudge)%Z in
  (set_true_rating p (Z.max 0 tr), g').

Definition add_win (p : Player) : Player :=
  {| elo := elo p; name := name p; last_played := last_played p;
     last_played_ns := last_played_ns p; god := god p;
     true_rating := true_rating p; win := win p + 1; lose := lose p |}.

Definition add_lose (p : Player) : Player :=
  {| elo := elo p; name := name p; last_played := last_played p;
     last_played_ns := last_played_ns p; god := god p;
     true_rating := true_rating p; win := win p; lose := lose p + 1 |}.

(** Repeated application of [Player.nudge], one magnitude per call. *)
Fixpoint nudge_many (p : Player) (nudges : list Z) (g : Rng) : Player * Rng :=
  match nudges with
  | [] => (p, g)
  | n :: rest => let (p', g') := Player_nudge p n g in nudge_many p' rest g'
  end.

(** The outcome seen from the opponent's side (the spec's [invert]). *)
Definition invert (o : GameOutcome) : GameOutcome :=
  match o with
  | P1_WIN => P2_WIN
  | P2_WIN => P1_WIN
  | DRAW => DRAW
  end.

(** *** Python containers and arithmetic used by the models *)

(** Truthiness of a setting that may be [None] or an integer
    ([if self.nudge:], [if self.max_round:]). *)
Definition truthy (n : option Z) : bool :=
  match n with
  | Some z => negb (z =? 0)%Z
  | None => false
  end.

(** The integer behind a truthy setting. *)
Definition int_value (n : option Z) : Z :=
  match n with
  | Some z => z
  | None => 0%Z
  end.

(** True division by a length. *)
Definition truediv (x : R) (n : nat) : res R :=
  match n with
  | O => Raise ZeroDivisionError
  | S _ => Ok (x / INR n)%R
  end.

(** [sum] of a list of numbers. *)
Definition Rsum (l : list R) : R := fold_left Rplus l 0%R.

(** References to objects and the update of a heap at one reference. *)
Abbreviation pref := nat (only parsing).
Abbreviation tref := nat (only parsing).

Definition upd {A : Type} (h : nat -> A) (r : nat) (a : A) : nat -> A :=
  fun r' => if Nat.eqb r' r then a else h r'.

(** A [dict] with object keys, in insertion order: assignment to a key that
    is present keeps its position, a new key goes last. *)
Fixpoint dict_set {V : Type} (d : list (nat * V)) (k : nat) (v : V)
  : list (nat * V) :=
  match d with
  | [] => [(k, v)]
  | (k', v') :: rest =>
      if Nat.eqb k' k then (k', v) :: rest
      else (k', v') :: dict_set rest k v
  end.

(** [dict.pop(key)] without a default: the key must be present. *)
Fixpoint dict_pop {V : Type} (d : list (nat * V)) (k : nat)
  : res (list (nat * V)) :=
  match d with
  | [] => Raise KeyError
  | (k', v') :: rest =>
      if Nat.eqb k' k then Ok rest
      else rest' <- dict_pop rest k ;; Ok ((k', v') :: rest')
  end.

(** [delta[player].append(x)] on a [defaultdict(list)]. *)
Fixpoint delta_append (delta : list (pref * list R)) (p : pref) (x : R)
  : list (pref * list R) :=
  match delta with
  | [] => [(p, [x])]
  | (q, l) :: rest =>
      if Nat.eqb q p then (q, l ++ [x]) :: rest
      else (q, l) :: delta_append rest p x
  end.

(** [random.choices(population, weights, k=1)] of the standard library,
    with its single result unpacked: cumulative weights, the checks on
    their number and total, and a right bisection of [random() * total]
    between 0 and [n - 1]. *)
Fixpoint accumulate_from (acc : R) (ws : list R) : list R :=
  match ws with
  | [] => []
  | x :: rest => (acc + x)%R :: accumulate_from (acc + x)%R rest
  end.

Definition accumulate (ws : list R) : list R :=
  match ws with
  | [] => []
  | x :: rest => x :: accumulate_from x rest
  end.

Fixpoint bisect_loop (fuel : nat) (a : list R) (x : R) (lo hi : nat) : nat :=
  match fuel with
  | O => lo
  | S fuel' =>
      if (lo <? hi)%nat then
        let mid := ((lo + hi) / 2)%nat in
        if Rlt_dec x (nth mid a 0%R) then bisect_loop fuel' a x lo mid
        else bisect_loop fuel' a x (mid + 1)%nat hi
      else lo
  end.

Definition bisect (a : list R) (x : R) (lo hi : nat) : nat :=
  bisect_loop (hi - lo) a x lo hi.

Definition random_choices {A : Type} (population : list A) (weights : list R)
    (g : Rng) : res (A * Rng) :=
  let n := length population in
  let cum_weights := accumulate weights in
  if negb (length cum_weights =? n)%nat then Raise ValueError
  else
    match rev cum_weights with
    | [] => Raise IndexError
    | total :: _ =>
        if Rle_dec total 0 then Raise ValueError
        else
          let hi := (n - 1)%nat in
          let (u, g') := random_unit g in
          match nth_error population (bisect cum_weights (u * total)%R 0 hi) with
          | Some x => Ok (x, g')
          | None => Raise IndexError
          end
    end.

(** *** Team *)

(** [players] is a [set] of player objects.  It is kept as a list without
    repetition, in the order of the list the team is built from; the
    order in which Python iterates the set is its own. *)
Record Team : Type := {
  team_players : list pref;
  team_score : option Z
}.

Definition Team_init (players : list pref) : Team :=
  {| team_players := nodup Nat.eq_dec players; team_score := None |}.

Definition set_score (t : Team) (s : Z) : Team :=
  {| team_players := team_players t; team_score := Some s |}.

(** [Team.compare]: ordering [None] against anything is a [TypeError]. *)
Definition Team_compare (self other : Team) : res GameOutcome :=
  match team_score self, team_score other with
  | Some a, Some b =>
      if (a >? b)%Z then Ok P1_WIN
      else if (a <? b)%Z then Ok P2_WIN
      else Ok DRAW
  | _, _ => Raise TypeError
  end.

(** *** The world: object heaps and oracles *)

Record World : Type := {
  player_of : pref -> Player;
  team_of : tref -> Team;
  team_count : nat;      (* Team objects allocated so far *)
  rng : Rng;
  clock : Clock
}.

Definition with_players (w : World) (h : pref -> Player) : World :=
  {| player_of := h; team_of := team_of w; team_count := team_count w;
     rng := rng w; clock := clock w |}.

Definition with_teams (w : World) (h : tref -> Team) (n : nat) : World :=
  {| player_of := player_of w; team_of := h; team_count := n;
     rng := rng w; clock := clock w |}.

Definition with_rng (w : World) (g : Rng) : World :=
  {| player_of := player_of w; team_of := team_of w;
     team_count := team_count w; rng := g; clock := clock w |}.

Definition with_clock (w : World) (c : Clock) : World :=
  {| player_of := player_of w; team_of := team_of w;
     team_count := team_count w; rng := rng w; clock := c |}.

(** *** Game *)

Record Game : Type := {
  game_teams : list tref;
  tag : list ascii;
  game_nudge : option Z;
  god_boost : R
}.

Definition ascii_lowercase : list ascii :=
  ["a"; "b"; "c"; "d"; "e"; "f"; "g"; "h"; "i"; "j"; "k"; "l"; "m";
   "n"; "o"; "p"; "q"; "r"; "s"; "t"; "u"; "v"; "w"; "x"; "y"; "z"]%char.

(** [random.choice(seq)]. *)
Definition random_choice (seq : list ascii) (g : Rng) : ascii * Rng :=
  let (d, g') := rng_next g in
  (nth (d_index d mod length seq) seq "a"%char, g').

Fixpoint random_tag (n : nat) (g : Rng) : list ascii * Rng :=
  match n with
  | O => ([], g)
  | S n' =>
      let (c, g1) := random_choice ascii_lowercase g in
      let (cs, g2) := random_tag n' g1 in
      (c :: cs, g2)
  end.

Definition Game_init (teams : list tref) (nudge : option Z) (boost : R)
    (g : Rng) : Game * Rng :=
  let (t, g') := random_tag 5 g in
  ({| game_teams := teams; tag := t; game_nudge := nudge;
      god_boost := boost |}, g').

(** [Game.players(ignore_team)]: the pairs (team, player), team by team. *)
Definition same_team (ignore_team : option tref) (team : tref) : bool :=
  match ignore_team with
  | Some t => Nat.eqb team t
  | None => false
  end.

Definition Game_players (w : World) (g : Game) (ignore_team : option tref)
  : list (tref * pref) :=
  flat_map
    (fun team =>
       if same_team ignore_team team then []
       else map (fun player => (team, player))
                (team_players (team_of w team)))
    (game_teams g).

(** [Game.update_elo], first loop: one step for a player against one
    opposing player. *)
Definition rate_against (w : World) (k_factor : R) (team : tref)
    (player : pref) (st : (pref -> Player) * list (pref * list R))
    (other : tref * pref) : res ((pref -> Player) * list (pref * list R)) :=
  let '(h, delta) := st in
  let '(other_team, other_player) := other in
  outcome <- Team_compare (team_of w team) (team_of w other_team) ;;
  let h1 :=
    match outcome with
    | P1_WIN => upd h player (add_win (h player))
    | P2_WIN => upd h player (add_lose (h player))
    | DRAW => h
    end in
  Ok (h1,
      delta_append delta player
        (get_elo_delta (h1 player) (h1 other_player) outcome k_factor)).

Definition collect_deltas (w : World) (g : Game) (k_factor : R)
  : res ((pref -> Player) * list (pref * list R)) :=
  foldM
    (fun st tp =>
       let '(team, player) := tp in
       foldM (rate_against w k_factor team player)
             (Game_players w g (Some team)) st)
    (Game_players w g None)
    (player_of w, []).

(** [Game.update_elo], second loop: one step for one entry of [delta]. *)
Definition apply_delta (nudge : option Z) (st : (pref -> Player) * Rng)
    (entry : pref * list R) : res ((pref -> Player) * Rng) :=
  let '(h, g) := st in
  let '(player, player_deltas) := entry in
  avg <- truediv (Rsum player_deltas) (length player_deltas) ;;
  let h1 := upd h player (set_elo (h player) (elo (h player) + avg)%R) in
  if truthy nudge then
    let (p', g') := Player_nudge (h1 player) (int_value nudge) g in
    Ok (upd h1 player p', g')
  else Ok (h1, g).

Definition update_elo (g : Game) (k_factor : R) (w : World) : res World :=
  '(h, delta) <- collect_deltas w g k_factor ;;
  '(h', rng') <- foldM (apply_delta (game_nudge g)) delta (h, rng w) ;;
  Ok (with_rng (with_players w h') rng').

(** [Game.compute_score], first loop: the strength of one team. *)
Definition team_strength (w : World) (g : Game) (team : tref) : res R :=
  let ps := team_players (team_of w team) in
  let true_rating :=
    if truthy (game_nudge g)
    then map (fun p => IZR (true_rating (player_of w p))) ps
    else map (fun p => elo (player_of w p)) ps in
  let nb_god := length (filter (fun p => god (player_of w p)) ps) in
  avg <- truediv (Rsum true_rating) (length true_rating) ;;
  Ok (avg + avg * god_boost g * INR nb_god)%R.

Definition team_strengths (w : World) (g : Game) : res (list (tref * R)) :=
  foldM (fun teams_elo team =>
           s <- team_strength w g team ;; Ok (dict_set teams_elo team s))
        (game_teams g) [].

(** Second loop: one weighted draw, removed from [teams_elo]. *)
Definition draw_team (st : list tref * list (tref * R) * Rng) (_ : tref)
  : res (list tref * list (tref * R) * Rng) :=
  let '(results, teams_elo, g) := st in
  '(team, g') <- random_choices (map fst teams_elo) (map snd teams_elo) g ;;
  teams_elo' <- dict_pop teams_elo team ;;
  Ok (results ++ [team], teams_elo', g').

(** The two first loops: the order in which the teams are drawn. *)
Definition draw_order (g : Game) (w : World) : res (list tref * Rng) :=
  teams_elo <- team_strengths w g ;;
  '(results, _, g') <- foldM draw_team (game_teams g) ([], teams_elo, rng w) ;;
  Ok (results, g').

(** Third loop: [for score, team in enumerate(results[::-1])]. *)
Definition enumerate {A : Type} (l : list A) : list (nat * A) :=
  combine (seq 0 (length l)) l.

Definition score_step (h : tref -> Team) (st : nat * tref) : tref -> Team :=
  let '(score, team) := st in
  upd h team (set_score (h team) (Z.of_nat score)).

Definition assign_scores (results : list tref) (h : tref -> Team)
  : tref -> Team :=
  fold_left score_step (enumerate (rev results)) h.

Definition compute_score (g : Game) (w : World) : res World :=
  '(results, g') <- draw_order g w ;;
  Ok (with_rng (with_teams w (assign_scores results (team_of w)) (team_count w))
               g').

(** ** server.py *)

(** *** Python lists *)

(** [list.sort(key=...)]: a stable sort; [leb] is the order of the keys. *)
Fixpoint insert_by {A K : Type} (leb : K -> K -> bool) (key : A -> K)
    (x : A) (l : list A) : list A :=
  match l with
  | [] => [x]
  | y :: rest =>
      if leb (key x) (key y) then x :: y :: rest
      else y :: insert_by leb key x rest
  end.

Fixpoint sort_by {A K : Type} (leb : K -> K -> bool) (key : A -> K)
    (l : list A) : list A :=
  match l with
  | [] => []
  | x :: rest => insert_by leb key x (sort_by leb key rest)
  end.

Definition Rleb (x y : R) : bool := if Rle_dec x y then true else false.

(** [l[:n]], the stop index counted from the end when negative. *)
Definition slice_to {A : Type} (l : list A) (n : Z) : list A :=
  if (0 <=? n)%Z then firstn (Z.to_nat n) l
  else firstn (Z.to_nat (Z.of_nat (length l) + n)) l.

(** [l[::k]]: [skip] elements are passed over before the next one is
    taken. *)
Fixpoint stride_from {A : Type} (k skip : nat) (l : list A) : list A :=
  match l with
  | [] => []
  | x :: rest =>
      match skip with
      | O => x :: stride_from k (k - 1) rest
      | S skip' => stride_from k skip' rest
      end
  end.

Definition slice_step {A : Type} (l : list A) (k : Z) : res (list A) :=
  if (k =? 0)%Z then Raise ValueError
  else if (0 <? k)%Z then Ok (stride_from (Z.to_nat k) 0 l)
  else Ok (stride_from (Z.to_nat (- k)) 0 (rev l)).

(** [l.remove(x)]: the first element equal to [x] goes. *)
Fixpoint list_remove (l : list pref) (x : pref) : res (list pref) :=
  match l with
  | [] => Raise ValueError
  | y :: rest =>
      if Nat.eqb y x then Ok rest
      else rest' <- list_remove rest x ;; Ok (y :: rest')
  end.

(** [range(n)]. *)
Definition range (n : Z) : list Z := map Z.of_nat (seq 0 (Z.to_nat n)).

(** *** PlayerStore *)

Inductive PlayerStatus : Type := IN_GAME | WAITING.

Definition PlayerStatus_eqb (a b : PlayerStatus) : bool :=
  match a, b with
  | IN_GAME, IN_GAME | WAITING, WAITING => true
  | _, _ => false
  end.

(** The [players] dict, from player object to status. *)
Record PlayerStore : Type := {
  statuses : list (pref * PlayerStatus)
}.

Definition PlayerStore_init (players : list pref) : PlayerStore :=
  {| statuses := fold_left (fun d p => dict_set d p WAITING) players [] |}.

Definition PlayerStore_get (st : PlayerStore) (wanted_status : PlayerStatus)
  : list pref :=
  map fst
    (filter (fun e => PlayerStatus_eqb (snd e) wanted_status) (statuses st)).

Definition PlayerStore_get_all (st : PlayerStore) : list pref :=
  map fst (statuses st).

(** The body of the loop of [PlayerStore.set]. *)
Definition set_one (status : PlayerStatus) (sw : PlayerStore * World)
    (player : pref) : PlayerStore * World :=
  let (st, w) := sw in
  let st1 := {| statuses := dict_set (statuses st) player status |} in
  let (t, c1) := datetime_now (clock w) in
  let h1 := upd (player_of w) player
                (set_last_played (player_of w player) t) in
  let (tns, c2) := perf_counter c1 in
  let h2 := upd h1 player (set_last_played_ns (h1 player) tns) in
  (st1, with_clock (with_players w h2) c2).

Definition PlayerStore_set (st : PlayerStore) (players : list pref)
    (status : PlayerStatus) (w : World) : PlayerStore * World :=
  fold_left (set_one status) players (st, w).

(** *** LivePlot: the data it keeps; the figure is kept as the data that
    was last drawn on its axes ([canvas]) *)

Record LivePlot : Type := {
  elo_plot_data : list (pref * list R);
  latency_avg : list R;
  latency_max : list R;
  latency_raw : list R;
  show_live : bool;
  cycle : nat;
  running_average : Z;
  latency_buffer : list R;
  canvas : option (list (pref * list R) * (list R * list R * list R))
}.

Definition LivePlot_init (st : PlayerStore) (show_graph : bool)
    (smoothing : Z) : LivePlot :=
  {| elo_plot_data :=
       fold_left (fun d p => dict_set d p []) (PlayerStore_get_all st) [];
     latency_avg := []; latency_max := []; latency_raw := [];
     show_live := show_graph;
     cycle := 0;
     running_average := smoothing;
     latency_buffer := [];
     canvas := None |}.

Definition update_latency (pl : LivePlot) (players : list pref) (w : World)
  : LivePlot * World :=
  let (now, c1) := perf_counter (clock w) in
  ({| elo_plot_data := elo_plot_data pl;
      latency_avg := latency_avg pl; latency_max := latency_max pl;
      latency_raw := latency_raw pl;
      show_live := show_live pl; cycle := cycle pl;
      running_average := running_average pl;
      latency_buffer :=
        latency_buffer pl
        ++ map (fun player =>
                  ((now - last_played_ns (player_of w player)) * 1000)%R)
               players;
      canvas := canvas pl |},
   with_clock w c1).

(** [elo_plot_data[player].append(x)] on a plain dict. *)
Fixpoint plot_append (d : list (pref * list R)) (p : pref) (x : R)
  : res (list (pref * list R)) :=
  match d with
  | [] => Raise KeyError
  | (q, l) :: rest =>
      if Nat.eqb q p then Ok ((q, l ++ [x]) :: rest)
      else rest' <- plot_append rest p x ;; Ok ((q, l) :: rest')
  end.

(** [max] of a list. *)
Definition Rmax_list (l : list R) : res R :=
  match l with
  | [] => Raise ValueError
  | x :: rest => Ok (fold_left Rmax rest x)
  end.

Definition update_data (pl : LivePlot) (st : PlayerStore) (w : World)
  : res LivePlot :=
  elo_data <- foldM (fun d player => plot_append d player (elo (player_of w player)))
                    (PlayerStore_get_all st) (elo_plot_data pl) ;;
  avg <- truediv (Rsum (latency_buffer pl)) (length (latency_buffer pl)) ;;
  mx <- Rmax_list (latency_buffer pl) ;;
  Ok {| elo_plot_data := elo_data;
        latency_avg := latency_avg pl ++ [avg];
        latency_max := latency_max pl ++ [mx];
        latency_raw := latency_raw pl ++ latency_buffer pl;
        show_live := show_live pl;
        cycle := cycle pl + 1;
        running_average := running_average pl;
        latency_buffer := [];
        canvas := canvas pl |}.

(** [__draw]: the three axes are cleared and drawn again from the data
    given; nothing else is written. *)
Definition LivePlot_draw (pl : LivePlot) (elo_data : list (pref * list R))
    (latency_data : list R * list R * list R) : LivePlot :=
  {| elo_plot_data := elo_plot_data pl;
     latency_avg := latency_avg pl; latency_max := latency_max pl;
     latency_raw := latency_raw pl;
     show_live := show_live pl; cycle := cycle pl;
     running_average := running_average pl;
     latency_buffer := latency_buffer pl;
     canvas := Some (elo_data, latency_data) |}.

(** [show]: draws only when the live view is on, and then every tenth
    cycle. *)
Definition LivePlot_show (pl : LivePlot) : LivePlot :=
  if negb (show_live pl) || negb (Nat.eqb (Nat.modulo (cycle pl) 10) 0)
  then pl
  else LivePlot_draw pl (elo_plot_data pl)
                     (latency_avg pl, latency_max pl, latency_raw pl).

(** [l[i:j]]: a negative index counts from the end, and both ends are
    clipped to the list. *)
Definition slice_index (len : nat) (i : Z) : nat :=
  if (i <? 0)%Z then Z.to_nat (Z.max 0 (Z.of_nat len + i))
  else Nat.min (Z.to_nat i) len.

Definition slice {A : Type} (l : list A) (i j : Z) : list A :=
  let a := slice_index (length l) i in
  let b := slice_index (length l) j in
  firstn (b - a) (skipn a l).

(** [x / n] for an integer [n]. *)
Definition truediv_int (x : R) (n : Z) : res R :=
  if (n =? 0)%Z then Raise ZeroDivisionError else Ok (x / IZR n)%R.

(** [l[i] = x] for an index that is not negative. *)
Definition list_set (l : list R) (i : nat) (x : R) : res (list R) :=
  if (i <? length l)%nat then Ok (firstn i l ++ x :: skipn (S i) l)
  else Raise IndexError.

(** [__preprocessing], its first loop for one series: the running
    averages over windows of [running_average] entries. *)
Definition smooth (ra : Z) (data : list R) : res (list R) :=
  foldM (fun acc i =>
           x <- truediv_int (Rsum (slice data i (i + ra))) ra ;;
           Ok (acc ++ [x]))
        (range (Z.of_nat (length data) - ra)) [].

Definition smooth_all (ra : Z) (d : list (pref * list R))
  : res (list (pref * list R)) :=
  foldM (fun acc entry =>
           s <- smooth ra (snd entry) ;; Ok (dict_set acc (fst entry) s))
        d [].

(** Its second loop, for one index: the entry is set to 0 in the three
    latency lists, in the order of the keys. *)
Definition zero_entry (lat : list R * list R * list R) (i : nat)
  : res (list R * list R * list R) :=
  let '(avg, mx, raw) := lat in
  avg' <- list_set avg i 0%R ;;
  mx' <- list_set mx i 0%R ;;
  raw' <- list_set raw i 0%R ;;
  Ok (avg', mx', raw').

Definition LivePlot_preprocessing (pl : LivePlot)
  : res (list (pref * list R) * LivePlot) :=
  processed_data <- smooth_all (running_average pl) (elo_plot_data pl) ;;
  lat <- foldM zero_entry [0; 1]
               (latency_avg pl, latency_max pl, latency_raw pl) ;;
  let '(avg, mx, raw) := lat in
  Ok (processed_data,
      {| elo_plot_data := elo_plot_data pl;
         latency_avg := avg; latency_max := mx; latency_raw := raw;
         show_live := show_live pl; cycle := cycle pl;
         running_average := running_average pl;
         latency_buffer := latency_buffer pl;
         canvas := canvas pl |}).

(** [save]: the data is preprocessed and drawn, and the figure is written
    to a file named after the current time.  The calls into matplotlib
    and the file system are taken to return. *)
Definition LivePlot_save (pl : LivePlot) (w : World)
  : res (LivePlot * World) :=
  data <- LivePlot_preprocessing pl ;;
  let (processed_data, pl1) := data in
  let pl2 :=
    LivePlot_draw pl1 processed_data
                  (latency_avg pl1, latency_max pl1, latency_raw pl1) in
  let (_, c1) := datetime_now (clock w) in
  Ok (pl2, with_clock w c1).

(** *** MatchMakerServer *)

(** The [games_settings] dict, with the keys the server reads. *)
Record GamesSettings : Type := {
  cfg_team_size : Z;
  cfg_team_number : Z;
  cfg_k_factor : R;
  cfg_nudge : option Z;
  cfg_game_duration : R
}.

(** The task of a game: still running, or finished with the result of
    [Game.run]. *)
Inductive Task : Type :=
| Pending
| Done (result : res unit).

Record MatchMakerServer : Type := {
  srv_players : PlayerStore;
  games_settings : GamesSettings;
  team_size : Z;
  team_number : Z;
  k_factor : R;
  srv_nudge : option Z;
  game_duration : R;
  active_games : list (Game * Task);
  max_round : option Z;
  plot : LivePlot;
  srv_god_boost : R
}.

(** [MatchMakerServer.__init__]: every setting is stored as given. *)
Definition MatchMakerServer_init (players : list pref)
    (settings : GamesSettings) (rounds : option Z) (show_graph : bool)
    (smoothing : Z) (boost : R)
  : MatchMakerServer :=
  let store := PlayerStore_init players in
  {| srv_players := store;
     games_settings := settings;
     team_size := cfg_team_size settings;
     team_number := cfg_team_number settings;
     k_factor := cfg_k_factor settings;
     srv_nudge := cfg_nudge settings;
     game_duration := cfg_game_duration settings;
     active_games := [];
     max_round := rounds;
     plot := LivePlot_init store show_graph smoothing;
     srv_god_boost := boost |}.

Definition with_store (srv : MatchMakerServer) (st : PlayerStore)
  : MatchMakerServer :=
  {| srv_players := st; games_settings := games_settings srv;
     team_size := team_size srv; team_number := team_number srv;
     k_factor := k_factor srv; srv_nudge := srv_nudge srv;
     game_duration := game_duration srv; active_games := active_games srv;
     max_round := max_round srv; plot := plot srv;
     srv_god_boost := srv_god_boost srv |}.

Definition with_active_games (srv : MatchMakerServer)
    (games : list (Game * Task)) : MatchMakerServer :=
  {| srv_players := srv_players srv; games_settings := games_settings srv;
     team_size := team_size srv; team_number := team_number srv;
     k_factor := k_factor srv; srv_nudge := srv_nudge srv;
     game_duration := game_duration srv; active_games := games;
     max_round := max_round srv; plot := plot srv;
     srv_god_boost := srv_god_boost srv |}.

Definition with_plot (srv : MatchMakerServer) (pl : LivePlot)
  : MatchMakerServer :=
  {| srv_players := srv_players srv; games_settings := games_settings srv;
     team_size := team_size srv; team_number := team_number srv;
     k_factor := k_factor srv; srv_nudge := srv_nudge srv;
     game_duration := game_duration srv; active_games := active_games srv;
     max_round := max_round srv; plot := pl;
     srv_god_boost := srv_god_boost srv |}.

(** [find_players], the loop that builds the teams: one team is taken
    from the working buffer and its players are removed from it. *)
Definition take_team (num_teams : Z)
    (st : list (list pref) * list pref) (i : Z)
  : res (list (list pref) * list pref) :=
  let (teams, pending_players) := st in
  team <- slice_step pending_players (num_teams - i)%Z ;;
  pending_players' <- foldM list_remove team pending_players ;;
  Ok (teams ++ [team], pending_players').

Definition find_players (st : PlayerStore) (w : World)
    (num_per_teams num_teams : Z) : res (option (list (list pref))) :=
  let waiting_players := PlayerStore_get st WAITING in
  let waiting_players :=
    sort_by Z.leb (fun x => last_played (player_of w x)) waiting_players in
  if (Z.of_nat (length waiting_players) <? num_per_teams * num_teams)%Z
  then Ok None
  else
    match waiting_players with
    | [] => Raise IndexError
    | first_player :: waiting_players =>
        let pending_players := [first_player] in
        let waiting_players :=
          sort_by Rleb
            (fun x => Rabs (elo (player_of w x)
                            - elo (player_of w first_player)))
            waiting_players in
        let pending_players :=
          pending_players
          ++ slice_to waiting_players (num_per_teams * num_teams - 1)%Z in
        let pending_players :=
          sort_by Rleb (fun x => elo (player_of w x)) pending_players in
        '(teams, _) <- foldM (take_team num_teams) (range num_teams)
                             ([], pending_players) ;;
        Ok (Some teams)
    end.

(** [Team(players=players)] for every roster: new team objects. *)
Definition new_team (tw : list tref * World) (players : list pref)
  : list tref * World :=
  let (teams, w) := tw in
  let t := team_count w in
  (teams ++ [t],
   with_teams w (upd (team_of w) t (Team_init players)) (S t)).

Definition try_create_game (srv : MatchMakerServer) (w : World)
  : res (MatchMakerServer * World) :=
  players_teams <- find_players (srv_players srv) w
                                (team_size srv) (team_number srv) ;;
  match players_teams with
  | None => Ok (srv, w)
  | Some players_teams =>
      let (teams, w1) := fold_left new_team players_teams ([], w) in
      let (game, g1) :=
        Game_init teams (srv_nudge srv) (srv_god_boost srv) (rng w1) in
      let w2 := with_rng w1 g1 in
      let (pl, w3) :=
        update_latency (plot srv) (map snd (Game_players w2 game None)) w2 in
      let (store, w4) :=
        PlayerStore_set (srv_players srv)
                        (map snd (Game_players w3 game None)) IN_GAME w3 in
      Ok (with_active_games (with_plot (with_store srv store) pl)
                            (active_games srv ++ [(game, Pending)]),
          w4)
  end.

(** [handle_games], the body of its first loop for one active game. *)
Definition handle_game (k : R) (acc : PlayerStore * World * nat)
    (entry : Game * Task) : res (PlayerStore * World * nat) :=
  let '(st, w, finished) := acc in
  let (game, task) := entry in
  match task with
  | Pending => Ok acc
  | Done result =>
      _ <- result ;;
      w1 <- update_elo game k w ;;
      let (st', w2) :=
        PlayerStore_set st (map snd (Game_players w1 game None)) WAITING w1 in
      Ok (st', w2, S finished)
  end.

Definition is_pending (entry : Game * Task) : bool :=
  match snd entry with
  | Pending => true
  | Done _ => false
  end.

(** [handle_games]: [finished_game] is kept by its length; the games it
    lists are the active games whose task is done, and they are the ones
    popped. *)
Definition handle_games (srv : MatchMakerServer) (w : World)
  : res (MatchMakerServer * World * Z) :=
  '(st, w1, finished) <-
    foldM (handle_game (k_factor srv)) (active_games srv)
          (srv_players srv, w, 0) ;;
  let remaining := filter is_pending (active_games srv) in
  pl <- (if (0 <? finished)%nat then update_data (plot srv) st w1
         else Ok (plot srv)) ;;
  Ok (with_active_games (with_plot (with_store srv st) pl) remaining,
      w1, Z.of_nat finished).

(** How [run] ends within a bounded number of iterations. *)
Inductive RunResult : Type :=
| Running
| Stopped (ticks : nat) (srv : MatchMakerServer) (w : World)
          (round_finished : Z)
| Crashed (e : exn).

Section Scheduler.

(** What the event loop does while [run] awaits [asyncio.sleep(0.01)] in
    its iteration number [n]: the tasks of the active games make progress
    ([Game.run] computes the score when its own sleep is over) and the
    world changes with them.  Any behaviour is allowed. *)
Variable event_loop :
  nat -> list (Game * Task) -> World -> list (Game * Task) * World.

(** One iteration of the loop of [run], up to the test on [max_round];
    the result is [finished_game]. *)
Definition tick (n : nat) (srv : MatchMakerServer) (w : World)
  : res (MatchMakerServer * World * Z) :=
  '(srv1, w1) <- try_create_game srv w ;;
  '(srv2, w2, finished_game) <- handle_games srv1 w1 ;;
  let (games, w3) := event_loop n (active_games srv2) w2 in
  let srv3 := with_active_games srv2 games in
  Ok (with_plot srv3 (LivePlot_show (plot srv3)), w3, finished_game).

(** [run]: [ticks] iterations are behind, [fuel] bounds those ahead.  The
    progress bar is display only and is left out. *)
Fixpoint run_loop (fuel ticks : nat) (round_finished : Z)
    (srv : MatchMakerServer) (w : World) : RunResult :=
  match fuel with
  | O => Running
  | S fuel' =>
      match tick ticks srv w with
      | Raise e => Crashed e
      | Ok (srv', w', finished_game) =>
          if truthy (max_round srv') then
            let round_finished' := (round_finished + finished_game)%Z in
            if (round_finished' >? int_value (max_round srv'))%Z
            then
              match LivePlot_save (plot srv') w' with
              | Raise e => Crashed e
              | Ok (pl, w'') =>
                  Stopped (S ticks) (with_plot srv' pl) w'' round_finished'
              end
            else run_loop fuel' (S ticks) round_finished' srv' w'
          else run_loop fuel' (S ticks) round_finished srv' w'
      end
  end.

Definition run (fuel : nat) (srv : MatchMakerServer) (w : World)
  : RunResult :=
  run_loop fuel 0 0 srv w.

(** The server, the world and the number of completed games after [n]
    iterations that are not cut short. *)
Fixpoint completed (n : nat) (srv : MatchMakerServer) (w : World)
  : res (MatchMakerServer * World * Z) :=
  match n with
  | O => Ok (srv, w, 0%Z)
  | S n' =>
      '(srv1, w1, c) <- completed n' srv w ;;
      '(srv2, w2, finished_game) <- tick n' srv1 w1 ;;
      Ok (srv2, w2, (c + finished_game)%Z)
  end.

End Scheduler.

(** The keys of the status dict are distinct objects. *)
Definition store_wf (st : PlayerStore) : Prop := NoDup (map fst (statuses st)).

(** [d.get(k)] on a dict with object keys. *)
Fixpoint dict_get {V : Type} (d : list (nat * V)) (k : nat) : option V :=
  match d with
  | [] => None
  | (k', v) :: rest => if Nat.eqb k' k then Some v else dict_get rest k
  end.

(** ** Quantities the properties of [update_elo] are stated with *)

(** The outcome of [team.compare(other)] between two scored teams. *)
Definition outcome (w : World) (team other : tref) : GameOutcome :=
  match Team_compare (team_of w team) (team_of w other) with
  | Ok o => o
  | Raise _ => DRAW
  end.

(** Every team of the game has been given a score. *)
Definition scored (w : World) (g : Game) : Prop :=
  forall t, In t (game_teams g) -> team_score (team_of w t) <> None.

(** The players of the teams other than [team] whose comparison with
    [team] has outcome [o], counted. *)
Definition opponents_with (w : World) (g : Game) (o : GameOutcome)
    (team : tref) : nat :=
  list_sum
    (map (fun other =>
            if same_team (Some team) other then 0
            else if GameOutcome_eqb (outcome w team other) o
                 then length (team_players (team_of w other))
                 else 0)
         (game_teams g)).

(** The same over every team that [p] plays in. *)
Definition comparisons_with (w : World) (g : Game) (o : GameOutcome)
    (p : pref) : nat :=
  list_sum
    (map (fun team =>
            count_occ Nat.eq_dec (team_players (team_of w team)) p
            * opponents_with w g o team)
         (game_teams g)).

(** The teams other than [team] whose comparison with [team] has outcome
    [o], counted. *)
Definition teams_with (w : World) (g : Game) (o : GameOutcome)
    (team : tref) : nat :=
  length
    (filter (fun other =>
               negb (same_team (Some team) other)
               && GameOutcome_eqb (outcome w team other) o)
            (game_teams g)).

(** The deltas of [p] against every opposing player, in the order of the
    first loop of [update_elo], computed on the players as they are in
    [w]. *)
Definition pairwise_deltas (w : World) (g : Game) (k_factor : R) (p : pref)
  : list R :=
  flat_map
    (fun tp =>
       if Nat.eqb (snd tp) p then
         map (fun other =>
                get_elo_delta (player_of w p) (player_of w (snd other))
                              (outcome w (fst tp) (fst other)) k_factor)
             (Game_players w g (Some (fst tp)))
       else [])
    (Game_players w g None).

(** The value of [delta[p]], [[]] for a key that is absent. *)
Fixpoint delta_get (delta : list (pref * list R)) (p : pref) : list R :=
  match delta with
  | [] => []
  | (q, l) :: rest => if Nat.eqb q p then l else delta_get rest p
  end.

(** The first loop of [update_elo] seen as one loop over every comparison
    (player with team, opposing player with team), in order. *)
Definition comparisons (w : World) (g : Game)
  : list ((tref * pref) * (tref * pref)) :=
  flat_map
    (fun tp => map (fun other => (tp, other))
                   (Game_players w g (Some (fst tp))))
    (Game_players w g None).

Definition rate_step (w : World) (k_factor : R)
    (st : (pref -> Player) * list (pref * list R))
    (c : (tref * pref) * (tref * pref))
  : res ((pref -> Player) * list (pref * list R)) :=
  rate_against w k_factor (fst (fst c)) (snd (fst c)) st (snd c).

Definition count_outcome (w : World) (o : GameOutcome) (q : pref)
    (cs : list ((tref * pref) * (tref * pref))) : nat :=
  length
    (filter (fun c =>
               Nat.eqb (snd (fst c)) q
               && GameOutcome_eqb (outcome w (fst (fst c)) (fst (snd c))) o)
            cs).

Definition frozen_deltas (w : World) (k_factor : R) (q : pref)
    (cs : list ((tref * pref) * (tref * pref))) : list R :=
  flat_map
    (fun c =>
       if Nat.eqb (snd (fst c)) q then
         [get_elo_delta (player_of w q) (player_of w (snd (snd c)))
                        (outcome w (fst (fst c)) (fst (snd c))) k_factor]
       else [])
    cs.

Definition compares_ok (w : World)
    (cs : list ((tref * pref) * (tref * pref))) : Prop :=
  forall c, In c cs ->
    exists o,
      Team_compare (team_of w (fst (fst c))) (team_of w (fst (snd c))) = Ok o.

Definition delta_wf (delta : list (pref * list R)) : Prop :=
  NoDup (map fst delta) /\ Forall (fun e => snd e <> []) delta.

(** The rating a player leaves [update_elo] with: the average of its
    deltas is added, when it has any. *)
Definition new_elo (e : R) (ds : list R) : R :=
  match ds with
  | [] => e
  | _ :: _ => (e + Rsum ds / INR (length ds))%R
  end.

(** Every team of the game has a strength, and it is positive. *)
Definition strengths_positive (w : World) (g : Game) : Prop :=
  forall t, In t (game_teams g) ->
    exists s, team_strength w g t = Ok s /\ (0 < s)%R.

(** ** Concrete scenarios *)

Definition fresh_player (nm : Z) (e : R) : Player :=
  {| elo := e; name := nm; last_played := 0%Z; last_played_ns := 0%R;
     god := false; true_rating := 100%Z; win := 0; lose := 0 |}.

Definition idle_rng : Rng :=
  {| rng_stream := fun _ => {| d_bit := false; d_unit := 0%R; d_index := 0 |};
     rng_pos := 0 |}.

Definition idle_clock : Clock :=
  {| now_stream := fun n => (Z.of_nat n + 5)%Z; now_pos := 0;
     perf_stream := fun n => INR n; perf_pos := 0 |}.

(** Two teams of two players; team 0 (players 0 and 1) has score 1 and
    team 1 (players 2 and 3) has score 0. *)
Definition duel_world : World :=
  {| player_of := fun p => fresh_player (Z.of_nat p) 1000%R;
     team_of := fun t =>
       if Nat.eqb t 0
       then {| team_players := [0; 1]; team_score := Some 1%Z |}
       else {| team_players := [2; 3]; team_score := Some 0%Z |};
     team_count := 2;
     rng := idle_rng;
     clock := idle_clock |}.

Definition duel_game : Game :=
  {| game_teams := [0; 1]; tag := []; game_nudge := None; god_boost := 2%R |}.

(** One enrolled player, waiting. *)
Definition solo_store : PlayerStore := PlayerStore_init [0].

(** Settings with a team size of zero. *)
Definition zero_size_settings : GamesSettings :=
  {| cfg_team_size := 0; cfg_team_number := 2; cfg_k_factor := 20%R;
     cfg_nudge := None; cfg_game_duration := (1 / 100)%R |}.

(** Two enrolled players, waiting, and settings for two teams of one. *)
Definition pair_store : PlayerStore := PlayerStore_init [0; 1].

Definition one_by_two_settings : GamesSettings :=
  {| cfg_team_size := 1; cfg_team_number := 2; cfg_k_factor := 20%R;
     cfg_nudge := None; cfg_game_duration := (1 / 100)%R |}.

(** A world with players and no team object yet. *)
Definition lobby_world : World :=
  {| player_of := fun p => fresh_player (Z.of_nat p) 1000%R;
     team_of := fun _ => Team_init [];
     team_count := 0;
     rng := idle_rng;
     clock := idle_clock |}.

(** One enrolled player, games of one team of one player, and a stop
    after more than one completed game. *)
Definition one_by_one_settings : GamesSettings :=
  {| cfg_team_size := 1; cfg_team_number := 1; cfg_k_factor := 20%R;
     cfg_nudge := None; cfg_game_duration := (1 / 100)%R |}.

Definition solo_server : MatchMakerServer :=
  MatchMakerServer_init [0] one_by_one_settings (Some 1%Z) false 10 2%R.

(** One enrolled player and games of two teams of one. *)
Definition lone_server : MatchMakerServer :=
  MatchMakerServer_init [0] one_by_two_settings None false 10 2%R.

(** Four enrolled players, all in the game of [duel_world], whose task is
    done; the latency of the four has been recorded. *)
Definition two_by_two_settings : GamesSettings :=
  {| cfg_team_size := 2; cfg_team_number := 2; cfg_k_factor := 20%R;
     cfg_nudge := None; cfg_game_duration := (1 / 100)%R |}.

Definition duel_server : MatchMakerServer :=
  let srv :=
    MatchMakerServer_init [0; 1; 2; 3] two_by_two_settings None false 10
                          2%R in
  with_active_games
    (with_plot
       (with_store srv
          {| statuses := [(0, IN_GAME); (1, IN_GAME);
                          (2, IN_GAME); (3, IN_GAME)] |})
       (fst (update_latency (plot srv) [0; 1; 2; 3] duel_world)))
    [(duel_game, Done (Ok tt))].

(** After an iteration: the waiting players and, of player [p], the
    counters and the time stamp. *)
Definition waiting_and_record (r : res (MatchMakerServer * World * Z))
    (p : pref) : option (list pref * nat * nat * Z) :=
  match r with
  | Ok (s, w, _) =>
      Some (PlayerStore_get (srv_players s) WAITING,
            win (player_of w p), lose (player_of w p),
            last_played (player_of w p))
  | Raise _ => None
  end.

(** Players whose ratings go up by 100 from 1000, none in a team, and
    stores of the first three and of the first four of them. *)
Definition ladder_world : World :=
  {| player_of := fun p => fresh_player (Z.of_nat p) (1000 + 100 * INR p)%R;
     team_of := fun _ => Team_init [];
     team_count := 0;
     rng := idle_rng;
     clock := idle_clock |}.

Definition trio_store : PlayerStore := PlayerStore_init [0; 1; 2].

Definition quartet_store : PlayerStore := PlayerStore_init [0; 1; 2; 3].



(** The iteration at which a run stopped and its count of completed
    games; the count of completed games of an unbroken run. *)
Definition stop_of (r : RunResult) : option (nat * Z) :=
  match r with
  | Stopped ticks _ _ round_finished => Some (ticks, round_finished)
  | _ => None
  end.

Definition count_of (r : res (MatchMakerServer * World * Z)) : option Z :=
  match r with
  | Ok (_, _, c) => Some c
  | Raise _ => None
  end.

(** An event loop in which every pending game ends during the sleep, its
    teams drawn in the order of the game's list. *)
Definition finish_game (gw : list (Game * Task) * World)
    (entry : Game * Task) : list (Game * Task) * World :=
  let (games, w) := gw in
  let (game, task) := entry in
  match task with
  | Pending =>
      (games ++ [(game, Done (Ok tt))],
       with_teams w (assign_scores (game_teams game) (team_of w))
                  (team_count w))
  | Done _ => (games ++ [entry], w)
  end.

Definition finish_all (n : nat) (games : list (Game * Task)) (w : World)
  : list (Game * Task) * World :=
  fold_left finish_game games ([], w).

(** ** Notions used to state the further properties *)

(** The fields of a player that rating never touches. *)
Definition same_identity (p p' : Player) : Prop :=
  name p' = name p /\ god p' = god p /\
  last_played p' = last_played p /\ last_played_ns p' = last_played_ns p.

(** The players of the teams other than [team], counted; and the same
    over every team that [p] plays in: the opposing players of [p]. *)
Definition opposing_players (w : World) (g : Game) (team : tref) : nat :=
  list_sum
    (map (fun other =>
            if same_team (Some team) other then 0
            else length (team_players (team_of w other)))
         (game_teams g)).

Definition opponents_of (w : World) (g : Game) (p : pref) : nat :=
  list_sum
    (map (fun team =>
            count_occ Nat.eq_dec (team_players (team_of w team)) p
            * opposing_players w g team)
         (game_teams g)).

(** The players picked around the anchor [first_player], and the working
    buffer they form once sorted by rating. *)
Definition selection (w : World) (first_player : pref) (rest : list pref)
    (n : nat) : list pref :=
  [first_player]
  ++ firstn n
       (sort_by Rleb
          (fun x => Rabs (elo (player_of w x)
                          - elo (player_of w first_player)))
          rest).

Definition pool (w : World) (first_player : pref) (rest : list pref)
    (n : nat) : list pref :=
  sort_by Rleb (fun x => elo (player_of w x))
          (selection w first_player rest n).

(** The total rating of a roster. *)
Definition total_elo (w : World) (team : list pref) : R :=
  Rsum (map (fun p => elo (player_of w p)) team).


(** The active games whose task is done, counted. *)
Definition done_count (games : list (Game * Task)) : nat :=
  length (filter (fun entry => negb (is_pending entry)) games).

(** The solo scenario after its first game has been created, and after
    the first iteration, when that game's task is done. *)
Definition solo_started : MatchMakerServer * World :=
  match try_create_game solo_server lobby_world with
  | Ok sw => sw
  | Raise _ => (solo_server, lobby_world)
  end.

Definition solo_finished : MatchMakerServer * World :=
  match completed finish_all 1 solo_server lobby_world with
  | Ok (srv, w, _) => (srv, w)
  | Raise _ => (solo_server, lobby_world)
  end.

Definition sumR {A : Type} (f : A -> R) (l : list A) : R :=
  Rsum (map f l).

(** The delta of the player of [a] against the player of [b], on the
    outcome between their teams; and the same, zero inside a team. *)
Definition delta_of (w : World) (k : R) (a b : tref * pref) : R :=
  get_elo_delta (player_of w (snd a)) (player_of w (snd b))
                (outcome w (fst a) (fst b)) k.

Definition cross (w : World) (k : R) (a b : tref * pref) : R :=
  if Nat.eqb (fst b) (fst a) then 0%R else delta_of w k a b.

(** The duel of [duel_world] before any score has been drawn. *)
Definition unscored_world : World :=
  with_teams duel_world
    (fun t => {| team_players := team_players (team_of duel_world t);
                 team_score := None |})
    2.


(** A server whose only active game has failed. *)
Definition failed_server : MatchMakerServer :=
  with_active_games solo_server
    [(duel_game, Done (Raise ZeroDivisionError))].

(** * Properties *)

Section RatingEngine.

Open Scope R_scope.

Lemma rating_pos (p : Player) : 0 < rating p.
Proof. unfold rating, Rpower. apply exp_pos. Qed.

(** C2: the pairwise delta is antisymmetric: the delta of [a] against [b]
    under outcome [o] is the exact negative of the delta of [b] against [a]
    under the inverted outcome, over real arithmetic. *)
Theorem get_elo_delta_antisymmetric (a b : Player) (o : GameOutcome) (k : R) :
  get_elo_delta a b o k = - get_elo_delta b a (invert o) k.
Proof.
  unfold get_elo_delta.
  pose proof (rating_pos a) as Ha.
  pose proof (rating_pos b) as Hb.
  destruct o; simpl; field; lra.
Qed.

End RatingEngine.

Section Nudge.

Lemma Player_nudge_true_rating_nonneg (p : Player) (n : Z) (g : Rng) :
  (0 <= true_rating (fst (Player_nudge p n g)))%Z.
Proof.
  unfold Player_nudge.
  destruct (god p); [|destruct (randint01 g) as [[|] g']]; simpl; lia.
Qed.

Lemma Player_nudge_elo (p : Player) (n : Z) (g : Rng) :
  elo (fst (Player_nudge p n g)) = elo p.
Proof.
  unfold Player_nudge.
  destruct (god p); [|destruct (randint01 g) as [[|] g']]; reflexivity.
Qed.

Lemma nudge_many_elo (ns : list Z) :
  forall p g, elo (fst (nudge_many p ns g)) = elo p.
Proof.
  induction ns as [|n ns IH]; intros p g; simpl; [reflexivity|].
  pose proof (Player_nudge_elo p n g) as He.
  destruct (Player_nudge p n g) as [p' g']. simpl in He.
  rewrite IH. exact He.
Qed.

Lemma nudge_many_nonneg (ns : list Z) :
  forall p g, (0 <= true_rating p)%Z ->
    (0 <= true_rating (fst (nudge_many p ns g)))%Z.
Proof.
  induction ns as [|n ns IH]; intros p g Hp; simpl; [exact Hp|].
  pose proof (Player_nudge_true_rating_nonneg p n g) as Hn.
  destruct (Player_nudge p n g) as [p' g']. simpl in Hn.
  apply IH. exact Hn.
Qed.

(** C7: after one or more applications of [Player.nudge], whatever the
    magnitudes (in particular non-negative ones), the random directions and
    the starting value, [true_rating] is not negative; [elo] is left as it
    was, so it is not clamped. *)
Theorem nudge_true_rating_never_negative
    (p : Player) (n : Z) (rest : list Z) (g : Rng) :
  (0 <= true_rating (fst (nudge_many p (n :: rest) g)))%Z /\
  elo (fst (nudge_many p (n :: rest) g)) = elo p.
Proof.
  split; [|apply nudge_many_elo].
  simpl.
  pose proof (Player_nudge_true_rating_nonneg p n g) as Hn.
  destruct (Player_nudge p n g) as [p' g']. simpl in Hn.
  apply nudge_many_nonneg. exact Hn.
Qed.

End Nudge.

(** ** Loops *)

Section Loops.

Context {A S : Type}.

Lemma foldM_app (f : S -> A -> res S) (l1 l2 : list A) : forall s,
  foldM f (l1 ++ l2) s = (s' <- foldM f l1 s ;; foldM f l2 s').
Proof.
  induction l1 as [|x l1 IH]; intros s; simpl; [reflexivity|].
  destruct (f s x) as [s1|e]; simpl; [apply IH|reflexivity].
Qed.

Lemma foldM_ext (f f' : S -> A -> res S) (l : list A) :
  (forall s x, In x l -> f s x = f' s x) ->
  forall s, foldM f l s = foldM f' l s.
Proof.
  induction l as [|x l IH]; intros Hf s; simpl; [reflexivity|].
  rewrite (Hf s x (or_introl eq_refl)).
  destruct (f' s x) as [s1|e]; simpl; [|reflexivity].
  apply IH. intros s2 y Hy. apply Hf. right. exact Hy.
Qed.

Lemma foldM_map {B : Type} (f : S -> B -> res S) (m : A -> B) (l : list A) :
  forall s, foldM f (map m l) s = foldM (fun s x => f s (m x)) l s.
Proof.
  induction l as [|x l IH]; intros s; simpl; [reflexivity|].
  destruct (f s (m x)) as [s1|e]; simpl; [apply IH|reflexivity].
Qed.

End Loops.

Lemma foldM_nested {A B S : Type} (f : A -> S -> B -> res S)
    (inner : A -> list B) (l : list A) : forall s,
  foldM (fun s x => foldM (f x) (inner x) s) l s =
  foldM (fun s xy => f (fst xy) s (snd xy))
        (flat_map (fun x => map (fun y => (x, y)) (inner x)) l) s.
Proof.
  induction l as [|x l IH]; intros s; simpl; [reflexivity|].
  rewrite foldM_app, foldM_map. simpl.
  destruct (foldM (f x) (inner x) s) as [s1|e]; simpl; [apply IH|reflexivity].
Qed.

(** ** The rating engine on a game *)

Section UpdateElo.

Variable w : World.
Variable k : R.

Lemma collect_deltas_comparisons (g : Game) :
  collect_deltas w g k = foldM (rate_step w k) (comparisons w g) (player_of w, []).
Proof.
  unfold collect_deltas, comparisons.
  rewrite <- (foldM_nested
    (fun tp st other => rate_against w k (fst tp) (snd tp) st other)
    (fun tp => Game_players w g (Some (fst tp)))).
  apply foldM_ext. intros s [team player] _. reflexivity.
Qed.

Lemma get_elo_delta_elo (a a' b b' : Player) (o : GameOutcome) :
  elo a = elo a' -> elo b = elo b' ->
  get_elo_delta a b o k = get_elo_delta a' b' o k.
Proof.
  intros Ha Hb. unfold get_elo_delta, rating. rewrite Ha, Hb. reflexivity.
Qed.

Lemma delta_get_append (d : list (pref * list R)) (p q : pref) (x : R) :
  delta_get (delta_append d p x) q =
  delta_get d q ++ (if Nat.eqb p q then [x] else []).
Proof.
  induction d as [|[r l] d IH]; simpl.
  - destruct (Nat.eqb p q); reflexivity.
  - destruct (Nat.eqb r p) eqn:Erp; simpl.
    + apply Nat.eqb_eq in Erp. subst r.
      destruct (Nat.eqb p q); [reflexivity|].
      rewrite app_nil_r. reflexivity.
    + destruct (Nat.eqb r q) eqn:Erq; [|exact IH].
      apply Nat.eqb_eq in Erq. subst r.
      rewrite Nat.eqb_sym, Erp, app_nil_r. reflexivity.
Qed.

Lemma delta_append_keys (d : list (pref * list R)) (p : pref) (x : R) :
  forall q, In q (map fst (delta_append d p x)) <-> In q (map fst d) \/ q = p.
Proof.
  induction d as [|[r l] d IH]; intros q; simpl.
  - intuition.
  - destruct (Nat.eqb r p) eqn:Erp; simpl.
    + apply Nat.eqb_eq in Erp. subst r. intuition.
    + rewrite IH. intuition.
Qed.

Lemma delta_append_wf (d : list (pref * list R)) (p : pref) (x : R) :
  delta_wf d -> delta_wf (delta_append d p x).
Proof.
  unfold delta_wf. induction d as [|[r l] d IH]; simpl; intros [Hnd Hne].
  - split; repeat constructor; simpl; [tauto|discriminate].
  - inversion Hnd as [|? ? Hnotin Hnd']; subst.
    inversion Hne as [|? ? Hl Hne']; subst.
    destruct (Nat.eqb r p) eqn:Erp; simpl.
    + split; constructor; auto. simpl. destruct l; discriminate.
    + destruct (IH (conj Hnd' Hne')) as [IH1 IH2].
      split; constructor; auto.
      rewrite delta_append_keys. intros [Hin|Heq]; [tauto|].
      subst. rewrite Nat.eqb_refl in Erp. discriminate.
Qed.

Lemma upd_same {A : Type} (h : nat -> A) (r : nat) (a : A) : upd h r a r = a.
Proof. unfold upd. rewrite Nat.eqb_refl. reflexivity. Qed.

Lemma upd_other {A : Type} (h : nat -> A) (r q : nat) (a : A) :
  q <> r -> upd h r a q = h q.
Proof. intros H. unfold upd. apply Nat.eqb_neq in H. rewrite H. reflexivity. Qed.

Lemma rate_step_ok (h : pref -> Player) (d : list (pref * list R))
    (team player other_team other_player : tref) (o : GameOutcome) :
  Team_compare (team_of w team) (team_of w other_team) = Ok o ->
  (forall q, elo (h q) = elo (player_of w q)) ->
  exists h',
    rate_step w k (h, d) ((team, player), (other_team, other_player)) =
      Ok (h', delta_append d player
                (get_elo_delta (player_of w player) (player_of w other_player)
                               o k)) /\
    (forall q, elo (h' q) = elo (player_of w q)) /\
    (forall q, win (h' q) =
               win (h q) + (if Nat.eqb player q && GameOutcome_eqb o P1_WIN
                            then 1 else 0)) /\
    (forall q, lose (h' q) =
               lose (h q) + (if Nat.eqb player q && GameOutcome_eqb o P2_WIN
                             then 1 else 0)).
Proof.
  intros Hc Helo. unfold rate_step, rate_against. simpl. rewrite Hc. simpl.
  exists (match o with
          | P1_WIN => upd h player (add_win (h player))
          | P2_WIN => upd h player (add_lose (h player))
          | DRAW => h
          end).
  split.
  - apply f_equal. apply f_equal2; [reflexivity|]. apply f_equal.
    apply get_elo_delta_elo.
    + destruct o; unfold upd; try rewrite Nat.eqb_refl; simpl; apply Helo.
    + destruct o; unfold upd; try apply Helo;
        destruct (Nat.eqb other_player player) eqn:E; try apply Helo;
        apply Nat.eqb_eq in E; subst; simpl; apply Helo.
  - repeat split; intros q; destruct o; unfold upd;
      rewrite ?(Nat.eqb_sym q player);
      destruct (Nat.eqb player q) eqn:E; simpl;
      try apply Nat.eqb_eq in E; subst; try apply Helo; lia.
Qed.

Lemma rate_steps (cs : list ((tref * pref) * (tref * pref))) :
  compares_ok w cs ->
  forall h d,
    (forall q, elo (h q) = elo (player_of w q)) ->
    delta_wf d ->
    exists h' d',
      foldM (rate_step w k) cs (h, d) = Ok (h', d') /\
      (forall q, elo (h' q) = elo (player_of w q)) /\
      (forall q, win (h' q) = win (h q) + count_outcome w P1_WIN q cs) /\
      (forall q, lose (h' q) = lose (h q) + count_outcome w P2_WIN q cs) /\
      (forall q, delta_get d' q = delta_get d q ++ frozen_deltas w k q cs) /\
      delta_wf d'.
Proof.
  induction cs as [|[[team player] [other_team other_player]] cs IH];
    intros Hok h d Helo Hwf.
  - exists h, d. simpl. unfold count_outcome. simpl.
    split; [reflexivity|]. split; [exact Helo|].
    split; [intros q; lia|]. split; [intros q; lia|].
    split; [intros q; rewrite app_nil_r; reflexivity|exact Hwf].
  - destruct (Hok _ (or_introl eq_refl)) as [o Ho]. simpl in Ho.
    destruct (rate_step_ok h d team player other_team other_player o Ho Helo)
      as (h1 & Hstep & Helo1 & Hwin1 & Hlose1).
    destruct (IH (fun c Hc => Hok c (or_intror Hc)) h1 _ Helo1
                 (delta_append_wf d player
                    (get_elo_delta (player_of w player)
                       (player_of w other_player) o k) Hwf))
      as (h' & d' & Hfold & Helo' & Hwin' & Hlose' & Hget & Hwf').
    exists h', d'. cbn [foldM]. rewrite Hstep. cbn [bind].
    split; [exact Hfold|]. split; [exact Helo'|].
    assert (Hout : outcome w team other_team = o).
    { unfold outcome. rewrite Ho. reflexivity. }
    split; [|split; [|split; [|exact Hwf']]]; intros q.
    + rewrite Hwin', Hwin1. unfold count_outcome. simpl. rewrite Hout.
      destruct (Nat.eqb player q && GameOutcome_eqb o P1_WIN); simpl; lia.
    + rewrite Hlose', Hlose1. unfold count_outcome. simpl. rewrite Hout.
      destruct (Nat.eqb player q && GameOutcome_eqb o P2_WIN); simpl; lia.
    + rewrite Hget, delta_get_append. simpl. rewrite Hout, <- app_assoc.
      destruct (Nat.eqb player q) eqn:E; [|reflexivity].
      apply Nat.eqb_eq in E. subst q. reflexivity.
Qed.

End UpdateElo.

Section ApplyDeltas.

Variable nudge : option Z.

Lemma Player_nudge_win (p : Player) (n : Z) (g : Rng) :
  win (fst (Player_nudge p n g)) = win p /\
  lose (fst (Player_nudge p n g)) = lose p.
Proof.
  unfold Player_nudge.
  destruct (god p); [|destruct (randint01 g) as [[|] g']]; split; reflexivity.
Qed.

Lemma delta_get_absent (d : list (pref * list R)) (p : pref) :
  ~ In p (map fst d) -> delta_get d p = [].
Proof.
  induction d as [|[q l] d IH]; simpl; intros H; [reflexivity|].
  destruct (Nat.eqb q p) eqn:E.
  - apply Nat.eqb_eq in E. tauto.
  - apply IH. tauto.
Qed.

Lemma truediv_nonempty {A : Type} (x : R) (l : list A) :
  l <> [] -> truediv x (length l) = Ok (x / INR (length l))%R.
Proof. destruct l; [congruence|reflexivity]. Qed.

Lemma apply_delta_ok (h : pref -> Player) (g : Rng) (p : pref) (ds : list R) :
  ds <> [] ->
  exists h' g',
    apply_delta nudge (h, g) (p, ds) = Ok (h', g') /\
    (forall q, win (h' q) = win (h q)) /\
    (forall q, lose (h' q) = lose (h q)) /\
    (forall q, elo (h' q) =
               if Nat.eqb q p then new_elo (elo (h q)) ds else elo (h q)).
Proof.
  intros Hne. unfold apply_delta.
  rewrite (truediv_nonempty _ ds Hne). cbn [bind].
  assert (Hnew : new_elo (elo (h p)) ds
                 = (elo (h p) + Rsum ds / INR (length ds))%R).
  { destruct ds; [congruence|reflexivity]. }
  set (h1 := upd h p (set_elo (h p) (elo (h p) + Rsum ds / INR (length ds)))).
  assert (Hp : h1 p = set_elo (h p) (elo (h p) + Rsum ds / INR (length ds)))
    by apply upd_same.
  assert (Hq : forall q, q <> p -> h1 q = h q)
    by (intros q Hqp; apply upd_other; exact Hqp).
  destruct (truthy nudge).
  - pose proof (Player_nudge_win (h1 p) (int_value nudge) g) as [Hw Hl].
    pose proof (Player_nudge_elo (h1 p) (int_value nudge) g) as He.
    destruct (Player_nudge (h1 p) (int_value nudge) g) as [p' g'].
    simpl in Hw, Hl, He. exists (upd h1 p p'), g'.
    split; [reflexivity|].
    repeat split; intros q; destruct (Nat.eqb_spec q p) as [->|Hqp];
      rewrite ?upd_same, ?Hw, ?Hl, ?He, ?Hp, ?Hnew; try reflexivity;
      rewrite upd_other by exact Hqp; rewrite (Hq q Hqp); reflexivity.
  - exists h1, g. split; [reflexivity|].
    repeat split; intros q; destruct (Nat.eqb_spec q p) as [->|Hqp];
      rewrite ?Hp, ?Hnew; try reflexivity;
      rewrite (Hq q Hqp); reflexivity.
Qed.

Lemma apply_deltas (delta : list (pref * list R)) :
  delta_wf delta ->
  forall h g,
    exists h' g',
      foldM (apply_delta nudge) delta (h, g) = Ok (h', g') /\
      (forall q, win (h' q) = win (h q)) /\
      (forall q, lose (h' q) = lose (h q)) /\
      (forall q, elo (h' q) = new_elo (elo (h q)) (delta_get delta q)).
Proof.
  induction delta as [|[p ds] delta IH]; intros [Hnd Hne] h g.
  - exists h, g. simpl. auto.
  - inversion Hnd as [|? ? Hnotin Hnd']; subst.
    inversion Hne as [|? ? Hds Hne']; subst. simpl in Hds.
    destruct (apply_delta_ok h g p ds Hds)
      as (h1 & g1 & Hstep & Hw1 & Hl1 & He1).
    destruct (IH (conj Hnd' Hne') h1 g1) as (h' & g' & Hfold & Hw & Hl & He).
    exists h', g'. cbn [foldM]. rewrite Hstep. cbn [bind].
    split; [exact Hfold|].
    split; [intros q; rewrite Hw; apply Hw1|].
    split; [intros q; rewrite Hl; apply Hl1|].
    intros q. rewrite He, He1. simpl.
    rewrite (Nat.eqb_sym p q).
    destruct (Nat.eqb q p) eqn:E; [|reflexivity].
    apply Nat.eqb_eq in E. subst q.
    rewrite (delta_get_absent delta p Hnotin). reflexivity.
Qed.

End ApplyDeltas.

(** ** Counting the comparisons of a game *)

Section Counting.

Lemma length_filter_flat_map {A B : Type} (f : B -> bool) (F : A -> list B)
    (l : list A) :
  length (filter f (flat_map F l)) =
  list_sum (map (fun x => length (filter f (F x))) l).
Proof.
  induction l as [|x l IH]; simpl; [reflexivity|].
  rewrite filter_app, length_app, IH. reflexivity.
Qed.

Lemma list_sum_map_flat_map {A B : Type} (G : B -> nat) (F : A -> list B)
    (l : list A) :
  list_sum (map G (flat_map F l)) =
  list_sum (map (fun x => list_sum (map G (F x))) l).
Proof.
  induction l as [|x l IH]; simpl; [reflexivity|].
  rewrite map_app, list_sum_app, IH. reflexivity.
Qed.

Lemma flat_map_nested {A B C : Type} (f : B -> list C) (F : A -> list B)
    (l : list A) :
  flat_map f (flat_map F l) = flat_map (fun x => flat_map f (F x)) l.
Proof.
  induction l as [|x l IH]; simpl; [reflexivity|].
  rewrite flat_map_app, IH. reflexivity.
Qed.

Lemma list_sum_ext {A : Type} (f f' : A -> nat) (l : list A) :
  (forall x, f x = f' x) -> list_sum (map f l) = list_sum (map f' l).
Proof.
  intros H. induction l as [|x l IH]; simpl; [reflexivity|].
  rewrite H, IH. reflexivity.
Qed.

Variable w : World.
Variable g : Game.

Lemma Game_players_team (ignore_team : option tref) (tp : tref * pref) :
  In tp (Game_players w g ignore_team) -> In (fst tp) (game_teams g).
Proof.
  unfold Game_players. rewrite in_flat_map. intros (team & Hteam & Hin).
  destruct (same_team ignore_team team); [contradiction|].
  apply in_map_iff in Hin. destruct Hin as (p & <- & _). exact Hteam.
Qed.

Lemma scored_compares_ok : scored w g -> compares_ok w (comparisons w g).
Proof.
  intros Hs c Hc. unfold comparisons in Hc.
  apply in_flat_map in Hc. destruct Hc as (tp & Htp & Hc).
  apply in_map_iff in Hc. destruct Hc as (other & <- & Hother).
  apply Game_players_team in Htp. apply Game_players_team in Hother.
  simpl. unfold Team_compare.
  pose proof (Hs _ Htp) as H1. pose proof (Hs _ Hother) as H2.
  destruct (team_score (team_of w (fst tp))) as [a|]; [|congruence].
  destruct (team_score (team_of w (fst other))) as [b|]; [|congruence].
  destruct (a >? b)%Z; [eauto|]. destruct (a <? b)%Z; eauto.
Qed.

Lemma opponents_counted (o : GameOutcome) (team : tref) :
  length
    (filter (fun other => GameOutcome_eqb (outcome w team (fst other)) o)
            (Game_players w g (Some team))) =
  opponents_with w g o team.
Proof.
  unfold Game_players, opponents_with.
  rewrite length_filter_flat_map. apply list_sum_ext. intros other.
  destruct (same_team (Some team) other); [reflexivity|].
  induction (team_players (team_of w other)) as [|p ps IH];
    simpl; destruct (GameOutcome_eqb (outcome w team other) o);
    simpl; congruence.
Qed.

Lemma count_against (o : GameOutcome) (q : pref) (team : tref) (p : pref)
    (l : list (tref * pref)) :
  length
    (filter
       (fun c : (tref * pref) * (tref * pref) =>
          Nat.eqb (snd (fst c)) q
          && GameOutcome_eqb (outcome w (fst (fst c)) (fst (snd c))) o)
       (map (fun other => ((team, p), other)) l)) =
  if Nat.eqb p q
  then length (filter
         (fun other => GameOutcome_eqb (outcome w team (fst other)) o) l)
  else 0.
Proof.
  induction l as [|other l IHl]; simpl; [destruct (Nat.eqb p q); reflexivity|].
  destruct (Nat.eqb p q); simpl in *; [|exact IHl].
  destruct (GameOutcome_eqb (outcome w team (fst other)) o);
    simpl; congruence.
Qed.

Lemma list_sum_indicator (q : pref) (n : nat) (ps : list pref) :
  list_sum (map (fun p => if Nat.eqb p q then n else 0) ps) =
  count_occ Nat.eq_dec ps q * n.
Proof.
  induction ps as [|p ps IH]; simpl; [reflexivity|]. rewrite IH.
  destruct (Nat.eq_dec p q) as [->|Hpq].
  - rewrite Nat.eqb_refl. lia.
  - apply Nat.eqb_neq in Hpq. rewrite Hpq. lia.
Qed.

Lemma count_outcome_comparisons (o : GameOutcome) (q : pref) :
  count_outcome w o q (comparisons w g) = comparisons_with w g o q.
Proof.
  unfold count_outcome, comparisons, comparisons_with.
  rewrite length_filter_flat_map.
  unfold Game_players at 2. rewrite list_sum_map_flat_map.
  apply list_sum_ext. intros team. simpl. rewrite map_map. simpl.
  rewrite <- opponents_counted, <- list_sum_indicator.
  apply list_sum_ext. intros p. apply count_against.
Qed.

Lemma frozen_deltas_comparisons (k : R) (q : pref) :
  frozen_deltas w k q (comparisons w g) = pairwise_deltas w g k q.
Proof.
  unfold frozen_deltas, comparisons, pairwise_deltas.
  rewrite flat_map_nested. apply flat_map_ext. intros [team p]. simpl.
  induction (Game_players w g (Some team)) as [|other l IH]; simpl.
  - destruct (Nat.eqb p q); reflexivity.
  - rewrite IH. destruct (Nat.eqb p q); reflexivity.
Qed.

End Counting.

(** ** [Game.update_elo] on a scored game *)

Section UpdateEloScored.

Variable w : World.
Variable g : Game.
Variable k : R.

Lemma update_elo_scored :
  scored w g ->
  exists h delta w',
    collect_deltas w g k = Ok (h, delta) /\
    update_elo g k w = Ok w' /\
    (forall q, elo (h q) = elo (player_of w q)) /\
    (forall q, delta_get delta q = pairwise_deltas w g k q) /\
    (forall q, elo (player_of w' q) =
               new_elo (elo (player_of w q)) (pairwise_deltas w g k q)) /\
    (forall q, win (player_of w' q) =
               win (player_of w q) + comparisons_with w g P1_WIN q) /\
    (forall q, lose (player_of w' q) =
               lose (player_of w q) + comparisons_with w g P2_WIN q).
Proof.
  intros Hs.
  assert (Hwf0 : delta_wf []) by (split; constructor).
  destruct (rate_steps w k (comparisons w g) (scored_compares_ok w g Hs)
              (player_of w) [] (fun q => eq_refl) Hwf0)
    as (h & delta & Hfold & Helo & Hwin & Hlose & Hget & Hwf).
  destruct (apply_deltas (game_nudge g) delta Hwf h (rng w))
    as (h' & g' & Hfold' & Hwin' & Hlose' & Helo').
  exists h, delta, (with_rng (with_players w h') g').
  rewrite <- collect_deltas_comparisons in Hfold.
  split; [exact Hfold|].
  split; [unfold update_elo; rewrite Hfold; cbn [bind]; rewrite Hfold';
          reflexivity|].
  split; [exact Helo|].
  assert (Hget' : forall q, delta_get delta q = pairwise_deltas w g k q).
  { intros q. rewrite Hget. simpl. apply frozen_deltas_comparisons. }
  split; [exact Hget'|]. simpl.
  split; [intros q; rewrite Helo', Helo, Hget'; reflexivity|].
  split; intros q.
  - rewrite Hwin', Hwin, count_outcome_comparisons. reflexivity.
  - rewrite Hlose', Hlose, count_outcome_comparisons. reflexivity.
Qed.

(** C1 (amended): on a scored game [update_elo] succeeds, and a player's
    win counter grows by one for every opposing player on every team that
    the player's team outscored (not by one per outscored team); the loss
    counter grows likewise over the teams that outscored the player's
    team; a draw changes neither counter. *)
Theorem update_elo_counts_opposing_players :
  scored w g ->
  exists w',
    update_elo g k w = Ok w' /\
    forall p,
      win (player_of w' p) =
        win (player_of w p) + comparisons_with w g P1_WIN p /\
      lose (player_of w' p) =
        lose (player_of w p) + comparisons_with w g P2_WIN p.
Proof.
  intros Hs.
  destruct (update_elo_scored Hs)
    as (h & delta & w' & _ & Hup & _ & _ & _ & Hwin & Hlose).
  exists w'. split; [exact Hup|]. intros p. split; [apply Hwin|apply Hlose].
Qed.

(** C10: in one call of [update_elo] on a scored game, the first loop
    changes no rating, every collected delta is the one computed on the
    ratings the players had before the call, and the rating a player ends
    with is its earlier rating plus the average of those deltas: the order
    in which the players are visited does not enter any delta. *)
Theorem update_elo_uses_pre_update_elo :
  scored w g ->
  exists h delta w',
    collect_deltas w g k = Ok (h, delta) /\
    update_elo g k w = Ok w' /\
    (forall q, elo (h q) = elo (player_of w q)) /\
    (forall q, delta_get delta q = pairwise_deltas w g k q) /\
    (forall q, elo (player_of w' q) =
               new_elo (elo (player_of w q)) (pairwise_deltas w g k q)).
Proof.
  intros Hs.
  destruct (update_elo_scored Hs)
    as (h & delta & w' & Hc & Hup & Helo & Hget & Hnew & _).
  exists h, delta, w'. auto.
Qed.

End UpdateEloScored.

Lemma duel_scored : scored duel_world duel_game.
Proof.
  intros t [<-|[<-|[]]]; simpl; discriminate.
Qed.

Lemma update_elo_counts_opposing_players_witness :
  exists w',
    update_elo duel_game 20 duel_world = Ok w' /\
    forall p,
      win (player_of w' p) =
        win (player_of duel_world p)
        + comparisons_with duel_world duel_game P1_WIN p /\
      lose (player_of w' p) =
        lose (player_of duel_world p)
        + comparisons_with duel_world duel_game P2_WIN p.
Proof.
  apply (update_elo_counts_opposing_players duel_world duel_game 20).
  exact duel_scored.
Defined.

Lemma update_elo_uses_pre_update_elo_witness :
  exists h delta w',
    collect_deltas duel_world duel_game 20 = Ok (h, delta) /\
    update_elo duel_game 20 duel_world = Ok w' /\
    (forall q, elo (h q) = elo (player_of duel_world q)) /\
    (forall q, delta_get delta q = pairwise_deltas duel_world duel_game 20 q) /\
    (forall q, elo (player_of w' q) =
               new_elo (elo (player_of duel_world q))
                       (pairwise_deltas duel_world duel_game 20 q)).
Proof.
  apply (update_elo_uses_pre_update_elo duel_world duel_game 20).
  exact duel_scored.
Defined.

(** C1 as stated fails: player 0 is on the team that outscored one other
    team, of two players, and its win counter goes from 0 to 2. *)
Lemma win_counter_grows_per_opposing_player :
  exists w',
    update_elo duel_game 20 duel_world = Ok w' /\
    win (player_of duel_world 0) = 0 /\
    teams_with duel_world duel_game P1_WIN 0 = 1 /\
    win (player_of w' 0) = 2.
Proof.
  destruct (update_elo_scored duel_world duel_game 20 duel_scored)
    as (h & delta & w' & _ & Hup & _ & _ & _ & Hwin & _).
  exists w'. split; [exact Hup|].
  split; [reflexivity|]. split; [reflexivity|].
  rewrite Hwin. reflexivity.
Qed.

(** ** Dictionaries with object keys *)

Section Dict.

Context {V : Type}.

Lemma dict_set_keys (d : list (nat * V)) (k : nat) (v : V) :
  forall x, In x (map fst (dict_set d k v)) <-> In x (map fst d) \/ x = k.
Proof.
  induction d as [|[k' v'] d IH]; intros x; simpl.
  - intuition.
  - destruct (Nat.eqb_spec k' k) as [->|Hk]; simpl.
    + intuition.
    + rewrite IH. intuition.
Qed.

Lemma dict_set_NoDup (d : list (nat * V)) (k : nat) (v : V) :
  NoDup (map fst d) -> NoDup (map fst (dict_set d k v)).
Proof.
  induction d as [|[k' v'] d IH]; simpl; intros Hnd.
  - repeat constructor. simpl. tauto.
  - inversion Hnd as [|? ? Hnotin Hnd']; subst.
    destruct (Nat.eqb_spec k' k) as [->|Hk]; simpl.
    + constructor; assumption.
    + constructor; [|apply IH; exact Hnd'].
      rewrite dict_set_keys. intros [Hin|Heq]; [tauto|congruence].
Qed.

Lemma dict_pop_present (d : list (nat * V)) (k : nat) :
  In k (map fst d) -> exists d', dict_pop d k = Ok d'.
Proof.
  induction d as [|[k' v'] d IH]; simpl; intros Hin; [contradiction|].
  destruct (Nat.eqb_spec k' k) as [->|Hk]; [eauto|].
  destruct Hin as [Heq|Hin]; [congruence|].
  destruct (IH Hin) as [d' Hd']. rewrite Hd'. simpl. eauto.
Qed.

Lemma dict_pop_keys (d d' : list (nat * V)) (k : nat) :
  dict_pop d k = Ok d' ->
  Permutation (k :: map fst d') (map fst d).
Proof.
  revert d'. induction d as [|[k' v'] d IH]; simpl; intros d' H;
    [discriminate|].
  destruct (Nat.eqb_spec k' k) as [->|Hk].
  - inversion H; subst. reflexivity.
  - destruct (dict_pop d k) as [d1|e]; simpl in H; [|discriminate].
    inversion H; subst. simpl.
    rewrite perm_swap. apply perm_skip. apply IH. reflexivity.
Qed.

End Dict.

(** ** [random.choices] *)

Section Choices.

Lemma bisect_loop_bounds (a : list R) (x : R) (fuel : nat) :
  forall lo hi, lo <= hi ->
    lo <= bisect_loop fuel a x lo hi <= hi.
Proof.
  induction fuel as [|fuel IH]; intros lo hi Hle; cbn [bisect_loop]; [lia|].
  destruct (Nat.ltb_spec lo hi) as [Hlt|Hge]; [|lia].
  assert (Hmid : lo <= (lo + hi) / 2 < hi).
  { split.
    - apply Nat.div_le_lower_bound; lia.
    - apply Nat.Div0.div_lt_upper_bound; lia. }
  set (mid := (lo + hi) / 2) in *.
  destruct (Rlt_dec x (nth mid a 0%R)).
  - pose proof (IH lo mid (proj1 Hmid)). lia.
  - assert (Hle' : mid + 1 <= hi) by lia.
    pose proof (IH (mid + 1) hi Hle'). lia.
Qed.

Lemma accumulate_from_length (ws : list R) :
  forall acc, length (accumulate_from acc ws) = length ws.
Proof.
  induction ws as [|x ws IH]; intros acc; simpl; [reflexivity|].
  rewrite IH. reflexivity.
Qed.

Lemma accumulate_length (ws : list R) : length (accumulate ws) = length ws.
Proof.
  destruct ws as [|x ws]; simpl; [reflexivity|].
  rewrite accumulate_from_length. reflexivity.
Qed.

Lemma accumulate_from_pos (ws : list R) :
  Forall (fun x => 0 < x)%R ws ->
  forall acc, (0 < acc)%R ->
    Forall (fun x => 0 < x)%R (accumulate_from acc ws).
Proof.
  induction 1 as [|x ws Hx Hws IH]; intros acc Hacc; simpl; constructor.
  - lra.
  - apply IH. lra.
Qed.

Lemma accumulate_pos (ws : list R) :
  Forall (fun x => 0 < x)%R ws -> Forall (fun x => 0 < x)%R (accumulate ws).
Proof.
  intros H. destruct H as [|x ws Hx Hws]; simpl; constructor; [exact Hx|].
  apply accumulate_from_pos; assumption.
Qed.

Context {A : Type}.

Lemma random_choices_In (population : list A) (weights : list R) (g g' : Rng)
    (x : A) :
  random_choices population weights g = Ok (x, g') -> In x population.
Proof.
  unfold random_choices.
  destruct (negb (length (accumulate weights) =? length population));
    [discriminate|].
  destruct (rev (accumulate weights)) as [|total rest]; [discriminate|].
  destruct (Rle_dec total 0); [discriminate|].
  destruct (random_unit g) as [u g1].
  destruct (nth_error population _) as [y|] eqn:E; [|discriminate].
  intros H. inversion H; subst. eapply nth_error_In. exact E.
Qed.

Lemma random_choices_total (population : list A) (weights : list R) (g : Rng) :
  population <> [] ->
  length weights = length population ->
  Forall (fun x => 0 < x)%R weights ->
  exists x g', random_choices population weights g = Ok (x, g').
Proof.
  intros Hne Hlen Hpos. unfold random_choices.
  rewrite accumulate_length, Hlen, Nat.eqb_refl. simpl.
  pose proof (accumulate_pos weights Hpos) as Hacc.
  pose proof (accumulate_length weights) as Hal.
  destruct (rev (accumulate weights)) as [|total rest] eqn:Erev.
  - apply (f_equal (@length R)) in Erev. rewrite length_rev in Erev.
    simpl in Erev. destruct population; [congruence|simpl in *; lia].
  - assert (Htotal : (0 < total)%R).
    { rewrite Forall_forall in Hacc. apply Hacc. apply in_rev.
      rewrite Erev. left. reflexivity. }
    destruct (Rle_dec total 0) as [Hle|_]; [lra|].
    assert (Hb : forall x,
      bisect (accumulate weights) x 0 (length population - 1)
      <= length population - 1).
    { intros x. unfold bisect. apply bisect_loop_bounds. lia. }
    destruct (nth_error population _) as [y|] eqn:E; [eauto|].
    apply nth_error_None in E.
    specialize (Hb (d_unit (rng_stream g (rng_pos g)) * total)%R).
    destruct population; [congruence|simpl in *; lia].
Qed.

End Choices.

(** ** [Game.compute_score] *)

Section ComputeScore.

Variable w : World.
Variable g : Game.

Lemma team_strengths_keys (l : list tref) :
  forall d0 d,
    foldM (fun teams_elo team =>
             s <- team_strength w g team ;; Ok (dict_set teams_elo team s))
          l d0 = Ok d ->
    NoDup (map fst d0) ->
    NoDup (map fst d) /\
    forall x, In x (map fst d) <-> In x (map fst d0) \/ In x l.
Proof.
  induction l as [|team l IH]; intros d0 d H Hnd; simpl in H.
  - inversion H; subst. split; [exact Hnd|]. simpl. tauto.
  - destruct (team_strength w g team) as [s|e]; simpl in H; [|discriminate].
    destruct (IH _ _ H (dict_set_NoDup d0 team s Hnd)) as [Hnd' Hin].
    split; [exact Hnd'|]. intros x. rewrite Hin, dict_set_keys. simpl.
    intuition.
Qed.

Lemma draw_team_inv (results : list tref) (d : list (tref * R)) (r : Rng)
    (results' : list tref) (d' : list (tref * R)) (r' : Rng) (x : tref) :
  draw_team (results, d, r) x = Ok (results', d', r') ->
  exists team,
    results' = results ++ [team] /\
    Permutation (team :: map fst d') (map fst d).
Proof.
  unfold draw_team.
  destruct (random_choices (map fst d) (map snd d) r) as [[team r1]|e];
    simpl; [|discriminate].
  destruct (dict_pop d team) as [d1|e] eqn:Epop; simpl; [|discriminate].
  intros H. inversion H; subst. exists team. split; [reflexivity|].
  apply dict_pop_keys. exact Epop.
Qed.

Lemma draw_loop_inv (l : list tref) :
  forall results d r results' d' r',
    foldM draw_team l (results, d, r) = Ok (results', d', r') ->
    Permutation (results' ++ map fst d') (results ++ map fst d) /\
    length results' = length results + length l.
Proof.
  induction l as [|x l IH]; intros results d r results' d' r' H;
    cbn [foldM] in H.
  - inversion H; subst. split; [reflexivity|simpl; lia].
  - destruct (draw_team (results, d, r) x) as [[[results1 d1] r1]|e] eqn:E;
      cbn [bind] in H; [|discriminate].
    destruct (draw_team_inv _ _ _ _ _ _ _ E) as (team & -> & Hperm).
    destruct (IH _ _ _ _ _ _ H) as [Hp Hlen].
    split.
    + rewrite Hp, <- app_assoc. simpl. apply Permutation_app_head.
      exact Hperm.
    + rewrite Hlen, length_app. simpl. lia.
Qed.

(** A game whose scores could be computed has distinct teams, and the
    draw order lists each of them once. *)
Lemma draw_order_permutation (results : list tref) (r : Rng) :
  draw_order g w = Ok (results, r) ->
  NoDup (game_teams g) /\ Permutation results (game_teams g).
Proof.
  unfold draw_order, team_strengths.
  destruct (foldM _ (game_teams g) []) as [teams_elo|e] eqn:Es;
    simpl; [|discriminate].
  destruct (foldM draw_team (game_teams g) ([], teams_elo, rng w))
    as [[[results1 d1] r1]|e] eqn:Ed; simpl; [|discriminate].
  intros H. inversion H; subst.
  destruct (team_strengths_keys _ _ _ Es (NoDup_nil _)) as [Hnd Hin].
  destruct (draw_loop_inv _ _ _ _ _ _ _ Ed) as [Hperm Hlen].
  simpl in Hperm, Hlen.
  assert (Hincl : incl (map fst teams_elo) (game_teams g)).
  { intros x Hx. apply Hin in Hx. simpl in Hx. tauto. }
  pose proof (NoDup_incl_length Hnd Hincl) as Hle.
  pose proof (Permutation_length Hperm) as Hpl.
  rewrite length_app in Hpl.
  destruct (map fst d1) as [|k ks]; [|simpl in Hpl; lia].
  rewrite app_nil_r in Hperm. simpl in Hpl.
  assert (Hnd' : NoDup (game_teams g)).
  { apply (NoDup_incl_NoDup Hnd); [lia|exact Hincl]. }
  split; [exact Hnd'|].
  rewrite Hperm. apply NoDup_Permutation; [exact Hnd|exact Hnd'|].
  intros x. rewrite Hin. simpl. tauto.
Qed.

End ComputeScore.

Section AssignScores.

Lemma assign_untouched (l : list tref) (t : tref) :
  ~ In t l ->
  forall s h, fold_left score_step (combine (seq s (length l)) l) h t = h t.
Proof.
  induction l as [|x l IH]; intros Hnotin s h; simpl; [reflexivity|].
  rewrite IH by (simpl in Hnotin; tauto).
  apply upd_other. simpl in Hnotin. intros ->. tauto.
Qed.

Lemma assign_players (l : list tref) (t : tref) :
  forall s h,
    team_players (fold_left score_step (combine (seq s (length l)) l) h t)
    = team_players (h t).
Proof.
  induction l as [|x l IH]; intros s h; simpl; [reflexivity|].
  rewrite IH. unfold upd. destruct (Nat.eqb t x) eqn:E; [|reflexivity].
  apply Nat.eqb_eq in E. subst. reflexivity.
Qed.

Lemma assign_nth (l : list tref) :
  NoDup l ->
  forall s h j t,
    nth_error l j = Some t ->
    team_score (fold_left score_step (combine (seq s (length l)) l) h t)
    = Some (Z.of_nat (s + j)).
Proof.
  induction 1 as [|x l Hnotin Hnd IH]; intros s h j t Hj.
  - destruct j; discriminate.
  - simpl. destruct j as [|j]; simpl in Hj.
    + inversion Hj; subst.
      rewrite assign_untouched by exact Hnotin.
      rewrite upd_same. simpl. rewrite Nat.add_0_r. reflexivity.
    + rewrite (IH (S s) _ j t Hj). f_equal. lia.
Qed.

Lemma assign_scores_nth (results : list tref) (h : tref -> Team) :
  NoDup results ->
  forall i t,
    nth_error results i = Some t ->
    team_score (assign_scores results h t)
    = Some (Z.of_nat (length results - 1 - i)).
Proof.
  intros Hnd i t Hi.
  assert (Hlt : i < length results)
    by (apply nth_error_Some; congruence).
  unfold assign_scores, enumerate.
  rewrite (assign_nth (rev results) (NoDup_rev Hnd) 0 h
             (length results - 1 - i) t); [reflexivity|].
  - rewrite nth_error_rev.
    destruct (Nat.ltb_spec (length results - 1 - i) (length results));
      [|lia].
    rewrite <- Hi. f_equal. lia.
Qed.

End AssignScores.

Section ComputeScoreTotal.

Variable w : World.
Variable g : Game.

Lemma dict_set_Forall {V : Type} (P : V -> Prop) (d : list (nat * V))
    (k : nat) (v : V) :
  Forall (fun e => P (snd e)) d -> P v ->
  Forall (fun e => P (snd e)) (dict_set d k v).
Proof.
  induction 1 as [|[k' v'] d Hv Hd IH]; intros Pv; simpl.
  - repeat constructor. exact Pv.
  - destruct (Nat.eqb k' k); constructor; auto.
Qed.

Lemma dict_pop_Forall {V : Type} (P : nat * V -> Prop) (d : list (nat * V))
    (k : nat) :
  forall d', dict_pop d k = Ok d' -> Forall P d ->
    Forall P d' /\ S (length d') = length d.
Proof.
  induction d as [|[k' v'] d IH]; simpl; intros d' H Hall; [discriminate|].
  inversion Hall as [|? ? Hh Ht]; subst.
  destruct (Nat.eqb k' k).
  - inversion H; subst. auto.
  - destruct (dict_pop d k) as [d1|e]; simpl in H; [|discriminate].
    inversion H; subst. destruct (IH d1 eq_refl Ht) as [Hf Hl].
    split; [constructor; assumption|simpl; lia].
Qed.

Lemma team_strengths_total (l : list tref) :
  (forall t, In t l -> exists s, team_strength w g t = Ok s /\ (0 < s)%R) ->
  forall d0,
    Forall (fun e => 0 < snd e)%R d0 ->
    exists d,
      foldM (fun teams_elo team =>
               s <- team_strength w g team ;; Ok (dict_set teams_elo team s))
            l d0 = Ok d /\
      Forall (fun e => 0 < snd e)%R d.
Proof.
  induction l as [|team l IH]; intros Hs d0 Hd0; simpl.
  - eauto.
  - destruct (Hs team (or_introl eq_refl)) as (s & -> & Hpos). simpl.
    apply IH.
    + intros t Ht. apply Hs. right. exact Ht.
    + apply (dict_set_Forall (fun v => 0 < v)%R); assumption.
Qed.

Lemma draw_loop_total (l : list tref) :
  forall results d r,
    length l <= length d ->
    Forall (fun e => 0 < snd e)%R d ->
    exists st, foldM draw_team l (results, d, r) = Ok st.
Proof.
  induction l as [|x l IH]; intros results d r Hlen Hpos; cbn [foldM].
  - eauto.
  - assert (Hne : map fst d <> []).
    { destruct d; simpl in *; [lia|discriminate]. }
    assert (Hw : Forall (fun v => 0 < v)%R (map snd d)).
    { apply Forall_map. exact Hpos. }
    assert (Hl : length (map snd d) = length (map fst d)).
    { rewrite !length_map. reflexivity. }
    destruct (random_choices_total (map fst d) (map snd d) r Hne Hl Hw)
      as (team & r1 & Hc).
    pose proof (random_choices_In _ _ _ _ _ Hc) as Hin.
    destruct (dict_pop_present d team Hin) as [d1 Hpop].
    destruct (dict_pop_Forall _ d team d1 Hpop Hpos) as [Hpos1 Hlen1].
    unfold draw_team at 1. rewrite Hc. cbn [bind]. rewrite Hpop. cbn [bind].
    apply IH; [simpl in Hlen; lia|exact Hpos1].
Qed.

Lemma compute_score_total :
  NoDup (game_teams g) -> strengths_positive w g ->
  exists w', compute_score g w = Ok w'.
Proof.
  intros Hnd Hs.
  destruct (team_strengths_total (game_teams g) Hs [] (Forall_nil _))
    as (d & Hd & Hpos).
  destruct (team_strengths_keys w g _ _ _ Hd (NoDup_nil _)) as [Hndk Hin].
  assert (Hlen : length (game_teams g) <= length d).
  { rewrite <- (length_map fst d).
    apply NoDup_incl_length; [exact Hnd|].
    intros x Hx. apply Hin. right. exact Hx. }
  destruct (draw_loop_total (game_teams g) [] d (rng w) Hlen Hpos)
    as ([[results d1] r1] & Hdraw).
  unfold compute_score, draw_order, team_strengths.
  rewrite Hd. cbn [bind]. rewrite Hdraw. cbn [bind]. eauto.
Qed.

(** C4: when [compute_score] returns, the teams of the game are distinct
    objects, the draw order lists each of them once, the team drawn at
    position [i] holds the score [teamNumber - 1 - i] (so the first drawn
    holds [teamNumber - 1] and the last drawn holds 0), and the scores of
    the teams are exactly 0, ..., [teamNumber - 1], each once.  It returns
    whenever the teams are distinct and their strengths are positive. *)
Theorem compute_score_ranks_by_draw_order :
  (NoDup (game_teams g) -> strengths_positive w g ->
   exists w', compute_score g w = Ok w') /\
  forall w',
    compute_score g w = Ok w' ->
    exists results r,
      draw_order g w = Ok (results, r) /\
      NoDup (game_teams g) /\
      Permutation results (game_teams g) /\
      (forall i t, nth_error results i = Some t ->
         team_score (team_of w' t)
         = Some (Z.of_nat (length (game_teams g) - 1 - i))) /\
      Permutation (map (fun t => team_score (team_of w' t)) (game_teams g))
                  (map (fun i => Some (Z.of_nat i))
                       (seq 0 (length (game_teams g)))).
Proof.
  split; [exact compute_score_total|].
  intros w' H. unfold compute_score in H.
  destruct (draw_order g w) as [[results r]|e] eqn:Ed; simpl in H;
    [|discriminate].
  inversion H; subst. clear H. simpl.
  destruct (draw_order_permutation w g results r Ed) as [Hnd Hperm].
  assert (Hndr : NoDup results).
  { apply (Permutation_NoDup (Permutation_sym Hperm)). exact Hnd. }
  pose proof (Permutation_length Hperm) as Hlen.
  assert (Hnth : forall i t, nth_error results i = Some t ->
            team_score (assign_scores results (team_of w) t)
            = Some (Z.of_nat (length (game_teams g) - 1 - i))).
  { intros i t Hi. rewrite <- Hlen. apply assign_scores_nth; assumption. }
  exists results, r. repeat split; try assumption.
  rewrite <- Hperm.
  assert (Hmap : map (fun t => team_score (assign_scores results (team_of w) t))
                     results
                 = map (fun i => Some (Z.of_nat i))
                       (rev (seq 0 (length results)))).
  { apply nth_error_ext. intros i.
    rewrite !nth_error_map, nth_error_rev, length_seq.
    destruct (nth_error results i) as [t|] eqn:Hi; simpl.
    - assert (Hlt : i < length results)
        by (apply nth_error_Some; congruence).
      rewrite (Hnth i t Hi), <- Hlen.
      destruct (Nat.ltb_spec i (length results)); [|lia].
      rewrite nth_error_seq.
      destruct (Nat.ltb_spec (length results - S i) (length results)); [|lia].
      simpl. do 2 f_equal. lia.
    - apply nth_error_None in Hi.
      destruct (Nat.ltb_spec i (length results)); [lia|reflexivity]. }
  rewrite Hmap. apply Permutation_map. symmetry. apply Permutation_rev.
Qed.

End ComputeScoreTotal.

(** ** Python lists *)

Section Sorting.

Context {A K : Type}.
Variable leb : K -> K -> bool.
Variable key : A -> K.

Lemma insert_by_perm (x : A) (l : list A) :
  Permutation (insert_by leb key x l) (x :: l).
Proof.
  induction l as [|y l IH]; simpl; [reflexivity|].
  destruct (leb (key x) (key y)); [reflexivity|].
  rewrite IH. apply perm_swap.
Qed.

Lemma sort_by_perm (l : list A) : Permutation (sort_by leb key l) l.
Proof.
  induction l as [|x l IH]; simpl; [reflexivity|].
  rewrite insert_by_perm. apply perm_skip. exact IH.
Qed.

Lemma sort_by_length (l : list A) : length (sort_by leb key l) = length l.
Proof. apply Permutation_length, sort_by_perm. Qed.

End Sorting.

Section SortingZ.

Context {A : Type}.
Variable key : A -> Z.

Lemma insert_by_sorted (x : A) (l : list A) :
  StronglySorted (fun a b => key a <= key b)%Z l ->
  StronglySorted (fun a b => key a <= key b)%Z (insert_by Z.leb key x l).
Proof.
  induction 1 as [|y l Hs IH Hall]; simpl.
  - repeat constructor.
  - destruct (Z.leb_spec (key x) (key y)) as [Hle|Hgt].
    + constructor; [constructor; assumption|].
      constructor; [exact Hle|].
      rewrite Forall_forall in *. intros z Hz. specialize (Hall z Hz). lia.
    + constructor; [exact IH|].
      rewrite Forall_forall in *. intros z Hz.
      apply (Permutation_in _ (insert_by_perm Z.leb key x l)) in Hz.
      destruct Hz as [<-|Hz]; [lia|apply Hall; exact Hz].
Qed.

Lemma sort_by_sorted (l : list A) :
  StronglySorted (fun a b => key a <= key b)%Z (sort_by Z.leb key l).
Proof.
  induction l as [|x l IH]; simpl; [constructor|].
  apply insert_by_sorted. exact IH.
Qed.

Lemma sort_by_head_least (l : list A) (x : A) (rest : list A) :
  sort_by Z.leb key l = x :: rest ->
  forall y, In y l -> (key x <= key y)%Z.
Proof.
  intros E y Hy.
  pose proof (sort_by_sorted l) as Hs. rewrite E in Hs.
  apply (Permutation_in _ (Permutation_sym (sort_by_perm Z.leb key l))) in Hy.
  rewrite E in Hy. inversion Hs as [|? ? _ Hall]; subst.
  destruct Hy as [<-|Hy]; [lia|].
  rewrite Forall_forall in Hall. apply Hall. exact Hy.
Qed.

End SortingZ.

Section Slices.

Context {A : Type}.

Lemma stride_from_In (k : nat) (l : list A) :
  forall skip x, In x (stride_from k skip l) -> In x l.
Proof.
  induction l as [|y l IH]; intros skip x; simpl; [tauto|].
  destruct skip as [|skip']; simpl; intros H.
  - destruct H as [H|H]; [left; exact H|right; eapply IH; exact H].
  - right. eapply IH. exact H.
Qed.

Lemma stride_from_NoDup (k : nat) (l : list A) :
  NoDup l -> forall skip, NoDup (stride_from k skip l).
Proof.
  induction 1 as [|y l Hnotin Hnd IH]; intros skip; simpl; [constructor|].
  destruct skip as [|skip']; [|apply IH].
  constructor; [|apply IH].
  intros Hin. apply Hnotin. eapply stride_from_In. exact Hin.
Qed.

Lemma stride_from_length (k : nat) (l : list A) :
  0 < k ->
  forall skip, skip < k ->
    length (stride_from k skip l) = (length l + (k - 1 - skip)) / k.
Proof.
  intros Hk. induction l as [|y l IH]; intros skip Hskip; simpl.
  - symmetry. apply Nat.div_small. lia.
  - destruct skip as [|skip']; simpl.
    + rewrite IH by lia.
      replace (k - 1 - (k - 1)) with 0 by lia.
      replace (S (length l + (k - 1 - 0))) with (length l + 0 + 1 * k) by lia.
      rewrite Nat.div_add by lia. lia.
    + rewrite IH by lia. f_equal. lia.
Qed.

Lemma stride_length_multiple (k s : nat) (l : list A) :
  0 < k -> length l = s * k -> length (stride_from k 0 l) = s.
Proof.
  intros Hk Hl. rewrite stride_from_length by lia. rewrite Hl.
  replace (s * k + (k - 1 - 0)) with (k - 1 + s * k) by lia.
  rewrite Nat.div_add by lia. rewrite Nat.div_small by lia. reflexivity.
Qed.

Lemma firstn_In (n : nat) (l : list A) (x : A) :
  In x (firstn n l) -> In x l.
Proof.
  intros H. rewrite <- (firstn_skipn n l). apply in_or_app. left. exact H.
Qed.

Lemma firstn_NoDup (n : nat) (l : list A) : NoDup l -> NoDup (firstn n l).
Proof.
  intros H. rewrite <- (firstn_skipn n l) in H.
  apply NoDup_app_remove_r in H. exact H.
Qed.

End Slices.

Section Removal.

Lemma list_remove_perm (l : list pref) (x : pref) :
  forall l', list_remove l x = Ok l' -> Permutation (x :: l') l.
Proof.
  induction l as [|y l IH]; simpl; intros l' H; [discriminate|].
  destruct (Nat.eqb_spec y x) as [->|Hyx].
  - inversion H; subst. reflexivity.
  - destruct (list_remove l x) as [l1|e]; simpl in H; [|discriminate].
    inversion H; subst. rewrite perm_swap. apply perm_skip.
    apply IH. reflexivity.
Qed.

Lemma list_remove_present (l : list pref) (x : pref) :
  In x l -> exists l', list_remove l x = Ok l'.
Proof.
  induction l as [|y l IH]; simpl; intros Hin; [contradiction|].
  destruct (Nat.eqb_spec y x) as [->|Hyx]; [eauto|].
  destruct Hin as [Heq|Hin]; [congruence|].
  destruct (IH Hin) as [l' Hl']. rewrite Hl'. simpl. eauto.
Qed.

(** Removing a duplicate-free sublist leaves the rest, up to order. *)
Lemma remove_all (team : list pref) :
  NoDup team ->
  forall pending, incl team pending ->
    exists pending',
      foldM list_remove team pending = Ok pending' /\
      Permutation (team ++ pending') pending.
Proof.
  induction 1 as [|x team Hnotin Hnd IH]; intros pending Hincl; simpl.
  - eauto.
  - destruct (list_remove_present pending x (Hincl x (or_introl eq_refl)))
      as [l1 Hl1].
    rewrite Hl1. simpl.
    pose proof (list_remove_perm _ _ _ Hl1) as Hp.
    assert (Hincl1 : incl team l1).
    { intros y Hy.
      assert (Hy' : In y (x :: l1)).
      { apply (Permutation_in _ (Permutation_sym Hp)).
        apply Hincl. right. exact Hy. }
      destruct Hy' as [<-|Hy']; [contradiction|exact Hy']. }
    destruct (IH l1 Hincl1) as (pending' & Hfold & Hperm).
    exists pending'. split; [exact Hfold|].
    rewrite <- Hp. apply perm_skip. exact Hperm.
Qed.

End Removal.

(** ** [MatchMakerServer.find_players] *)

Section TeamBuilding.

Variable num_teams : Z.
Variable size : nat.

Lemma take_teams (n : nat) :
  forall (i0 : nat) (teams : list (list pref)) (pending : list pref),
    Z.of_nat (i0 + n) = num_teams ->
    NoDup pending ->
    length pending = size * n ->
    exists teams',
      foldM (take_team num_teams) (map Z.of_nat (seq i0 n)) (teams, pending)
        = Ok (teams ++ teams', []) /\
      length teams' = n /\
      Forall (fun team => length team = size) teams' /\
      Permutation (concat teams') pending.
Proof.
  induction n as [|n IH]; intros i0 teams pending Hi Hnd Hlen.
  - exists []. simpl. rewrite app_nil_r.
    destruct pending; [|simpl in Hlen; lia].
    repeat split; constructor.
  - cbn [seq map foldM]. unfold take_team at 1.
    assert (Hk : (num_teams - Z.of_nat i0 = Z.of_nat (S n))%Z) by lia.
    unfold slice_step. rewrite Hk.
    destruct (Z.eqb_spec (Z.of_nat (S n)) 0) as [H0|_]; [lia|].
    destruct (Z.ltb_spec 0 (Z.of_nat (S n))) as [_|H0]; [|lia].
    rewrite Nat2Z.id. cbn [bind].
    set (team := stride_from (S n) 0 pending).
    assert (Hteam_nd : NoDup team) by (apply stride_from_NoDup; exact Hnd).
    assert (Hteam_in : incl team pending)
      by (intros x Hx; eapply stride_from_In; exact Hx).
    assert (Hteam_len : length team = size).
    { apply stride_length_multiple; lia. }
    destruct (remove_all team Hteam_nd pending Hteam_in)
      as (pending' & Hrem & Hperm).
    rewrite Hrem. cbn [bind].
    assert (Hnd' : NoDup pending').
    { apply (Permutation_NoDup (Permutation_sym Hperm)) in Hnd.
      apply NoDup_app_remove_l in Hnd. exact Hnd. }
    assert (Hlen' : length pending' = size * n).
    { apply Permutation_length in Hperm. rewrite length_app in Hperm. nia. }
    destruct (IH (S i0) (teams ++ [team]) pending' ltac:(lia) Hnd' Hlen')
      as (teams' & Hfold & Hn & Hall & Hp).
    exists (team :: teams').
    rewrite Hfold, <- app_assoc. simpl.
    repeat split.
    + lia.
    + constructor; assumption.
    + rewrite Hp. exact Hperm.
Qed.

End TeamBuilding.

Section FindPlayers.

Lemma NoDup_keys_filter {V : Type} (f : nat * V -> bool) (d : list (nat * V)) :
  NoDup (map fst d) -> NoDup (map fst (filter f d)).
Proof.
  induction d as [|e d IH]; simpl; intros Hnd; [constructor|].
  inversion Hnd as [|? ? Hnotin Hnd']; subst.
  destruct (f e); simpl; [|apply IH; exact Hnd'].
  constructor; [|apply IH; exact Hnd'].
  intros Hin. apply Hnotin.
  apply in_map_iff in Hin. destruct Hin as (e' & He' & Hin).
  apply filter_In in Hin. apply in_map_iff. exists e'. tauto.
Qed.

Lemma PlayerStore_get_NoDup (st : PlayerStore) (status : PlayerStatus) :
  store_wf st -> NoDup (PlayerStore_get st status).
Proof. apply NoDup_keys_filter. Qed.

Variable st : PlayerStore.
Variable w : World.
Variable num_per_teams num_teams : Z.

(** C8 (amended): with fewer waiting players than a game needs,
    [find_players] returns [None], and [try_create_game] returns with the
    server, the statuses and every player object exactly as they were.
    The iteration of [run] is then [handle_games], the sleep and [show]
    alone: what it changes is what these change. *)
Theorem too_few_waiting_players_is_a_no_op (srv : MatchMakerServer) :
  srv_players srv = st ->
  team_size srv = num_per_teams ->
  team_number srv = num_teams ->
  (Z.of_nat (length (PlayerStore_get st WAITING))
   < num_per_teams * num_teams)%Z ->
  find_players st w num_per_teams num_teams = Ok None /\
  try_create_game srv w = Ok (srv, w) /\
  forall event_loop n,
    tick event_loop n srv w
    = ('(srv2, w2, finished_game) <- handle_games srv w ;;
       let (games, w3) := event_loop n (active_games srv2) w2 in
       let srv3 := with_active_games srv2 games in
       Ok (with_plot srv3 (LivePlot_show (plot srv3)), w3, finished_game)).
Proof.
  intros Hst Hs Ht Hlt.
  assert (Hfind : find_players st w num_per_teams num_teams = Ok None).
  { unfold find_players. rewrite sort_by_length.
    destruct (Z.ltb_spec (Z.of_nat (length (PlayerStore_get st WAITING)))
                         (num_per_teams * num_teams)) as [_|Hge]; [|lia].
    reflexivity. }
  assert (Htry : try_create_game srv w = Ok (srv, w)).
  { unfold try_create_game. rewrite Hst, Hs, Ht, Hfind. reflexivity. }
  split; [exact Hfind|]. split; [exact Htry|].
  intros event_loop n. unfold tick. rewrite Htry. reflexivity.
Qed.

(** C3 (amended): with a team size and a team number of at least one and
    enough waiting players, [find_players] returns [num_teams] teams of
    [num_per_teams] players each, all of them waiting players, none of them
    twice, and a waiting player with the least [last_played] is on one of
    the teams. *)
Theorem find_players_forms_full_disjoint_teams :
  store_wf st ->
  (0 < num_per_teams)%Z -> (0 < num_teams)%Z ->
  (num_per_teams * num_teams
   <= Z.of_nat (length (PlayerStore_get st WAITING)))%Z ->
  exists teams anchor,
    find_players st w num_per_teams num_teams = Ok (Some teams) /\
    Z.of_nat (length teams) = num_teams /\
    Forall (fun team => Z.of_nat (length team) = num_per_teams) teams /\
    NoDup (concat teams) /\
    incl (concat teams) (PlayerStore_get st WAITING) /\
    In anchor (concat teams) /\
    In anchor (PlayerStore_get st WAITING) /\
    forall q, In q (PlayerStore_get st WAITING) ->
      (last_played (player_of w anchor) <= last_played (player_of w q))%Z.
Proof.
  intros Hwf Hs Ht Hlen.
  pose proof (PlayerStore_get_NoDup st WAITING Hwf) as Hnd.
  unfold find_players.
  set (waiting := PlayerStore_get st WAITING) in *.
  set (key := fun x => last_played (player_of w x)).
  pose proof (sort_by_perm Z.leb key waiting) as Hperm.
  pose proof (sort_by_head_least key waiting) as Hleast.
  rewrite sort_by_length.
  destruct (Z.ltb_spec (Z.of_nat (length waiting))
                       (num_per_teams * num_teams)) as [Hlt|_]; [lia|].
  destruct (sort_by Z.leb key waiting) as [|first_player rest] eqn:Esort.
  { apply Permutation_length in Hperm. simpl in Hperm. nia. }
  set (rest' := sort_by Rleb
                  (fun x => Rabs (elo (player_of w x)
                                  - elo (player_of w first_player))) rest).
  assert (Hrest' : Permutation rest' rest) by apply sort_by_perm.
  assert (Hnd1 : NoDup (first_player :: rest')).
  { apply (Permutation_NoDup (l := waiting)); [|exact Hnd].
    rewrite <- Hperm. apply perm_skip. symmetry. exact Hrest'. }
  unfold slice_to.
  destruct (Z.leb_spec 0 (num_per_teams * num_teams - 1)) as [_|Hneg];
    [|nia].
  set (pending0 := [first_player]
                   ++ firstn (Z.to_nat (num_per_teams * num_teams - 1)) rest').
  set (pending := sort_by Rleb (fun x => elo (player_of w x)) pending0).
  assert (Hpend : Permutation pending pending0) by apply sort_by_perm.
  assert (Hlen_rest : length rest' + 1 = length waiting).
  { apply Permutation_length in Hperm, Hrest'. simpl in Hperm. lia. }
  assert (Hlen0 : length pending0
                  = Z.to_nat num_per_teams * Z.to_nat num_teams).
  { unfold pending0. simpl. rewrite length_firstn.
    rewrite Nat.min_l by lia. rewrite <- Z2Nat.inj_mul by lia. lia. }
  assert (Hnd0 : NoDup pending0).
  { unfold pending0. simpl. inversion Hnd1 as [|? ? Hnotin Hndr]; subst.
    constructor.
    - intros Hin. apply Hnotin. eapply firstn_In. exact Hin.
    - apply firstn_NoDup. exact Hndr. }
  assert (Hndp : NoDup pending).
  { apply (Permutation_NoDup (Permutation_sym Hpend)). exact Hnd0. }
  assert (Hlenp : length pending
                  = Z.to_nat num_per_teams * Z.to_nat num_teams).
  { rewrite <- Hlen0. apply Permutation_length. exact Hpend. }
  destruct (take_teams num_teams (Z.to_nat num_per_teams)
              (Z.to_nat num_teams) 0 [] pending ltac:(lia) Hndp Hlenp)
    as (teams & Hfold & Hn & Hall & Hp).
  unfold range. rewrite Hfold. cbn [bind app].
  exists teams, first_player.
  assert (Hincl0 : incl pending0 waiting).
  { intros x Hx. apply (Permutation_in _ Hperm).
    unfold pending0 in Hx. simpl in Hx.
    destruct Hx as [<-|Hx]; [left; reflexivity|right].
    apply (Permutation_in _ Hrest'). eapply firstn_In. exact Hx. }
  split; [reflexivity|].
  split; [lia|].
  split.
  { rewrite Forall_forall in *. intros team Hteam.
    rewrite (Hall team Hteam). lia. }
  split.
  { apply (Permutation_NoDup (Permutation_sym Hp)). exact Hndp. }
  split.
  { intros x Hx. apply Hincl0. apply (Permutation_in _ Hpend).
    apply (Permutation_in _ Hp). exact Hx. }
  split.
  { apply (Permutation_in _ (Permutation_sym Hp)).
    apply (Permutation_in _ (Permutation_sym Hpend)).
    unfold pending0. left. reflexivity. }
  split.
  { apply (Permutation_in _ Hperm). left. reflexivity. }
  intros q Hq. apply (Hleast first_player rest eq_refl q Hq).
Qed.

End FindPlayers.

(** C3 as stated fails for a team size of zero: with one waiting player
    (zero are asked for) the single team returned has one player. *)
Lemma find_players_zero_team_size :
  (0 * 1 <= Z.of_nat (length (PlayerStore_get solo_store WAITING)))%Z /\
  find_players solo_store duel_world 0 1 = Ok (Some [[0]]).
Proof.
  split; [simpl; lia|reflexivity].
Qed.

Lemma too_few_waiting_players_is_a_no_op_witness :
  find_players solo_store duel_world 1 2 = Ok None /\
  try_create_game lone_server duel_world = Ok (lone_server, duel_world) /\
  forall event_loop n,
    tick event_loop n lone_server duel_world
    = ('(srv2, w2, finished_game) <- handle_games lone_server duel_world ;;
       let (games, w3) := event_loop n (active_games srv2) w2 in
       let srv3 := with_active_games srv2 games in
       Ok (with_plot srv3 (LivePlot_show (plot srv3)), w3, finished_game)).
Proof.
  apply (too_few_waiting_players_is_a_no_op solo_store duel_world 1 2
           lone_server).
  - reflexivity.
  - reflexivity.
  - reflexivity.
  - simpl. lia.
Defined.

(** C8 as stated fails: four players are in a game that has ended and
    none is waiting, so that no game can be formed; in that iteration
    [handle_games] rates the game and releases its players: the four are
    WAITING, player 0 has two more wins and a new [last_played]. *)
Lemma finished_game_is_rated_with_too_few_waiting :
  (Z.of_nat (length (PlayerStore_get (srv_players duel_server) WAITING))
   < team_size duel_server * team_number duel_server)%Z /\
  waiting_and_record (Ok (duel_server, duel_world, 0%Z)) 0
  = Some ([], 0, 0, 0%Z) /\
  waiting_and_record (tick finish_all 0 duel_server duel_world) 0
  = Some ([0; 1; 2; 3], 2, 0, 5%Z).
Proof.
  split; [vm_compute; reflexivity|].
  split; vm_compute; reflexivity.
Qed.

Lemma pair_store_wf : store_wf pair_store.
Proof.
  unfold store_wf. simpl. repeat constructor; simpl; intuition lia.
Qed.

Lemma find_players_forms_full_disjoint_teams_witness :
  exists teams anchor,
    find_players pair_store duel_world 1 2 = Ok (Some teams) /\
    Z.of_nat (length teams) = 2%Z /\
    Forall (fun team => Z.of_nat (length team) = 1%Z) teams /\
    NoDup (concat teams) /\
    incl (concat teams) (PlayerStore_get pair_store WAITING) /\
    In anchor (concat teams) /\
    In anchor (PlayerStore_get pair_store WAITING) /\
    forall q, In q (PlayerStore_get pair_store WAITING) ->
      (last_played (player_of duel_world anchor)
       <= last_played (player_of duel_world q))%Z.
Proof.
  apply (find_players_forms_full_disjoint_teams pair_store duel_world 1 2).
  - exact pair_store_wf.
  - lia.
  - lia.
  - simpl. lia.
Defined.

(** ** [PlayerStore] *)

Section Store.

Lemma dict_get_set {V : Type} (d : list (nat * V)) (k k' : nat) (v : V) :
  dict_get (dict_set d k v) k' =
  if Nat.eqb k' k then Some v else dict_get d k'.
Proof.
  induction d as [|[q u] d IH]; simpl.
  - rewrite (Nat.eqb_sym k k'). reflexivity.
  - destruct (Nat.eqb_spec q k) as [->|Hqk]; simpl.
    + rewrite (Nat.eqb_sym k k').
      destruct (Nat.eqb k' k); reflexivity.
    + destruct (Nat.eqb_spec q k') as [->|Hqk'].
      * destruct (Nat.eqb_spec k' k); [congruence|reflexivity].
      * exact IH.
Qed.

Lemma PlayerStore_init_wf (players : list pref) :
  store_wf (PlayerStore_init players).
Proof.
  unfold store_wf, PlayerStore_init. simpl.
  assert (H : forall d : list (pref * PlayerStatus), NoDup (map fst d) ->
            NoDup (map fst (fold_left (fun d p => dict_set d p WAITING)
                                      players d))).
  { induction players as [|p players IH]; intros d Hd; simpl; [exact Hd|].
    apply IH. apply dict_set_NoDup. exact Hd. }
  apply H. constructor.
Qed.

Variable status : PlayerStatus.

Lemma set_one_spec (st : PlayerStore) (w : World) (p : pref) :
  statuses (fst (set_one status (st, w) p)) = dict_set (statuses st) p status /\
  now_stream (clock (snd (set_one status (st, w) p))) = now_stream (clock w) /\
  now_pos (clock (snd (set_one status (st, w) p))) = S (now_pos (clock w)) /\
  last_played (player_of (snd (set_one status (st, w) p)) p)
    = now_stream (clock w) (now_pos (clock w)) /\
  forall q, q <> p ->
    player_of (snd (set_one status (st, w) p)) q = player_of w q.
Proof.
  unfold set_one. simpl. repeat split.
  - rewrite !upd_same. reflexivity.
  - intros q Hq. rewrite !upd_other by exact Hq. reflexivity.
Qed.

Lemma PlayerStore_set_cons (st : PlayerStore) (w : World) (p : pref)
    (players : list pref) :
  PlayerStore_set st (p :: players) status w =
  PlayerStore_set (fst (set_one status (st, w) p)) players status
                  (snd (set_one status (st, w) p)).
Proof.
  unfold PlayerStore_set. simpl.
  destruct (set_one status (st, w) p). reflexivity.
Qed.

Lemma PlayerStore_set_frame (players : list pref) :
  forall st w p,
    ~ In p players ->
    dict_get (statuses (fst (PlayerStore_set st players status w))) p
      = dict_get (statuses st) p /\
    player_of (snd (PlayerStore_set st players status w)) p = player_of w p.
Proof.
  induction players as [|x players IH]; intros st w p Hnotin.
  - split; reflexivity.
  - rewrite PlayerStore_set_cons.
    destruct (set_one_spec st w x) as (Hst & _ & _ & _ & Hother).
    destruct (IH (fst (set_one status (st, w) x))
                 (snd (set_one status (st, w) x)) p) as [H1 H2].
    { simpl in Hnotin. tauto. }
    assert (Hpx : p <> x) by (simpl in Hnotin; intros ->; tauto).
    rewrite H1, H2, Hst, dict_get_set, (Hother p Hpx).
    apply Nat.eqb_neq in Hpx. rewrite Hpx. split; reflexivity.
Qed.

Lemma PlayerStore_set_status (players : list pref) :
  forall st w p,
    In p players ->
    dict_get (statuses (fst (PlayerStore_set st players status w))) p
      = Some status.
Proof.
  induction players as [|x players IH]; intros st w p Hin; [contradiction|].
  rewrite PlayerStore_set_cons.
  destruct (in_dec Nat.eq_dec p players) as [Hin'|Hnotin].
  - apply IH. exact Hin'.
  - destruct Hin as [->|Hin]; [|contradiction].
    destruct (PlayerStore_set_frame players
                (fst (set_one status (st, w) p))
                (snd (set_one status (st, w) p)) p Hnotin) as [H1 _].
    rewrite H1.
    destruct (set_one_spec st w p) as (Hst & _).
    rewrite Hst, dict_get_set, Nat.eqb_refl. reflexivity.
Qed.

Lemma PlayerStore_set_stamp (players : list pref) :
  forall st w i p,
    nth_error players i = Some p ->
    ~ In p (skipn (S i) players) ->
    last_played (player_of (snd (PlayerStore_set st players status w)) p)
      = now_stream (clock w) (now_pos (clock w) + i).
Proof.
  induction players as [|x players IH]; intros st w i p Hi Hlast.
  - destruct i; discriminate.
  - rewrite PlayerStore_set_cons.
    destruct (set_one_spec st w x) as (_ & Hstream & Hpos & Hstamp & _).
    destruct i as [|i]; simpl in Hi, Hlast.
    + inversion Hi; subst.
      destruct (PlayerStore_set_frame players
                  (fst (set_one status (st, w) p))
                  (snd (set_one status (st, w) p)) p Hlast) as [_ H2].
      rewrite H2, Hstamp, Nat.add_0_r. reflexivity.
    + rewrite (IH _ _ i p Hi Hlast), Hstream, Hpos. f_equal. lia.
Qed.

Lemma PlayerStore_set_wf (players : list pref) :
  forall st w,
    store_wf st -> store_wf (fst (PlayerStore_set st players status w)).
Proof.
  induction players as [|x players IH]; intros st w Hwf; [exact Hwf|].
  rewrite PlayerStore_set_cons. apply IH.
  destruct (set_one_spec st w x) as (Hst & _).
  unfold store_wf. rewrite Hst. apply dict_set_NoDup. exact Hwf.
Qed.

(** C6 (amended): [PlayerStore.set] gives every listed player the given
    status and stamps its [last_played] with the clock reading taken for
    its last occurrence in the list, whatever the status is ([IN_GAME]
    as well as [WAITING]); a player that is not listed keeps its status
    and all its fields. *)
Theorem PlayerStore_set_stamps_whatever_the_status
    (st : PlayerStore) (players : list pref) (w : World) :
  (forall p, In p players ->
     dict_get (statuses (fst (PlayerStore_set st players status w))) p
     = Some status) /\
  (forall i p, nth_error players i = Some p ->
     ~ In p (skipn (S i) players) ->
     last_played (player_of (snd (PlayerStore_set st players status w)) p)
     = now_stream (clock w) (now_pos (clock w) + i)) /\
  (forall p, ~ In p players ->
     dict_get (statuses (fst (PlayerStore_set st players status w))) p
       = dict_get (statuses st) p /\
     player_of (snd (PlayerStore_set st players status w)) p = player_of w p).
Proof.
  split; [|split].
  - intros p. apply PlayerStore_set_status.
  - intros i p. apply PlayerStore_set_stamp.
  - intros p. apply PlayerStore_set_frame.
Qed.

End Store.

(** C6 as stated fails: moving player 0 to [IN_GAME] changes its
    [last_played] from 0 to the clock reading 5. *)
Lemma set_in_game_changes_last_played :
  last_played (player_of duel_world 0) = 0%Z /\
  dict_get (statuses (fst (PlayerStore_set solo_store [0] IN_GAME duel_world)))
           0 = Some IN_GAME /\
  last_played
    (player_of (snd (PlayerStore_set solo_store [0] IN_GAME duel_world)) 0)
  = 5%Z.
Proof.
  repeat split.
Qed.

(** ** Division by zero in [compute_score] *)

Section StrengthDivision.

Variable w : World.
Variable g : Game.

Lemma team_strength_empty (t : tref) :
  team_players (team_of w t) = [] ->
  team_strength w g t = Raise ZeroDivisionError.
Proof.
  intros H. unfold team_strength. rewrite H.
  destruct (truthy (game_nudge g)); reflexivity.
Qed.

Lemma team_strength_nonempty (t : tref) :
  team_players (team_of w t) <> [] ->
  exists s, team_strength w g t = Ok s.
Proof.
  intros H. unfold team_strength.
  destruct (team_players (team_of w t)) as [|p ps]; [congruence|].
  destruct (truthy (game_nudge g)); simpl; eauto.
Qed.

Lemma team_strengths_raise (l : list tref) :
  forall d0 e,
    foldM (fun teams_elo team =>
             s <- team_strength w g team ;; Ok (dict_set teams_elo team s))
          l d0 = Raise e ->
    e = ZeroDivisionError /\
    exists t, In t l /\ team_players (team_of w t) = [].
Proof.
  induction l as [|t l IH]; intros d0 e H; simpl in H; [discriminate|].
  destruct (team_players (team_of w t)) as [|p ps] eqn:Ep.
  - rewrite (team_strength_empty t Ep) in H. simpl in H.
    inversion H; subst. split; [reflexivity|].
    exists t. split; [left; reflexivity|exact Ep].
  - destruct (team_strength_nonempty t) as [s Hs]; [congruence|].
    rewrite Hs in H. simpl in H.
    destruct (IH _ _ H) as (He & t' & Hin & Ht').
    split; [exact He|]. exists t'. split; [right; exact Hin|exact Ht'].
Qed.

Lemma team_strengths_empty_team (l : list tref) :
  (exists t, In t l /\ team_players (team_of w t) = []) ->
  forall d0,
    foldM (fun teams_elo team =>
             s <- team_strength w g team ;; Ok (dict_set teams_elo team s))
          l d0 = Raise ZeroDivisionError.
Proof.
  induction l as [|t l IH]; intros (t' & Hin & Ht') d0; [contradiction|].
  simpl.
  destruct (team_players (team_of w t)) as [|p ps] eqn:Ep.
  - rewrite (team_strength_empty t Ep). reflexivity.
  - destruct (team_strength_nonempty t) as [s Hs]; [congruence|].
    rewrite Hs. simpl. apply IH. exists t'.
    destruct Hin as [->|Hin]; [congruence|]. split; assumption.
Qed.

Lemma draw_team_raise (st : list tref * list (tref * R) * Rng) (x : tref)
    (e : exn) :
  draw_team st x = Raise e -> e <> ZeroDivisionError.
Proof.
  destruct st as [[results d] r]. unfold draw_team, random_choices.
  destruct (negb _); [intros H; inversion H; discriminate|].
  destruct (rev _) as [|total rest]; [intros H; inversion H; discriminate|].
  destruct (Rle_dec total 0); [intros H; inversion H; discriminate|].
  destruct (random_unit r) as [u r1].
  destruct (nth_error _ _) as [team|]; simpl;
    [|intros H; inversion H; discriminate].
  assert (Hpop : forall (d1 : list (tref * R)) k e1,
            dict_pop d1 k = Raise e1 -> e1 = KeyError).
  { induction d1 as [|[k' v'] d1 IHd]; simpl; intros k e1 H.
    - inversion H. reflexivity.
    - destruct (Nat.eqb k' k); [discriminate|].
      destruct (dict_pop d1 k) as [d2|e2] eqn:E; simpl in H; [discriminate|].
      inversion H; subst. eapply IHd. exact E. }
  destruct (dict_pop d team) as [d1|e1] eqn:E; simpl; [discriminate|].
  intros H. inversion H; subst. rewrite (Hpop _ _ _ E). discriminate.
Qed.

Lemma draw_loop_raise (l : list tref) :
  forall st e, foldM draw_team l st = Raise e -> e <> ZeroDivisionError.
Proof.
  induction l as [|x l IH]; intros st e H; cbn [foldM] in H; [discriminate|].
  destruct (draw_team st x) as [st1|e1] eqn:E; cbn [bind] in H.
  - eapply IH. exact H.
  - inversion H; subst. eapply draw_team_raise. exact E.
Qed.

Lemma compute_score_divides_by_zero :
  compute_score g w = Raise ZeroDivisionError <->
  exists t, In t (game_teams g) /\ team_players (team_of w t) = [].
Proof.
  unfold compute_score, draw_order, team_strengths. split.
  - destruct (foldM _ (game_teams g) []) as [teams_elo|e] eqn:Es;
      cbn [bind].
    + destruct (foldM draw_team (game_teams g) ([], teams_elo, rng w))
        as [[[results d1] r1]|e] eqn:Ed; cbn [bind]; [discriminate|].
      intros H. inversion H; subst.
      exfalso. eapply draw_loop_raise; [exact Ed|reflexivity].
    + intros _. apply team_strengths_raise in Es. tauto.
  - intros H. rewrite (team_strengths_empty_team _ H). reflexivity.
Qed.

End StrengthDivision.

(** C5 (amended): the constructor checks nothing: it takes every team size
    and team number, zero included, and stores them as given;
    [compute_score] divides by zero exactly when a team of the game has no
    player. *)
Theorem no_validation_and_division_by_zero_on_empty_team :
  (forall players settings rounds show_graph smoothing boost,
     team_size (MatchMakerServer_init players settings rounds show_graph
                                      smoothing boost)
       = cfg_team_size settings /\
     team_number (MatchMakerServer_init players settings rounds show_graph
                                        smoothing boost)
       = cfg_team_number settings) /\
  (forall w g,
     compute_score g w = Raise ZeroDivisionError <->
     exists t, In t (game_teams g) /\ team_players (team_of w t) = []).
Proof.
  split.
  - intros players settings rounds show_graph smoothing boost.
    split; reflexivity.
  - intros w g. apply compute_score_divides_by_zero.
Qed.

(** C5 as stated fails: a server is built with a team size of zero, its
    first game has an empty team, and scoring that game divides by zero. *)
Lemma zero_team_size_divides_at_game_time :
  team_size (MatchMakerServer_init [0] zero_size_settings None false 10 2) = 0%Z /\
  exists srv w game,
    try_create_game (MatchMakerServer_init [0] zero_size_settings None false 10 2)
                    lobby_world = Ok (srv, w) /\
    active_games srv = [(game, Pending)] /\
    map (fun t => team_players (team_of w t)) (game_teams game) = [[0]; []] /\
    compute_score game w = Raise ZeroDivisionError.
Proof.
  split; [reflexivity|].
  eexists. eexists. eexists.
  split; [vm_compute; reflexivity|].
  split; [reflexivity|].
  split; vm_compute; reflexivity.
Qed.

(** ** [MatchMakerServer.run] *)

Section RunLoop.

Variable event_loop :
  nat -> list (Game * Task) -> World -> list (Game * Task) * World.

Lemma try_create_game_max_round (srv srv' : MatchMakerServer) (w w' : World) :
  try_create_game srv w = Ok (srv', w') -> max_round srv' = max_round srv.
Proof.
  unfold try_create_game.
  destruct (find_players _ _ _ _) as [[teams|]|e]; simpl;
    [| |discriminate].
  - repeat match goal with
           | |- context [let (_, _) := ?x in _] => destruct x
           end.
    intros H. inversion H; subst. reflexivity.
  - intros H. inversion H; subst. reflexivity.
Qed.

Lemma handle_games_max_round (srv srv' : MatchMakerServer) (w w' : World)
    (finished : Z) :
  handle_games srv w = Ok (srv', w', finished) ->
  max_round srv' = max_round srv.
Proof.
  unfold handle_games.
  destruct (foldM _ _ _) as [[[st w1] n]|e]; simpl; [|discriminate].
  destruct (if (0 <? n)%nat then _ else _) as [pl|e]; simpl; [|discriminate].
  intros H. inversion H; subst. reflexivity.
Qed.

Lemma tick_max_round (n : nat) (srv srv' : MatchMakerServer) (w w' : World)
    (finished : Z) :
  tick event_loop n srv w = Ok (srv', w', finished) ->
  max_round srv' = max_round srv.
Proof.
  unfold tick.
  destruct (try_create_game srv w) as [[srv1 w1]|e] eqn:E1; simpl;
    [|discriminate].
  destruct (handle_games srv1 w1) as [[[srv2 w2] f]|e] eqn:E2; simpl;
    [|discriminate].
  destruct (event_loop n (active_games srv2) w2) as [games w3].
  intros H. inversion H; subst. simpl.
  rewrite (handle_games_max_round _ _ _ _ _ E2).
  apply (try_create_game_max_round _ _ _ _ E1).
Qed.

Variable srv : MatchMakerServer.
Variable w : World.




Variable m : Z.
Hypothesis max_round_set : max_round srv = Some m.
Hypothesis max_round_truthy : m <> 0%Z.


End RunLoop.





(** Scenario: one player, games of one team of one player, [max_round]
    of 1.  The first game ends in the second iteration, which leaves the
    count at 1 and the loop running; the loop stops in the fourth
    iteration, with 2 games completed. *)
Example run_goes_on_at_max_round :
  run finish_all 3 solo_server lobby_world = Running /\
  count_of (completed finish_all 2 solo_server lobby_world) = Some 1%Z.
Proof.
  split; vm_compute; reflexivity.
Qed.

Example run_stops_above_max_round :
  stop_of (run finish_all 4 solo_server lobby_world) = Some (4, 2%Z).
Proof.
  vm_compute. reflexivity.
Qed.

Lemma duel_teams_distinct : NoDup (game_teams duel_game).
Proof. simpl. repeat constructor; simpl; intuition lia. Qed.

Lemma duel_strengths_positive : strengths_positive duel_world duel_game.
Proof.
  intros t [<-|[<-|[]]]; eexists; (split; [reflexivity|]);
    unfold Rsum; simpl; lra.
Qed.

Lemma compute_score_ranks_by_draw_order_witness :
  exists w',
    compute_score duel_game duel_world = Ok w' /\
    exists results r,
      draw_order duel_game duel_world = Ok (results, r) /\
      NoDup (game_teams duel_game) /\
      Permutation results (game_teams duel_game) /\
      (forall i t, nth_error results i = Some t ->
         team_score (team_of w' t)
         = Some (Z.of_nat (length (game_teams duel_game) - 1 - i))) /\
      Permutation
        (map (fun t => team_score (team_of w' t)) (game_teams duel_game))
        (map (fun i => Some (Z.of_nat i))
             (seq 0 (length (game_teams duel_game)))).
Proof.
  destruct (proj1 (compute_score_ranks_by_draw_order duel_world duel_game)
              duel_teams_distinct duel_strengths_positive) as [w' Hw'].
  exists w'. split; [exact Hw'|].
  exact (proj2 (compute_score_ranks_by_draw_order duel_world duel_game) w' Hw').
Defined.

(** * Further properties of the models *)

(** ** Ratings and deltas *)

Section RatingFacts.

Open Scope R_scope.

Lemma rating_monotone (a b : Player) :
  elo a <= elo b -> rating a <= rating b.
Proof.
  intros H. unfold rating. apply Rle_Rpower; lra.
Qed.

Lemma expected_score_bounds (ra rb : R) :
  0 < ra -> 0 < rb -> 0 < ra / (ra + rb) < 1.
Proof.
  intros Ha Hb. split.
  - apply Rdiv_lt_0_compat; lra.
  - apply (Rmult_lt_reg_r (ra + rb)); [lra|].
    unfold Rdiv. rewrite Rmult_assoc, Rinv_l by lra. lra.
Qed.

(** X2: for a [k_factor] that is not negative and two ratings within
    100000 of zero (where [10 ** (elo / 400)] neither overflows nor
    vanishes), a win never lowers the rating and never pays more than
    [k_factor]; a loss never raises it and never costs more than
    [k_factor]; a draw moves it by at most half of [k_factor] either
    way. *)
Theorem get_elo_delta_sign_and_bounds (a b : Player) (k : R) :
  0 <= k ->
  Rabs (elo a) <= 100000 ->
  Rabs (elo b) <= 100000 ->
  0 <= get_elo_delta a b P1_WIN k <= k /\
  - k <= get_elo_delta a b P2_WIN k <= 0 /\
  - (k / 2) <= get_elo_delta a b DRAW k <= k / 2.
Proof.
  intros Hk _ _. unfold get_elo_delta. simpl.
  pose proof (expected_score_bounds _ _ (rating_pos a) (rating_pos b)) as He.
  set (e := rating a / (rating a + rating b)) in *.
  repeat split; nra.
Qed.

Lemma expected_score_monotone (ra ra' rb rb' : R) :
  0 < ra -> 0 < rb' -> ra <= ra' -> rb' <= rb ->
  ra / (ra + rb) <= ra' / (ra' + rb').
Proof.
  intros Ha Hb Haa Hbb.
  apply (Rmult_le_reg_r ((ra + rb) * (ra' + rb'))); [nra|].
  replace (ra / (ra + rb) * ((ra + rb) * (ra' + rb')))
    with (ra * (ra' + rb')) by (field; lra).
  replace (ra' / (ra' + rb') * ((ra + rb) * (ra' + rb')))
    with (ra' * (ra + rb)) by (field; lra).
  nra.
Qed.

(** X3: over exact real arithmetic on the ratings, for a non-negative
    [k_factor] and a given outcome, the delta grows when the player's own
    rating is lower or the opponent's rating is higher: an upset pays
    more. *)
Theorem get_elo_delta_monotone (a a' b b' : Player) (o : GameOutcome) (k : R) :
  0 <= k ->
  elo a <= elo a' -> elo b' <= elo b ->
  get_elo_delta a' b' o k <= get_elo_delta a b o k.
Proof.
  intros Hk Ha Hb. unfold get_elo_delta.
  pose proof (expected_score_monotone (rating a) (rating a') (rating b)
                (rating b') (rating_pos a) (rating_pos b')
                (rating_monotone _ _ Ha) (rating_monotone _ _ Hb)) as He.
  destruct o; simpl; nra.
Qed.

(** X4: two players of equal rating, within 100000 of zero (where
    [10 ** (elo / 400)] and its double are finite and not zero): the
    winner gains exactly half of [k_factor], the loser loses as much, and
    a draw changes nothing. *)
Theorem get_elo_delta_equal_ratings (a b : Player) (k : R) :
  elo a = elo b ->
  Rabs (elo a) <= 100000 ->
  get_elo_delta a b P1_WIN k = k / 2 /\
  get_elo_delta a b P2_WIN k = - (k / 2) /\
  get_elo_delta a b DRAW k = 0.
Proof.
  intros H _. unfold get_elo_delta, rating. rewrite H. simpl.
  pose proof (rating_pos b) as Hb. unfold rating in Hb.
  repeat split; field; lra.
Qed.

(** X5: [ratio] lies between 0 and 1, and is 0 for a player without a
    win. *)
Theorem ratio_between_0_and_1 (p : Player) :
  0 <= ratio p <= 1 /\ (win p = 0%nat -> ratio p = 0).
Proof.
  unfold ratio.
  destruct (Nat.ltb_spec 0 (win p + lose p)) as [Hpos|Hzero].
  - assert (Ht : 0 < INR (win p + lose p)) by (apply lt_0_INR; exact Hpos).
    assert (Hw : 0 <= INR (win p)) by apply pos_INR.
    assert (Hle : INR (win p) <= INR (win p + lose p))
      by (apply le_INR; lia).
    split.
    + split.
      * apply Rmult_le_pos; [exact Hw|].
        left. apply Rinv_0_lt_compat. exact Ht.
      * apply (Rmult_le_reg_r (INR (win p + lose p))); [exact Ht|].
        unfold Rdiv. rewrite Rmult_assoc, Rinv_l by lra. lra.
    + intros H0. rewrite H0. simpl. unfold Rdiv. apply Rmult_0_l.
  - split; [lra|reflexivity].
Qed.

End RatingFacts.

Lemma ratio_between_0_and_1_witness :
  (0 <= ratio (fresh_player 0 1000) <= 1)%R /\
  ratio (fresh_player 0 1000) = 0%R.
Proof.
  destruct (ratio_between_0_and_1 (fresh_player 0 1000)) as [H1 H2].
  split; [exact H1|]. apply H2. reflexivity.
Defined.

Lemma get_elo_delta_sign_and_bounds_witness :
  (0 <= get_elo_delta (fresh_player 0 1000) (fresh_player 1 1200) P1_WIN 20
     <= 20 /\
   - 20 <= get_elo_delta (fresh_player 0 1000) (fresh_player 1 1200) P2_WIN 20
     <= 0 /\
   - (20 / 2)
     <= get_elo_delta (fresh_player 0 1000) (fresh_player 1 1200) DRAW 20
     <= 20 / 2)%R.
Proof.
  apply (get_elo_delta_sign_and_bounds
           (fresh_player 0 1000) (fresh_player 1 1200) 20).
  - lra.
  - simpl. rewrite Rabs_pos_eq; lra.
  - simpl. rewrite Rabs_pos_eq; lra.
Defined.

Lemma get_elo_delta_monotone_witness :
  (get_elo_delta (fresh_player 0 1200) (fresh_player 1 1000) P1_WIN 20
   <= get_elo_delta (fresh_player 0 1000) (fresh_player 1 1200) P1_WIN 20)%R.
Proof.
  apply (get_elo_delta_monotone
           (fresh_player 0 1000) (fresh_player 0 1200)
           (fresh_player 1 1200) (fresh_player 1 1000) P1_WIN 20);
    simpl; lra.
Defined.

Lemma get_elo_delta_equal_ratings_witness :
  (get_elo_delta (fresh_player 0 1000) (fresh_player 1 1000) P1_WIN 20 = 20 / 2 /\
   get_elo_delta (fresh_player 0 1000) (fresh_player 1 1000) P2_WIN 20
     = - (20 / 2) /\
   get_elo_delta (fresh_player 0 1000) (fresh_player 1 1000) DRAW 20 = 0)%R.
Proof.
  apply (get_elo_delta_equal_ratings
           (fresh_player 0 1000) (fresh_player 1 1000) 20).
  - reflexivity.
  - simpl. rewrite Rabs_pos_eq; lra.
Defined.

(** ** Comparing teams *)

Lemma Team_compare_raises_TypeError (a b : Team) (e : exn) :
  Team_compare a b = Raise e -> e = TypeError.
Proof.
  unfold Team_compare.
  destruct (team_score a) as [x|], (team_score b) as [y|];
    try (intros H; inversion H; reflexivity).
  destruct (x >? y)%Z; [discriminate|].
  destruct (x <? y)%Z; discriminate.
Qed.

(** X6: [Team.compare] is antisymmetric on scored teams, and it fails,
    with a [TypeError], exactly when one of the two teams has no score. *)
Theorem Team_compare_antisymmetric (a b : Team) :
  (forall o, Team_compare a b = Ok o <-> Team_compare b a = Ok (invert o)) /\
  (Team_compare a b = Raise TypeError <->
   team_score a = None \/ team_score b = None) /\
  (forall e, Team_compare a b = Raise e -> e = TypeError).
Proof.
  unfold Team_compare.
  destruct (team_score a) as [x|], (team_score b) as [y|].
  - split; [|split].
    + intros o.
      destruct (Z.gtb_spec x y), (Z.ltb_spec x y), (Z.gtb_spec y x),
               (Z.ltb_spec y x); try lia;
        destruct o; simpl; split; intros Heq; inversion Heq; reflexivity.
    + split; [|intros [H|H]; discriminate].
      destruct (x >? y)%Z; [discriminate|].
      destruct (x <? y)%Z; discriminate.
    + intros e. destruct (x >? y)%Z; [discriminate|].
      destruct (x <? y)%Z; discriminate.
  - split; [|split].
    + intros o. split; discriminate.
    + split; auto.
    + intros e H. inversion H. reflexivity.
  - split; [|split].
    + intros o. split; discriminate.
    + split; auto.
    + intros e H. inversion H. reflexivity.
  - split; [|split].
    + intros o. split; discriminate.
    + split; auto.
    + intros e H. inversion H. reflexivity.
Qed.

Lemma Team_compare_antisymmetric_witness :
  Team_compare (team_of duel_world 1) (team_of duel_world 0) = Ok P2_WIN.
Proof.
  apply (proj2 (proj1 (Team_compare_antisymmetric (team_of duel_world 1)
                         (team_of duel_world 0)) P2_WIN)).
  reflexivity.
Defined.

(** ** [Game.update_elo]: failure and frame *)

Section UpdateEloEdges.

Variable w : World.
Variable g : Game.
Variable k : R.

Lemma in_Game_players (ignore_team : option tref) (team : tref) (p : pref) :
  In (team, p) (Game_players w g ignore_team) <->
  In team (game_teams g) /\ same_team ignore_team team = false /\
  In p (team_players (team_of w team)).
Proof.
  unfold Game_players. rewrite in_flat_map. split.
  - intros (t & Ht & Hin).
    destruct (same_team ignore_team t) eqn:E; [contradiction|].
    apply in_map_iff in Hin. destruct Hin as (q & Hq & Hq').
    inversion Hq; subst. auto.
  - intros (Ht & Hs & Hp). exists team. split; [exact Ht|].
    rewrite Hs. apply in_map_iff. exists p. auto.
Qed.

Lemma in_comparisons (team : tref) (p : pref) (other : tref) (q : pref) :
  In ((team, p), (other, q)) (comparisons w g) <->
  In team (game_teams g) /\ In p (team_players (team_of w team)) /\
  In other (game_teams g) /\ other <> team /\
  In q (team_players (team_of w other)).
Proof.
  unfold comparisons. rewrite in_flat_map. split.
  - intros ([t p'] & Htp & Hin).
    apply in_map_iff in Hin. destruct Hin as ([o q'] & Heq & Ho).
    inversion Heq; subst. simpl in Ho.
    apply in_Game_players in Htp. apply in_Game_players in Ho.
    simpl in Ho. destruct Ho as (Ho1 & Ho2 & Ho3).
    apply Nat.eqb_neq in Ho2. tauto.
  - intros (Ht & Hp & Ho & Hne & Hq). exists (team, p). split.
    + apply in_Game_players. simpl. auto.
    + apply in_map_iff. exists (other, q). split; [reflexivity|].
      apply in_Game_players. simpl. apply Nat.eqb_neq in Hne. auto.
Qed.

Lemma rate_step_result (st : (pref -> Player) * list (pref * list R))
    (c : (tref * pref) * (tref * pref)) :
  (exists o st',
     Team_compare (team_of w (fst (fst c))) (team_of w (fst (snd c))) = Ok o /\
     rate_step w k st c = Ok st') \/
  (Team_compare (team_of w (fst (fst c))) (team_of w (fst (snd c)))
     = Raise TypeError /\
   rate_step w k st c = Raise TypeError).
Proof.
  destruct st as [h d]. destruct c as [[team p] [other q]].
  unfold rate_step, rate_against. simpl.
  destruct (Team_compare (team_of w team) (team_of w other)) as [o|e] eqn:E.
  - left. simpl. eauto.
  - right. simpl.
    rewrite (Team_compare_raises_TypeError _ _ e E). auto.
Qed.

Lemma rate_steps_raise (cs : list ((tref * pref) * (tref * pref))) :
  forall st,
    (exists st', foldM (rate_step w k) cs st = Ok st' /\ compares_ok w cs) \/
    (foldM (rate_step w k) cs st = Raise TypeError /\ ~ compares_ok w cs).
Proof.
  induction cs as [|c cs IH]; intros st.
  - left. exists st. split; [reflexivity|]. intros c [].
  - cbn [foldM].
    destruct (rate_step_result st c) as [(o & st1 & Hc & Hs)|[Hc Hs]].
    + rewrite Hs. cbn [bind].
      destruct (IH st1) as [(st' & Hf & Hok)|[Hf Hno]].
      * left. exists st'. split; [exact Hf|].
        intros c' [<-|Hin]; [eauto|apply Hok; exact Hin].
      * right. split; [exact Hf|].
        intros Hok. apply Hno. intros c' Hin. apply Hok. right. exact Hin.
    + rewrite Hs. right. split; [reflexivity|].
      intros Hok. destruct (Hok c (or_introl eq_refl)) as [o Ho]. congruence.
Qed.

Lemma compares_ok_iff :
  compares_ok w (comparisons w g) <->
  forall team other,
    In team (game_teams g) -> In other (game_teams g) -> other <> team ->
    team_players (team_of w team) <> [] ->
    team_players (team_of w other) <> [] ->
    team_score (team_of w team) <> None /\
    team_score (team_of w other) <> None.
Proof.
  split.
  - intros Hok team other Ht Ho Hne Hp Hq.
    destruct (team_players (team_of w team)) as [|p ps] eqn:Ep; [congruence|].
    destruct (team_players (team_of w other)) as [|q qs] eqn:Eq;
      [congruence|].
    destruct (Hok ((team, p), (other, q))) as [o Hcmp].
    { apply in_comparisons. rewrite Ep, Eq.
      repeat split; simpl; auto. }
    simpl in Hcmp. unfold Team_compare in Hcmp.
    destruct (team_score (team_of w team)); [|discriminate].
    destruct (team_score (team_of w other)); [|discriminate].
    split; discriminate.
  - intros H [[team p] [other q]] Hin. simpl.
    apply in_comparisons in Hin. destruct Hin as (Ht & Hp & Ho & Hne & Hq).
    destruct (H team other Ht Ho Hne) as [H1 H2].
    { intros E. rewrite E in Hp. contradiction. }
    { intros E. rewrite E in Hq. contradiction. }
    unfold Team_compare.
    destruct (team_score (team_of w team)) as [a|]; [|congruence].
    destruct (team_score (team_of w other)) as [b|]; [|congruence].
    destruct (a >? b)%Z; [eauto|]. destruct (a <? b)%Z; eauto.
Qed.

(** In the model, where the arithmetic on ratings is exact and cannot
    fail, the only failure of [update_elo] is the [TypeError] of a
    comparison with an unscored team. *)
Lemma update_elo_raise_cases :
  (forall e, update_elo g k w = Raise e -> e = TypeError) /\
  (update_elo g k w = Raise TypeError <->
   exists team other,
     In team (game_teams g) /\ In other (game_teams g) /\ other <> team /\
     team_players (team_of w team) <> [] /\
     team_players (team_of w other) <> [] /\
     (team_score (team_of w team) = None \/
      team_score (team_of w other) = None)).
Proof.
  assert (Hcases :
    (exists w', update_elo g k w = Ok w' /\ compares_ok w (comparisons w g)) \/
    (update_elo g k w = Raise TypeError /\
     ~ compares_ok w (comparisons w g))).
  { unfold update_elo. rewrite collect_deltas_comparisons.
    destruct (rate_steps_raise (comparisons w g) (player_of w, []))
      as [(st' & Hf & Hok)|[Hf Hno]].
    - left.
      assert (Hwf0 : delta_wf []) by (split; constructor).
      destruct (rate_steps w k (comparisons w g) Hok (player_of w) []
                  (fun q => eq_refl) Hwf0)
        as (h & delta & Hfold & _ & _ & _ & _ & Hwf).
      rewrite Hfold. cbn [bind].
      destruct (apply_deltas (game_nudge g) delta Hwf h (rng w))
        as (h' & g' & Hfold' & _).
      rewrite Hfold'. cbn [bind]. eauto.
    - right. rewrite Hf. auto. }
  split.
  - intros e He. destruct Hcases as [(w' & Hw' & _)|[Hr _]]; congruence.
  - split.
    + intros Hr. destruct Hcases as [(w' & Hw' & _)|[_ Hno]]; [congruence|].
      rewrite compares_ok_iff in Hno.
      apply Classical_Pred_Type.not_all_ex_not in Hno.
      destruct Hno as [team Hno].
      apply Classical_Pred_Type.not_all_ex_not in Hno.
      destruct Hno as [other Hno].
      exists team, other.
      destruct (in_dec Nat.eq_dec team (game_teams g)) as [Ht|Ht];
        [|exfalso; apply Hno; intros; contradiction].
      destruct (in_dec Nat.eq_dec other (game_teams g)) as [Ho|Ho];
        [|exfalso; apply Hno; intros; contradiction].
      destruct (Nat.eq_dec other team) as [He|Hne];
        [exfalso; apply Hno; intros; contradiction|].
      destruct (team_players (team_of w team)) as [|p ps] eqn:Ep;
        [exfalso; apply Hno; intros; congruence|].
      destruct (team_players (team_of w other)) as [|q qs] eqn:Eq;
        [exfalso; apply Hno; intros; congruence|].
      repeat split; try assumption; try discriminate.
      destruct (team_score (team_of w team)) as [a|]; [|left; reflexivity].
      destruct (team_score (team_of w other)) as [b|]; [|right; reflexivity].
      exfalso. apply Hno. intros. split; discriminate.
    + intros (team & other & Ht & Ho & Hne & Hp & Hq & Hnone).
      destruct Hcases as [(w' & _ & Hok)|[Hr _]]; [|exact Hr].
      rewrite compares_ok_iff in Hok.
      destruct (Hok team other Ht Ho Hne Hp Hq) as [H1 H2].
      destruct Hnone; contradiction.
Qed.

(** X7: [update_elo] needs scored teams.  When two different teams of
    the game both have players and one of them has no score (the game was
    not scored by [compute_score]), [update_elo] raises; so when it
    returns, every two such teams had a score. *)
Theorem update_elo_needs_scored_teams :
  ((exists team other,
      In team (game_teams g) /\ In other (game_teams g) /\ other <> team /\
      team_players (team_of w team) <> [] /\
      team_players (team_of w other) <> [] /\
      (team_score (team_of w team) = None \/
       team_score (team_of w other) = None)) ->
   exists e, update_elo g k w = Raise e) /\
  (forall w',
     update_elo g k w = Ok w' ->
     forall team other,
       In team (game_teams g) -> In other (game_teams g) -> other <> team ->
       team_players (team_of w team) <> [] ->
       team_players (team_of w other) <> [] ->
       team_score (team_of w team) <> None /\
       team_score (team_of w other) <> None).
Proof.
  destruct update_elo_raise_cases as [_ Hiff]. split.
  - intros H. exists TypeError. apply Hiff. exact H.
  - intros w' Hok team other Ht Ho Hne Hp Hq.
    split; intros Hnone;
      (assert (Hr : update_elo g k w = Raise TypeError)
         by (apply Hiff; exists team, other; tauto));
      rewrite Hr in Hok; discriminate.
Qed.

End UpdateEloEdges.

Lemma update_elo_needs_scored_teams_witness :
  exists e, update_elo duel_game 20 unscored_world = Raise e.
Proof.
  apply (proj1 (update_elo_needs_scored_teams unscored_world duel_game 20)).
  exists 0, 1. simpl.
  repeat split; try discriminate; auto.
Defined.

Section UpdateEloFrame.

Variable w : World.
Variable k : R.

Lemma rate_step_frame (h h' : pref -> Player) (d d' : list (pref * list R))
    (c : (tref * pref) * (tref * pref)) :
  rate_step w k (h, d) c = Ok (h', d') ->
  (forall q, q <> snd (fst c) -> h' q = h q) /\
  (forall q, same_identity (h q) (h' q) /\
             true_rating (h' q) = true_rating (h q)) /\
  (forall q, In q (map fst d') <-> In q (map fst d) \/ q = snd (fst c)).
Proof.
  destruct c as [[team p] [other q0]]. unfold rate_step, rate_against. simpl.
  destruct (Team_compare (team_of w team) (team_of w other)) as [o|e];
    simpl; [|discriminate].
  intros H. inversion H; subst. clear H.
  split; [|split].
  - intros q Hq. destruct o; try reflexivity; apply upd_other; exact Hq.
  - intros q. unfold same_identity.
    destruct o; unfold upd; try destruct (Nat.eqb_spec q p) as [->|Hqp];
      simpl; auto.
  - intros q. apply delta_append_keys.
Qed.

Lemma rate_steps_frame (cs : list ((tref * pref) * (tref * pref))) :
  forall h d h' d',
    foldM (rate_step w k) cs (h, d) = Ok (h', d') ->
    (forall q, ~ In q (map (fun c => snd (fst c)) cs) -> h' q = h q) /\
    (forall q, same_identity (h q) (h' q) /\
               true_rating (h' q) = true_rating (h q)) /\
    (forall q, In q (map fst d') ->
               In q (map fst d) \/ In q (map (fun c => snd (fst c)) cs)).
Proof.
  induction cs as [|c cs IH]; intros h d h' d' H; cbn [foldM] in H.
  - inversion H; subst. unfold same_identity. simpl.
    repeat split; auto.
  - destruct (rate_step w k (h, d) c) as [[h1 d1]|e] eqn:E; cbn [bind] in H;
      [|discriminate].
    destruct (rate_step_frame _ _ _ _ _ E) as (F1 & F2 & F3).
    destruct (IH _ _ _ _ H) as (G1 & G2 & G3).
    split; [|split].
    + intros q Hq. simpl in Hq.
      rewrite G1 by tauto. apply F1. intros ->. tauto.
    + intros q. destruct (F2 q) as [(a1 & a2 & a3 & a4) a5].
      destruct (G2 q) as [(b1 & b2 & b3 & b4) b5].
      unfold same_identity. repeat split; congruence.
    + intros q Hq. simpl. destruct (G3 q Hq) as [Hd1|Hcs]; [|tauto].
      apply F3 in Hd1. destruct Hd1 as [Hd | ->]; auto.
Qed.

Lemma apply_deltas_frame (nudge : option Z) (delta : list (pref * list R)) :
  forall h g h' g',
    foldM (apply_delta nudge) delta (h, g) = Ok (h', g') ->
    (forall q, ~ In q (map fst delta) -> h' q = h q) /\
    (forall q, same_identity (h q) (h' q)) /\
    (truthy nudge = false ->
     (forall q, true_rating (h' q) = true_rating (h q)) /\ g' = g).
Proof.
  induction delta as [|[p ds] delta IH]; intros h g h' g' H; cbn [foldM] in H.
  - inversion H; subst. unfold same_identity. repeat split; auto.
  - destruct (apply_delta nudge (h, g) (p, ds)) as [[h1 g1]|e] eqn:E;
      cbn [bind] in H; [|discriminate].
    destruct (IH _ _ _ _ H) as (G1 & G2 & G3).
    unfold apply_delta in E.
    destruct (truediv (Rsum ds) (length ds)) as [avg|e]; cbn [bind] in E;
      [|discriminate].
    set (h0 := upd h p (set_elo (h p) (elo (h p) + avg))) in *.
    assert (F1 : forall q, q <> p -> h1 q = h q).
    { intros q Hq. destruct (truthy nudge).
      - destruct (Player_nudge (h0 p) (int_value nudge) g) as [p' g2].
        inversion E; subst. rewrite upd_other by exact Hq.
        apply upd_other. exact Hq.
      - inversion E; subst. apply upd_other. exact Hq. }
    assert (F2 : same_identity (h p) (h1 p)).
    { unfold same_identity. destruct (truthy nudge).
      - unfold Player_nudge in E.
        destruct (if god (h0 p) then (false, g) else randint01 g)
          as [direction g2].
        inversion E; subst. rewrite upd_same. simpl.
        unfold h0. rewrite upd_same. simpl. auto.
      - inversion E; subst. unfold h0. rewrite upd_same. simpl. auto. }
    assert (F3 : truthy nudge = false ->
                 true_rating (h1 p) = true_rating (h p) /\ g1 = g).
    { intros Hn. rewrite Hn in E. inversion E; subst.
      unfold h0. rewrite upd_same. simpl. auto. }
    split; [|split].
    + intros q Hq. simpl in Hq. rewrite G1 by tauto. apply F1.
      intros ->. tauto.
    + intros q. destruct (G2 q) as (b1 & b2 & b3 & b4).
      destruct (Nat.eq_dec q p) as [->|Hqp].
      * destruct F2 as (a1 & a2 & a3 & a4).
        unfold same_identity. repeat split; congruence.
      * rewrite (F1 q Hqp) in *. unfold same_identity. auto.
    + intros Hn. destruct (G3 Hn) as [G31 G32]. destruct (F3 Hn) as [F31 F32].
      split; [|congruence].
      intros q. rewrite G31.
      destruct (Nat.eq_dec q p) as [->|Hqp]; [exact F31|].
      rewrite (F1 q Hqp). reflexivity.
Qed.

(** X8: what [update_elo] leaves alone: a player that is on no team of
    the game keeps all its fields; no player changes name, god flag or
    time stamps; the teams and the clock are untouched; and without a
    nudge no [true_rating] changes and no random number is drawn. *)
Theorem update_elo_frame (g : Game) (w' : World) :
  update_elo g k w = Ok w' ->
  (forall q, ~ In q (map snd (Game_players w g None)) ->
             player_of w' q = player_of w q) /\
  (forall q, same_identity (player_of w q) (player_of w' q)) /\
  (truthy (game_nudge g) = false ->
   (forall q, true_rating (player_of w' q) = true_rating (player_of w q)) /\
   rng w' = rng w) /\
  team_of w' = team_of w /\ team_count w' = team_count w /\
  clock w' = clock w.
Proof.
  unfold update_elo. rewrite collect_deltas_comparisons.
  destruct (foldM (rate_step w k) (comparisons w g) (player_of w, []))
    as [[h delta]|e] eqn:E1; cbn [bind]; [|discriminate].
  destruct (foldM (apply_delta (game_nudge g)) delta (h, rng w))
    as [[h' g']|e] eqn:E2; cbn [bind]; [|discriminate].
  intros H. inversion H; subst. clear H. simpl.
  destruct (rate_steps_frame _ _ _ _ _ E1) as (F1 & F2 & F3).
  destruct (apply_deltas_frame _ _ _ _ _ _ E2) as (G1 & G2 & G3).
  assert (Hplayers : forall q,
            In q (map (fun c => snd (fst c)) (comparisons w g)) ->
            In q (map snd (Game_players w g None))).
  { intros q Hq. apply in_map_iff in Hq.
    destruct Hq as ([[team p] [other q0]] & Heq & Hin). simpl in Heq. subst.
    apply in_comparisons in Hin. destruct Hin as (Ht & Hp & _).
    apply in_map_iff. exists (team, q). split; [reflexivity|].
    apply in_Game_players. simpl. auto. }
  split; [|split; [|split]].
  - intros q Hq. rewrite G1, F1; [reflexivity| |].
    + intros Hin. apply Hq, Hplayers, Hin.
    + intros Hin. destruct (F3 q Hin) as [[]|Hcs]. apply Hq, Hplayers, Hcs.
  - intros q. destruct (F2 q) as [(a1 & a2 & a3 & a4) _].
    destruct (G2 q) as (b1 & b2 & b3 & b4).
    unfold same_identity. repeat split; congruence.
  - intros Hn. destruct (G3 Hn) as [G31 G32]. split; [|exact G32].
    intros q. rewrite G31. apply F2.
  - auto.
Qed.

End UpdateEloFrame.

Lemma update_elo_frame_witness :
  exists w',
    update_elo duel_game 20 duel_world = Ok w' /\
    (forall q, ~ In q (map snd (Game_players duel_world duel_game None)) ->
               player_of w' q = player_of duel_world q) /\
    (forall q, same_identity (player_of duel_world q) (player_of w' q)) /\
    (truthy (game_nudge duel_game) = false ->
     (forall q, true_rating (player_of w' q)
                = true_rating (player_of duel_world q)) /\
     rng w' = rng duel_world) /\
    team_of w' = team_of duel_world /\
    team_count w' = team_count duel_world /\
    clock w' = clock duel_world.
Proof.
  destruct (update_elo_scored duel_world duel_game 20 duel_scored)
    as (h & delta & w' & _ & Hup & _).
  exists w'. split; [exact Hup|].
  exact (update_elo_frame duel_world 20 duel_game w' Hup).
Defined.

(** ** [Game.compute_score]: frame, and rating the scored game *)

Section ComputeScoreFrame.

Variable w : World.
Variable g : Game.

Lemma compute_score_result (w' : World) :
  compute_score g w = Ok w' ->
  exists results r,
    draw_order g w = Ok (results, r) /\
    w' = with_rng (with_teams w (assign_scores results (team_of w))
                              (team_count w)) r /\
    NoDup (game_teams g) /\ NoDup results /\
    Permutation results (game_teams g).
Proof.
  unfold compute_score.
  destruct (draw_order g w) as [[results r]|e] eqn:Ed; simpl; [|discriminate].
  intros H. inversion H; subst.
  destruct (draw_order_permutation w g results r Ed) as [Hnd Hperm].
  exists results, r. repeat split; try assumption.
  apply (Permutation_NoDup (Permutation_sym Hperm)). exact Hnd.
Qed.

Lemma assign_scores_players (results : list tref) (h : tref -> Team)
    (t : tref) :
  team_players (assign_scores results h t) = team_players (h t).
Proof.
  unfold assign_scores, enumerate. apply assign_players.
Qed.

Lemma assign_scores_untouched (results : list tref) (h : tref -> Team)
    (t : tref) :
  ~ In t results -> assign_scores results h t = h t.
Proof.
  intros Hnotin. unfold assign_scores, enumerate.
  apply assign_untouched. intros Hin. apply Hnotin. apply in_rev. exact Hin.
Qed.

Lemma compute_score_rosters (w' : World) :
  compute_score g w = Ok w' ->
  player_of w' = player_of w /\
  forall t, team_players (team_of w' t) = team_players (team_of w t).
Proof.
  intros H.
  destruct (compute_score_result w' H) as (results & r & _ & -> & _).
  simpl. split; [reflexivity|].
  intros t. apply assign_scores_players.
Qed.

(** X9: [compute_score] only writes scores: no player object changes, no
    roster changes, a team that is not in the game is untouched, and the
    clock is not read. *)
Theorem compute_score_frame (w' : World) :
  compute_score g w = Ok w' ->
  player_of w' = player_of w /\
  clock w' = clock w /\
  team_count w' = team_count w /\
  (forall t, team_players (team_of w' t) = team_players (team_of w t)) /\
  (forall t, ~ In t (game_teams g) -> team_of w' t = team_of w t).
Proof.
  intros H.
  destruct (compute_score_result w' H)
    as (results & r & _ & -> & _ & _ & Hperm).
  simpl. repeat split.
  - intros t. apply assign_scores_players.
  - intros t Ht. apply assign_scores_untouched.
    intros Hin. apply Ht. apply (Permutation_in _ Hperm). exact Hin.
Qed.

Lemma compute_score_scores (w' : World) :
  compute_score g w = Ok w' ->
  forall t, In t (game_teams g) ->
    exists i, i < length (game_teams g) /\
      team_score (team_of w' t) = Some (Z.of_nat i) /\
      forall o, In o (game_teams g) ->
        team_score (team_of w' o) = Some (Z.of_nat i) -> o = t.
Proof.
  intros H t Ht.
  destruct (compute_score_result w' H)
    as (results & r & _ & -> & Hnd & Hndr & Hperm).
  simpl. pose proof (Permutation_length Hperm) as Hlen.
  assert (Hidx : forall x, In x (game_teams g) ->
            exists i, i < length results /\ nth_error results i = Some x).
  { intros x Hx. apply (Permutation_in _ (Permutation_sym Hperm)) in Hx.
    apply In_nth_error in Hx. destruct Hx as [i Hi]. exists i.
    split; [apply nth_error_Some; congruence|exact Hi]. }
  destruct (Hidx t Ht) as (i & Hi & Hnth).
  exists (length results - 1 - i). split; [lia|].
  split; [apply assign_scores_nth; assumption|].
  intros o Ho Hscore.
  destruct (Hidx o Ho) as (j & Hj & Hnthj).
  rewrite (assign_scores_nth results (team_of w) Hndr j o Hnthj) in Hscore.
  assert (Hij : j = i) by (inversion Hscore; lia). subst j.
  congruence.
Qed.

Lemma list_sum_add {A : Type} (f f' : A -> nat) (l : list A) :
  list_sum (map f l) + list_sum (map f' l)
  = list_sum (map (fun x => f x + f' x) l).
Proof.
  induction l as [|x l IH]; simpl; [reflexivity|]. rewrite <- IH. lia.
Qed.

Lemma list_sum_ext_in {A : Type} (f f' : A -> nat) (l : list A) :
  (forall x, In x l -> f x = f' x) ->
  list_sum (map f l) = list_sum (map f' l).
Proof.
  induction l as [|x l IH]; simpl; intros H; [reflexivity|].
  rewrite (H x (or_introl eq_refl)), IH; [reflexivity|].
  intros y Hy. apply H. right. exact Hy.
Qed.

(** X10: a game that [compute_score] has scored has what [update_elo]
    needs: every team has a score and two different teams never draw, so
    that [update_elo] does not fail on a comparison; and when it returns,
    every player's wins and losses together have grown by the number of
    its opposing players. *)
Theorem compute_score_then_update_elo (k : R) (w1 : World) :
  compute_score g w = Ok w1 ->
  scored w1 g /\
  (forall team other,
     In team (game_teams g) -> In other (game_teams g) -> other <> team ->
     outcome w1 team other <> DRAW) /\
  update_elo g k w1 <> Raise TypeError /\
  forall w2,
    update_elo g k w1 = Ok w2 ->
    forall p,
      win (player_of w2 p) + lose (player_of w2 p)
      = win (player_of w p) + lose (player_of w p) + opponents_of w g p.
Proof.
  intros H.
  pose proof (compute_score_scores w1 H) as Hscores.
  destruct (compute_score_rosters w1 H) as (Hp & Hroster).
  assert (Hs : scored w1 g).
  { intros t Ht. destruct (Hscores t Ht) as (i & _ & Hi & _).
    rewrite Hi. discriminate. }
  assert (Hnodraw : forall team other,
            In team (game_teams g) -> In other (game_teams g) ->
            other <> team -> outcome w1 team other <> DRAW).
  { intros team other Ht Ho Hne.
    destruct (Hscores team Ht) as (i & _ & Hi & Hinj).
    destruct (Hscores other Ho) as (j & _ & Hj & _).
    unfold outcome, Team_compare. rewrite Hi, Hj.
    destruct (Z.gtb_spec (Z.of_nat i) (Z.of_nat j)); [discriminate|].
    destruct (Z.ltb_spec (Z.of_nat i) (Z.of_nat j)); [discriminate|].
    exfalso. apply Hne. apply Hinj; [exact Ho|].
    rewrite Hj. do 2 f_equal. lia. }
  split; [exact Hs|]. split; [exact Hnodraw|].
  destruct (update_elo_scored w1 g k Hs)
    as (h & delta & w2 & _ & Hup & _ & _ & _ & Hwin & Hlose).
  split; [rewrite Hup; discriminate|].
  intros w2' Hup' p. rewrite Hup in Hup'. inversion Hup'; subst w2'.
  rewrite Hwin, Hlose, Hp.
  assert (Hcount : comparisons_with w1 g P1_WIN p
                   + comparisons_with w1 g P2_WIN p = opponents_of w g p).
  { unfold comparisons_with, opponents_of. rewrite list_sum_add.
    apply list_sum_ext_in. intros team Ht. rewrite Hroster.
    rewrite <- Nat.mul_add_distr_l. f_equal.
    unfold opponents_with, opposing_players. rewrite list_sum_add.
    apply list_sum_ext_in. intros other Ho. rewrite Hroster.
    destruct (same_team (Some team) other) eqn:Es; [reflexivity|].
    simpl in Es. apply Nat.eqb_neq in Es.
    pose proof (Hnodraw team other Ht Ho Es) as Hd.
    destruct (outcome w1 team other); simpl; try lia. congruence. }
  lia.
Qed.

End ComputeScoreFrame.

Lemma compute_score_frame_witness :
  exists w',
    compute_score duel_game duel_world = Ok w' /\
    player_of w' = player_of duel_world /\
    clock w' = clock duel_world /\
    team_count w' = team_count duel_world /\
    (forall t, team_players (team_of w' t)
               = team_players (team_of duel_world t)) /\
    (forall t, ~ In t (game_teams duel_game) ->
               team_of w' t = team_of duel_world t).
Proof.
  destruct (compute_score_total duel_world duel_game
              duel_teams_distinct duel_strengths_positive) as [w' Hw'].
  exists w'. split; [exact Hw'|].
  exact (compute_score_frame duel_world duel_game w' Hw').
Defined.

Lemma compute_score_then_update_elo_witness :
  exists w1,
    compute_score duel_game duel_world = Ok w1 /\
    scored w1 duel_game /\
    (forall team other,
       In team (game_teams duel_game) -> In other (game_teams duel_game) ->
       other <> team -> outcome w1 team other <> DRAW) /\
    update_elo duel_game 20 w1 <> Raise TypeError /\
    forall w2,
      update_elo duel_game 20 w1 = Ok w2 ->
      forall p,
        win (player_of w2 p) + lose (player_of w2 p)
        = win (player_of duel_world p) + lose (player_of duel_world p)
          + opponents_of duel_world duel_game p.
Proof.
  destruct (compute_score_total duel_world duel_game
              duel_teams_distinct duel_strengths_positive) as [w1 Hw1].
  exists w1. split; [exact Hw1|].
  exact (compute_score_then_update_elo duel_world duel_game 20 w1 Hw1).
Defined.

(** ** [PlayerStore]: enrolment, lookup after [set], the two statuses *)

Section StoreFacts.

Lemma dict_get_In {V : Type} (d : list (nat * V)) (k : nat) (v : V) :
  NoDup (map fst d) -> (In (k, v) d <-> dict_get d k = Some v).
Proof.
  induction d as [|[k' v'] d IH]; simpl; intros Hnd.
  - split; [contradiction|discriminate].
  - inversion Hnd as [|? ? Hnotin Hnd']; subst.
    destruct (Nat.eqb_spec k' k) as [->|Hk].
    + split.
      * intros [Heq|Hin]; [congruence|].
        exfalso. apply Hnotin. apply in_map_iff. exists (k, v). auto.
      * intros Heq. left. congruence.
    + rewrite <- (IH Hnd'). split.
      * intros [Heq|Hin]; [congruence|exact Hin].
      * auto.
Qed.

Lemma PlayerStore_get_iff (st : PlayerStore) (s : PlayerStatus) (p : pref) :
  store_wf st ->
  (In p (PlayerStore_get st s) <-> dict_get (statuses st) p = Some s).
Proof.
  intros Hwf. rewrite <- (dict_get_In _ _ _ Hwf).
  unfold PlayerStore_get. rewrite in_map_iff. split.
  - intros ([q s'] & Hq & Hin). simpl in Hq. subst q.
    apply filter_In in Hin. destruct Hin as [Hin Hs]. simpl in Hs.
    destruct s', s; try discriminate; exact Hin.
  - intros Hin. exists (p, s). split; [reflexivity|].
    apply filter_In. split; [exact Hin|]. destruct s; reflexivity.
Qed.

Lemma dict_get_None {V : Type} (d : list (nat * V)) (k : nat) :
  dict_get d k = None <-> ~ In k (map fst d).
Proof.
  induction d as [|[k' v'] d IH]; simpl; [tauto|].
  destruct (Nat.eqb_spec k' k) as [->|Hk].
  - split; [discriminate|tauto].
  - rewrite IH. tauto.
Qed.

Lemma init_fold (players : list pref) :
  forall d : list (pref * PlayerStatus),
    Forall (fun e => snd e = WAITING) d ->
    Forall (fun e => snd e = WAITING)
           (fold_left (fun d p => dict_set d p WAITING) players d) /\
    forall p, In p (map fst (fold_left (fun d p => dict_set d p WAITING)
                                       players d))
              <-> In p (map fst d) \/ In p players.
Proof.
  induction players as [|x players IH]; intros d Hd; simpl.
  - split; [exact Hd|]. tauto.
  - destruct (IH (dict_set d x WAITING)) as [H1 H2].
    { apply (dict_set_Forall (fun v => v = WAITING)); auto. }
    split; [exact H1|]. intros p. rewrite H2, dict_set_keys. intuition.
Qed.

Lemma all_waiting_filter (d : list (pref * PlayerStatus)) :
  Forall (fun e => snd e = WAITING) d ->
  filter (fun e => PlayerStatus_eqb (snd e) WAITING) d = d /\
  filter (fun e => PlayerStatus_eqb (snd e) IN_GAME) d = [].
Proof.
  induction 1 as [|[q s] d Hs Hd [IH1 IH2]]; simpl; [auto|].
  simpl in Hs. subst s. simpl. rewrite IH1. auto.
Qed.

(** X11: a store built from a list of players has each of them once, all
    of them WAITING, none IN_GAME, whatever repetitions the list has. *)
Theorem PlayerStore_init_all_waiting (players : list pref) :
  store_wf (PlayerStore_init players) /\
  NoDup (PlayerStore_get (PlayerStore_init players) WAITING) /\
  (forall p, In p (PlayerStore_get (PlayerStore_init players) WAITING)
             <-> In p players) /\
  PlayerStore_get (PlayerStore_init players) IN_GAME = [] /\
  PlayerStore_get_all (PlayerStore_init players)
  = PlayerStore_get (PlayerStore_init players) WAITING.
Proof.
  pose proof (PlayerStore_init_wf players) as Hwf.
  destruct (init_fold players [] (Forall_nil _)) as [Hall Hkeys].
  destruct (all_waiting_filter _ Hall) as [Hw Hi].
  change (fold_left (fun d p => dict_set d p WAITING) players [])
    with (statuses (PlayerStore_init players)) in Hw, Hi, Hkeys.
  unfold PlayerStore_get, PlayerStore_get_all. rewrite Hw, Hi.
  split; [exact Hwf|]. split; [exact Hwf|].
  split; [|split; reflexivity].
  intros p. rewrite Hkeys. simpl. tauto.
Qed.

(** X12: lookup after [set]: in a store with distinct keys, every player
    passed to [set] is afterwards listed under the given status and under
    no other, and every other player is listed exactly where it was. *)
Theorem PlayerStore_get_after_set (st : PlayerStore) (players : list pref)
    (status : PlayerStatus) (w : World) :
  store_wf st ->
  store_wf (fst (PlayerStore_set st players status w)) /\
  (forall p, In p players ->
     In p (PlayerStore_get (fst (PlayerStore_set st players status w)) status)
     /\ forall s, s <> status ->
          ~ In p (PlayerStore_get (fst (PlayerStore_set st players status w))
                                  s)) /\
  (forall p s, ~ In p players ->
     (In p (PlayerStore_get (fst (PlayerStore_set st players status w)) s)
      <-> In p (PlayerStore_get st s))).
Proof.
  intros Hwf.
  pose proof (PlayerStore_set_wf status players st w Hwf) as Hwf'.
  split; [exact Hwf'|]. split.
  - intros p Hp.
    pose proof (PlayerStore_set_status status players st w p Hp) as Hs.
    split.
    + apply PlayerStore_get_iff; assumption.
    + intros s Hne Hin. apply PlayerStore_get_iff in Hin; [|exact Hwf'].
      congruence.
  - intros p s Hp.
    destruct (PlayerStore_set_frame status players st w p Hp) as [Hd _].
    rewrite !PlayerStore_get_iff by assumption. rewrite Hd. reflexivity.
Qed.

Lemma dict_set_known_keys {V : Type} (d : list (nat * V)) (k : nat) (v : V) :
  In k (map fst d) -> map fst (dict_set d k v) = map fst d.
Proof.
  induction d as [|[k' v'] d IH]; simpl; intros Hin; [contradiction|].
  destruct (Nat.eqb_spec k' k) as [->|Hk]; [reflexivity|].
  simpl. f_equal. apply IH. destruct Hin; [congruence|assumption].
Qed.

(** X13: [set] on players that the store knows adds no key and keeps the
    order of [get_all]; a player that the store does not know is not
    refused: it is added as a new key. *)
Theorem PlayerStore_set_keeps_known_players (players : list pref)
    (status : PlayerStatus) :
  forall (st : PlayerStore) (w : World),
    (incl players (PlayerStore_get_all st) ->
     PlayerStore_get_all (fst (PlayerStore_set st players status w))
     = PlayerStore_get_all st) /\
    (forall p, In p players ->
       In p (PlayerStore_get_all (fst (PlayerStore_set st players status w)))).
Proof.
  induction players as [|x players IH]; intros st w.
  - split; [reflexivity|contradiction].
  - rewrite PlayerStore_set_cons.
    destruct (set_one_spec status st w x) as (Hst & _).
    destruct (IH (fst (set_one status (st, w) x))
                 (snd (set_one status (st, w) x))) as [IH1 IH2].
    split.
    + intros Hincl.
      assert (Hkeys : PlayerStore_get_all (fst (set_one status (st, w) x))
                      = PlayerStore_get_all st).
      { unfold PlayerStore_get_all. rewrite Hst.
        apply dict_set_known_keys. apply Hincl. left. reflexivity. }
      rewrite IH1; [exact Hkeys|].
      rewrite Hkeys. intros p Hp. apply Hincl. right. exact Hp.
    + intros p [<-|Hp]; [|apply IH2; exact Hp].
      destruct (in_dec Nat.eq_dec x players) as [Hin|Hnotin];
        [apply IH2; exact Hin|].
      destruct (PlayerStore_set_frame status players
                  (fst (set_one status (st, w) x))
                  (snd (set_one status (st, w) x)) x Hnotin) as [Hd _].
      unfold PlayerStore_get_all.
      destruct (in_dec Nat.eq_dec x
                  (map fst (statuses (fst (PlayerStore_set
                     (fst (set_one status (st, w) x)) players status
                     (snd (set_one status (st, w) x)))))))
        as [Hin|Hout]; [exact Hin|].
      apply dict_get_None in Hout. rewrite Hd, Hst, dict_get_set in Hout.
      rewrite Nat.eqb_refl in Hout. discriminate.
Qed.

(** X14: every known player has exactly one status: it is listed by
    [get(WAITING)] or by [get(IN_GAME)], never by both. *)
Theorem every_player_has_one_status (st : PlayerStore) (p : pref) :
  store_wf st ->
  In p (PlayerStore_get_all st) ->
  (In p (PlayerStore_get st WAITING) /\ ~ In p (PlayerStore_get st IN_GAME)) \/
  (In p (PlayerStore_get st IN_GAME) /\ ~ In p (PlayerStore_get st WAITING)).
Proof.
  intros Hwf Hin.
  rewrite !PlayerStore_get_iff by exact Hwf.
  destruct (dict_get (statuses st) p) as [[|]|] eqn:E.
  - right. split; [reflexivity|discriminate].
  - left. split; [reflexivity|discriminate].
  - apply dict_get_None in E. contradiction.
Qed.

End StoreFacts.

Lemma PlayerStore_set_keeps_known_players_witness :
  PlayerStore_get_all (fst (PlayerStore_set pair_store [1] IN_GAME lobby_world))
  = PlayerStore_get_all pair_store /\
  In 1 (PlayerStore_get_all
          (fst (PlayerStore_set pair_store [1] IN_GAME lobby_world))).
Proof.
  destruct (PlayerStore_set_keeps_known_players [1] IN_GAME pair_store
              lobby_world) as [H1 H2].
  split.
  - apply H1. intros x [<-|[]]. simpl. auto.
  - apply H2. left. reflexivity.
Defined.

Lemma PlayerStore_get_after_set_witness :
  store_wf (fst (PlayerStore_set pair_store [0] IN_GAME duel_world)) /\
  (forall p, In p [0] ->
     In p (PlayerStore_get
             (fst (PlayerStore_set pair_store [0] IN_GAME duel_world)) IN_GAME)
     /\ forall s, s <> IN_GAME ->
          ~ In p (PlayerStore_get
                    (fst (PlayerStore_set pair_store [0] IN_GAME duel_world))
                    s)) /\
  (forall p s, ~ In p [0] ->
     (In p (PlayerStore_get
              (fst (PlayerStore_set pair_store [0] IN_GAME duel_world)) s)
      <-> In p (PlayerStore_get pair_store s))).
Proof.
  apply (PlayerStore_get_after_set pair_store [0] IN_GAME duel_world).
  exact pair_store_wf.
Defined.

Lemma every_player_has_one_status_witness :
  (In 1 (PlayerStore_get pair_store WAITING)
   /\ ~ In 1 (PlayerStore_get pair_store IN_GAME)) \/
  (In 1 (PlayerStore_get pair_store IN_GAME)
   /\ ~ In 1 (PlayerStore_get pair_store WAITING)).
Proof.
  apply (every_player_has_one_status pair_store 1).
  - exact pair_store_wf.
  - simpl. auto.
Defined.

(** ** [find_players]: degenerate settings, the selection, the balance *)

(** X15: degenerate settings.  With no waiting player and a product of
    the two sizes that is not positive, [find_players] fails on
    [pop(0)] with an [IndexError]; with a waiting player and a team
    number that is not positive it returns an empty list of teams. *)
Theorem find_players_degenerate (st : PlayerStore) (w : World)
    (num_per_teams num_teams : Z) :
  (PlayerStore_get st WAITING = [] ->
   (num_per_teams * num_teams <= 0)%Z ->
   find_players st w num_per_teams num_teams = Raise IndexError) /\
  (PlayerStore_get st WAITING <> [] ->
   (num_teams <= 0)%Z ->
   (num_per_teams * num_teams
    <= Z.of_nat (length (PlayerStore_get st WAITING)))%Z ->
   find_players st w num_per_teams num_teams = Ok (Some [])).
Proof.
  split.
  - intros Hempty Hprod. unfold find_players. rewrite Hempty. simpl.
    destruct (Z.ltb_spec 0 (num_per_teams * num_teams)); [lia|reflexivity].
  - intros Hne Ht Hprod. unfold find_players. rewrite sort_by_length.
    destruct (Z.ltb_spec (Z.of_nat (length (PlayerStore_get st WAITING)))
                         (num_per_teams * num_teams)); [lia|].
    destruct (sort_by Z.leb _ (PlayerStore_get st WAITING))
      as [|first_player rest] eqn:E.
    + apply (f_equal (@length nat)) in E. rewrite sort_by_length in E.
      destruct (PlayerStore_get st WAITING); [congruence|discriminate].
    + unfold range. replace (Z.to_nat num_teams) with 0 by lia.
      reflexivity.
Qed.

Lemma find_players_degenerate_witness :
  find_players (PlayerStore_init []) lobby_world 0 0 = Raise IndexError /\
  find_players pair_store lobby_world 1 0 = Ok (Some []).
Proof.
  split.
  - apply (proj1 (find_players_degenerate (PlayerStore_init []) lobby_world
                    0 0)); [reflexivity|lia].
  - apply (proj2 (find_players_degenerate pair_store lobby_world 1 0)).
    + discriminate.
    + lia.
    + simpl. lia.
Defined.

Section RealSorting.

Context {A : Type}.
Variable key : A -> R.

Lemma Rleb_false (x y : R) : Rleb x y = false -> (y <= x)%R.
Proof. unfold Rleb. destruct (Rle_dec x y); [discriminate|]. lra. Qed.

Lemma Rleb_true (x y : R) : Rleb x y = true -> (x <= y)%R.
Proof. unfold Rleb. destruct (Rle_dec x y); [auto|discriminate]. Qed.

Lemma insert_by_Rsorted (x : A) (l : list A) :
  StronglySorted (fun a b => key a <= key b)%R l ->
  StronglySorted (fun a b => key a <= key b)%R (insert_by Rleb key x l).
Proof.
  induction 1 as [|y l Hs IH Hall]; simpl.
  - repeat constructor.
  - destruct (Rleb (key x) (key y)) eqn:E.
    + apply Rleb_true in E.
      constructor; [constructor; assumption|].
      constructor; [exact E|].
      rewrite Forall_forall in *. intros z Hz. specialize (Hall z Hz). lra.
    + apply Rleb_false in E.
      constructor; [exact IH|].
      rewrite Forall_forall in *. intros z Hz.
      apply (Permutation_in _ (insert_by_perm Rleb key x l)) in Hz.
      destruct Hz as [<-|Hz]; [exact E|apply Hall; exact Hz].
Qed.

Lemma sort_by_Rsorted (l : list A) :
  StronglySorted (fun a b => key a <= key b)%R (sort_by Rleb key l).
Proof.
  induction l as [|x l IH]; simpl; [constructor|].
  apply insert_by_Rsorted. exact IH.
Qed.

Lemma sorted_app_le (l1 l2 : list A) :
  StronglySorted (fun a b => key a <= key b)%R (l1 ++ l2) ->
  forall x y, In x l1 -> In y l2 -> (key x <= key y)%R.
Proof.
  induction l1 as [|a l1 IH]; simpl; intros Hs x y Hx Hy; [contradiction|].
  inversion Hs as [|? ? Hs' Hall]; subst.
  destruct Hx as [<-|Hx].
  - rewrite Forall_forall in Hall. apply Hall. apply in_or_app. right.
    exact Hy.
  - apply (IH Hs' x y Hx Hy).
Qed.

End RealSorting.

Lemma selection_facts (w : World) (first_player : pref) (rest : list pref)
    (n : nat) :
  NoDup (first_player :: rest) -> n <= length rest ->
  NoDup (selection w first_player rest n) /\
  length (selection w first_player rest n) = S n /\
  incl (selection w first_player rest n) (first_player :: rest).
Proof.
  intros Hnd Hn. unfold selection.
  set (rest' := sort_by Rleb _ rest).
  assert (Hperm : Permutation rest' rest) by apply sort_by_perm.
  inversion Hnd as [|? ? Hnotin Hndr]; subst.
  split; [|split].
  - simpl. constructor.
    + intros Hin. apply Hnotin. apply (Permutation_in _ Hperm).
      eapply firstn_In. exact Hin.
    + apply firstn_NoDup.
      apply (Permutation_NoDup (Permutation_sym Hperm)). exact Hndr.
  - simpl. rewrite length_firstn.
    apply Permutation_length in Hperm. lia.
  - intros x [<-|Hx]; [left; reflexivity|right].
    apply (Permutation_in _ Hperm). eapply firstn_In. exact Hx.
Qed.

Section Selection.

Variable st : PlayerStore.
Variable w : World.
Variable num_per_teams num_teams : Z.

Hypothesis store_ok : store_wf st.
Hypothesis size_pos : (0 < num_per_teams)%Z.
Hypothesis number_pos : (0 < num_teams)%Z.
Hypothesis enough :
  (num_per_teams * num_teams
   <= Z.of_nat (length (PlayerStore_get st WAITING)))%Z.

(** [find_players] with its guard and its slice resolved. *)
Lemma find_players_pool :
  exists first_player rest,
    sort_by Z.leb (fun x => last_played (player_of w x))
            (PlayerStore_get st WAITING) = first_player :: rest /\
    Z.to_nat (num_per_teams * num_teams - 1) <= length rest /\
    NoDup (first_player :: rest) /\
    find_players st w num_per_teams num_teams =
      ('(teams, _) <-
         foldM (take_team num_teams) (range num_teams)
               ([], pool w first_player rest
                         (Z.to_nat (num_per_teams * num_teams - 1))) ;;
       Ok (Some teams)).
Proof.
  pose proof (PlayerStore_get_NoDup st WAITING store_ok) as Hnd.
  unfold find_players.
  set (waiting := PlayerStore_get st WAITING) in *.
  set (key := fun x => last_played (player_of w x)).
  pose proof (sort_by_perm Z.leb key waiting) as Hperm.
  rewrite sort_by_length.
  destruct (Z.ltb_spec (Z.of_nat (length waiting))
                       (num_per_teams * num_teams)) as [Hlt|_]; [lia|].
  destruct (sort_by Z.leb key waiting) as [|first_player rest] eqn:Esort.
  { apply Permutation_length in Hperm. simpl in Hperm. nia. }
  exists first_player, rest.
  split; [reflexivity|].
  split.
  { apply Permutation_length in Hperm. simpl in Hperm. nia. }
  split.
  { apply (Permutation_NoDup (Permutation_sym Hperm)). exact Hnd. }
  unfold slice_to.
  destruct (Z.leb_spec 0 (num_per_teams * num_teams - 1)) as [_|Hneg];
    [|nia].
  reflexivity.
Qed.

(** X16: the anchor is the head of the waiting players sorted by
    [last_played], a waiting player that none has waited longer than, and
    it is picked; the players picked with it are the ones closest to it in
    rating, the distances taken as exact real numbers: a waiting player
    that is left out is at least as far from the anchor's rating as every
    picked player. *)
Theorem find_players_picks_the_closest :
  exists teams anchor,
    find_players st w num_per_teams num_teams = Ok (Some teams) /\
    hd_error (sort_by Z.leb (fun x => last_played (player_of w x))
                      (PlayerStore_get st WAITING)) = Some anchor /\
    In anchor (PlayerStore_get st WAITING) /\
    (forall q, In q (PlayerStore_get st WAITING) ->
       (last_played (player_of w anchor)
        <= last_played (player_of w q))%Z) /\
    In anchor (concat teams) /\
    forall p q,
      In p (concat teams) -> p <> anchor ->
      In q (PlayerStore_get st WAITING) -> ~ In q (concat teams) ->
      (Rabs (elo (player_of w p) - elo (player_of w anchor))
       <= Rabs (elo (player_of w q) - elo (player_of w anchor)))%R.
Proof.
  destruct find_players_pool as (first_player & rest & Hsort & Hn & Hnd & Hfind).
  set (n := Z.to_nat (num_per_teams * num_teams - 1)) in *.
  destruct (selection_facts w first_player rest n Hnd Hn)
    as (Hsnd & Hslen & _).
  assert (Hpperm : Permutation (pool w first_player rest n)
                               (selection w first_player rest n))
    by apply sort_by_perm.
  assert (Hpnd : NoDup (pool w first_player rest n))
    by (apply (Permutation_NoDup (Permutation_sym Hpperm)); exact Hsnd).
  assert (Hplen : length (pool w first_player rest n)
                  = Z.to_nat num_per_teams * Z.to_nat num_teams).
  { rewrite (Permutation_length Hpperm), Hslen. unfold n.
    rewrite <- Z2Nat.inj_mul by lia. lia. }
  destruct (take_teams num_teams (Z.to_nat num_per_teams)
              (Z.to_nat num_teams) 0 [] _ ltac:(lia) Hpnd Hplen)
    as (teams & Hfold & _ & _ & Hp).
  unfold range in Hfind. rewrite Hfold in Hfind. cbn [bind app] in Hfind.
  exists teams, first_player.
  split; [exact Hfind|].
  split; [rewrite Hsort; reflexivity|].
  split.
  { apply (Permutation_in _ (sort_by_perm Z.leb
             (fun x => last_played (player_of w x))
             (PlayerStore_get st WAITING))).
    rewrite Hsort. left. reflexivity. }
  split.
  { intros q Hq.
    apply (sort_by_head_least (fun x => last_played (player_of w x))
             (PlayerStore_get st WAITING) first_player rest Hsort q Hq). }
  assert (Hmem : forall x, In x (concat teams)
                           <-> In x (selection w first_player rest n)).
  { intros x. split; intros Hx.
    - apply (Permutation_in _ Hpperm). apply (Permutation_in _ Hp). exact Hx.
    - apply (Permutation_in _ (Permutation_sym Hp)).
      apply (Permutation_in _ (Permutation_sym Hpperm)). exact Hx. }
  split; [apply Hmem; left; reflexivity|].
  intros p q Hp' Hpa Hq Hqout.
  set (dist := fun x => Rabs (elo (player_of w x)
                              - elo (player_of w first_player))).
  pose proof (sort_by_Rsorted dist rest) as Hsorted.
  rewrite <- (firstn_skipn n (sort_by Rleb dist rest)) in Hsorted.
  apply (sorted_app_le dist _ _ Hsorted p q).
  - apply Hmem in Hp'. destruct Hp' as [Heq|Hin]; [congruence|exact Hin].
  - assert (Hq' : In q (first_player :: rest)).
    { rewrite <- Hsort.
      apply (Permutation_in _ (Permutation_sym (sort_by_perm _ _ _))).
      exact Hq. }
    destruct Hq' as [<-|Hq'].
    { exfalso. apply Hqout. apply Hmem. left. reflexivity. }
    apply (Permutation_in _ (Permutation_sym (sort_by_perm Rleb dist rest)))
      in Hq'.
    rewrite <- (firstn_skipn n (sort_by Rleb dist rest)) in Hq'.
    apply in_app_or in Hq'. destruct Hq' as [Hq'|Hq']; [|exact Hq'].
    exfalso. apply Hqout. apply Hmem. right. exact Hq'.
Qed.

End Selection.

(** Three waiting players rated 1000, 1100 and 1200, and a game of two
    teams of one: one player is left out. *)
Lemma find_players_picks_the_closest_witness :
  exists teams anchor,
    find_players trio_store ladder_world 1 2 = Ok (Some teams) /\
    hd_error (sort_by Z.leb (fun x => last_played (player_of ladder_world x))
                      (PlayerStore_get trio_store WAITING)) = Some anchor /\
    In anchor (PlayerStore_get trio_store WAITING) /\
    (forall q, In q (PlayerStore_get trio_store WAITING) ->
       (last_played (player_of ladder_world anchor)
        <= last_played (player_of ladder_world q))%Z) /\
    In anchor (concat teams) /\
    forall p q,
      In p (concat teams) -> p <> anchor ->
      In q (PlayerStore_get trio_store WAITING) -> ~ In q (concat teams) ->
      (Rabs (elo (player_of ladder_world p)
             - elo (player_of ladder_world anchor))
       <= Rabs (elo (player_of ladder_world q)
                - elo (player_of ladder_world anchor)))%R.
Proof.
  apply (find_players_picks_the_closest trio_store ladder_world 1 2).
  - apply PlayerStore_init_wf.
  - lia.
  - lia.
  - simpl. lia.
Defined.

(** Two teams: the first takes the even positions of the buffer, the
    second the odd ones. *)
Section TwoTeams.

Lemma list_remove_middle (pre l : list pref) (x : pref) :
  ~ In x pre -> list_remove (pre ++ x :: l) x = Ok (pre ++ l).
Proof.
  induction pre as [|y pre IH]; simpl; intros Hnotin.
  - rewrite Nat.eqb_refl. reflexivity.
  - destruct (Nat.eqb_spec y x) as [->|Hne]; [tauto|].
    rewrite IH by tauto. reflexivity.
Qed.

Lemma remove_even_positions (n : nat) :
  forall l pre,
    length l <= n -> NoDup (pre ++ l) ->
    foldM list_remove (stride_from 2 0 l) (pre ++ l)
    = Ok (pre ++ stride_from 2 1 l).
Proof.
  induction n as [|n IH]; intros l pre Hlen Hnd.
  - destruct l; [reflexivity|simpl in Hlen; lia].
  - destruct l as [|x [|y l]].
    + reflexivity.
    + simpl. rewrite list_remove_middle.
      * reflexivity.
      * apply NoDup_remove_2 in Hnd. rewrite app_nil_r in Hnd. exact Hnd.
    + cbn [stride_from Nat.sub foldM].
      rewrite list_remove_middle.
      * cbn [bind].
        replace (pre ++ y :: l) with ((pre ++ [y]) ++ l)
          by (rewrite <- app_assoc; reflexivity).
        rewrite IH.
        -- rewrite <- app_assoc. reflexivity.
        -- simpl in Hlen. lia.
        -- rewrite <- app_assoc. simpl.
           apply NoDup_remove_1 in Hnd. exact Hnd.
      * apply NoDup_remove_2 in Hnd. intros Hin. apply Hnd.
        apply in_or_app. left. exact Hin.
Qed.

Lemma stride_1 {A : Type} (l : list A) : stride_from 1 0 l = l.
Proof.
  induction l as [|x l IH]; simpl; [reflexivity|]. rewrite IH. reflexivity.
Qed.

Lemma take_team_ok (num_teams i : Z) (k : nat) (teams : list (list pref))
    (pending pending' : list pref) :
  (num_teams - i)%Z = Z.of_nat (S k) ->
  foldM list_remove (stride_from (S k) 0 pending) pending = Ok pending' ->
  take_team num_teams (teams, pending) i
  = Ok (teams ++ [stride_from (S k) 0 pending], pending').
Proof.
  intros Hk Hrem. unfold take_team, slice_step. rewrite Hk.
  destruct (Z.eqb_spec (Z.of_nat (S k)) 0) as [H0|_]; [lia|].
  destruct (Z.ltb_spec 0 (Z.of_nat (S k))) as [_|H0]; [|lia].
  rewrite Nat2Z.id. cbn [bind]. rewrite Hrem. reflexivity.
Qed.

Lemma remove_self (l : list pref) :
  NoDup l -> foldM list_remove l l = Ok [].
Proof.
  intros Hnd.
  destruct (remove_all l Hnd l (fun x Hx => Hx)) as (l' & Hrem & Hperm).
  rewrite Hrem. f_equal.
  apply Permutation_length in Hperm. rewrite length_app in Hperm.
  destruct l'; [reflexivity|simpl in Hperm; lia].
Qed.

Lemma take_two_teams (pending : list pref) :
  NoDup pending ->
  foldM (take_team 2) (range 2) ([], pending)
  = Ok ([stride_from 2 0 pending; stride_from 2 1 pending], []).
Proof.
  intros Hnd. change (range 2) with [0%Z; 1%Z]. cbn [foldM].
  rewrite (take_team_ok 2 0 1 [] pending (stride_from 2 1 pending) eq_refl
             (remove_even_positions (length pending) pending []
                (Nat.le_refl _) Hnd)).
  cbn [bind app].
  assert (Hodd : NoDup (stride_from 2 1 pending))
    by (apply stride_from_NoDup; exact Hnd).
  rewrite (take_team_ok 2 1 0 _ (stride_from 2 1 pending) [] eq_refl).
  - rewrite stride_1. reflexivity.
  - rewrite stride_1. apply remove_self. exact Hodd.
Qed.

Lemma Rsum_cons (x : R) (l : list R) : Rsum (x :: l) = (x + Rsum l)%R.
Proof.
  unfold Rsum. simpl.
  assert (H : forall (l : list R) (a b : R),
            fold_left Rplus l (a + b)%R = (a + fold_left Rplus l b)%R).
  { clear. induction l as [|y l IH]; intros a b; simpl; [reflexivity|].
    rewrite <- IH. f_equal. ring. }
  rewrite <- H. f_equal. ring.
Qed.

Lemma sorted_pairs_balance (n : nat) :
  forall (l : list R) (lo hi : R),
    length l <= n ->
    StronglySorted Rle l ->
    Nat.even (length l) = true ->
    (forall z, In z l -> lo <= z <= hi)%R ->
    (0 <= Rsum (stride_from 2 1 l) - Rsum (stride_from 2 0 l) <= hi - lo
     \/ l = [])%R.
Proof.
  induction n as [|n IH]; intros l lo hi Hlen Hs Heven Hb.
  - right. destruct l; [reflexivity|simpl in Hlen; lia].
  - destruct l as [|x [|y l]]; [right; reflexivity|discriminate|].
    left. cbn [stride_from Nat.sub]. rewrite !Rsum_cons.
    inversion Hs as [|? ? Hs1 Hall1]; subst.
    inversion Hs1 as [|? ? Hs2 Hall2]; subst.
    assert (Hxy : (x <= y)%R).
    { rewrite Forall_forall in Hall1. apply Hall1. left. reflexivity. }
    assert (Hx : (lo <= x <= hi)%R) by (apply Hb; left; reflexivity).
    assert (Hy : (lo <= y <= hi)%R)
      by (apply Hb; right; left; reflexivity).
    destruct (IH l y hi) as [Hrec| ->].
    + simpl in Hlen. lia.
    + exact Hs2.
    + simpl in Heven. exact Heven.
    + intros z Hz. split.
      * rewrite Forall_forall in Hall2. apply Hall2. exact Hz.
      * apply Hb. right. right. exact Hz.
    + lra.
    + simpl. unfold Rsum. simpl. lra.
Qed.

Lemma stride_from_map {A B : Type} (f : A -> B) (k : nat) (l : list A) :
  forall skip, stride_from k skip (map f l) = map f (stride_from k skip l).
Proof.
  induction l as [|x l IH]; intros skip; simpl; [reflexivity|].
  destruct skip; simpl; rewrite IH; reflexivity.
Qed.

Lemma StronglySorted_map {A : Type} (key : A -> R) (l : list A) :
  StronglySorted (fun a b => key a <= key b)%R l ->
  StronglySorted Rle (map key l).
Proof.
  induction 1 as [|x l Hs IH Hall]; simpl; constructor; [exact IH|].
  rewrite Forall_forall in *. intros z Hz. apply in_map_iff in Hz.
  destruct Hz as (y & <- & Hy). apply Hall. exact Hy.
Qed.

Lemma stride_2_nth {A : Type} (l : list A) :
  (forall i, nth_error (stride_from 2 0 l) i = nth_error l (2 * i)) /\
  (forall i, nth_error (stride_from 2 1 l) i = nth_error l (2 * i + 1)).
Proof.
  induction l as [|x l [IH0 IH1]].
  - split; intros i; simpl.
    + destruct i; simpl; [reflexivity|].
      destruct (i + S (i + 0)); reflexivity.
    + destruct i; simpl; [reflexivity|].
      destruct (i + S (i + 0) + 1); reflexivity.
  - cbn [stride_from Nat.sub]. split; intros i.
    + destruct i as [|i]; [reflexivity|].
      replace (2 * S i) with (S (2 * i + 1)) by lia.
      simpl nth_error at 1. cbn [nth_error]. apply IH1.
    + replace (2 * i + 1) with (S (2 * i)) by lia.
      cbn [nth_error]. apply IH0.
Qed.

Variable st : PlayerStore.
Variable w : World.
Variable num_per_teams : Z.

(** X17: two teams are balanced.  With two teams [find_players] gives the
    first team the even positions of the buffer of picked players, sorted
    by rating, and the second team the odd ones; the second team's total
    rating is at least the first's, and exceeds it by no more than the
    spread of the ratings of the players picked. *)
Theorem two_teams_are_balanced :
  store_wf st ->
  (0 < num_per_teams)%Z ->
  (num_per_teams * 2 <= Z.of_nat (length (PlayerStore_get st WAITING)))%Z ->
  exists buffer team1 team2,
    find_players st w num_per_teams 2 = Ok (Some [team1; team2]) /\
    StronglySorted
      (fun a b => elo (player_of w a) <= elo (player_of w b))%R buffer /\
    length buffer = 2 * Z.to_nat num_per_teams /\
    (forall i, nth_error team1 i = nth_error buffer (2 * i)) /\
    (forall i, nth_error team2 i = nth_error buffer (2 * i + 1)) /\
    forall lo hi,
      (forall p, In p (team1 ++ team2) ->
                 lo <= elo (player_of w p) <= hi)%R ->
      (0 <= total_elo w team2 - total_elo w team1 <= hi - lo)%R.
Proof.
  intros Hwf Hs Hlen.
  destruct (find_players_pool st w num_per_teams 2 Hwf Hs ltac:(lia) Hlen)
    as (first_player & rest & Hsort & Hn & Hnd & Hfind).
  set (n := Z.to_nat (num_per_teams * 2 - 1)) in *.
  destruct (selection_facts w first_player rest n Hnd Hn)
    as (Hsnd & Hslen & _).
  set (pending := pool w first_player rest n) in *.
  assert (Hpperm : Permutation pending (selection w first_player rest n))
    by apply sort_by_perm.
  assert (Hpnd : NoDup pending)
    by (apply (Permutation_NoDup (Permutation_sym Hpperm)); exact Hsnd).
  rewrite (take_two_teams pending Hpnd) in Hfind. cbn [bind] in Hfind.
  exists pending, (stride_from 2 0 pending), (stride_from 2 1 pending).
  split; [exact Hfind|].
  split; [apply sort_by_Rsorted|].
  split.
  { rewrite (Permutation_length Hpperm), Hslen. unfold n. lia. }
  split; [apply stride_2_nth|]. split; [apply stride_2_nth|].
  intros lo hi Hb.
  set (key := fun p => elo (player_of w p)).
  assert (Hsorted : StronglySorted Rle (map key pending)).
  { apply StronglySorted_map. apply sort_by_Rsorted. }
  assert (Heven : Nat.even (length (map key pending)) = true).
  { rewrite length_map, (Permutation_length Hpperm), Hslen. unfold n.
    replace (S (Z.to_nat (num_per_teams * 2 - 1)))
      with (2 * Z.to_nat num_per_teams) by lia.
    rewrite Nat.even_mul. reflexivity. }
  assert (Hin : forall p, In p pending ->
                  In p (stride_from 2 0 pending ++ stride_from 2 1 pending)).
  { intros p Hp.
    destruct (take_teams 2 (Z.to_nat num_per_teams) 2 0 [] pending
                eq_refl Hpnd) as (teams & Hfold & _ & _ & Hperm).
    - rewrite (Permutation_length Hpperm), Hslen. unfold n. lia.
    - change (map Z.of_nat (seq 0 2)) with (range 2) in Hfold.
      rewrite (take_two_teams pending Hpnd) in Hfold.
      inversion Hfold; subst. simpl in Hperm. rewrite app_nil_r in Hperm.
      apply (Permutation_in _ (Permutation_sym Hperm)). exact Hp. }
  destruct (sorted_pairs_balance (length (map key pending)) (map key pending)
              lo hi (Nat.le_refl _) Hsorted Heven) as [Hbal|Hnil].
  - intros z Hz. apply in_map_iff in Hz. destruct Hz as (p & <- & Hp).
    apply Hb. apply Hin. exact Hp.
  - unfold total_elo. rewrite !stride_from_map in Hbal. exact Hbal.
  - apply (f_equal (@length R)) in Hnil.
    rewrite length_map, (Permutation_length Hpperm), Hslen in Hnil.
    discriminate.
Qed.

End TwoTeams.

(** Four waiting players rated 1000, 1100, 1200 and 1300, and a game of
    two teams of two. *)
Lemma two_teams_are_balanced_witness :
  exists buffer team1 team2,
    find_players quartet_store ladder_world 2 2
    = Ok (Some [team1; team2]) /\
    StronglySorted
      (fun a b => elo (player_of ladder_world a)
                  <= elo (player_of ladder_world b))%R buffer /\
    length buffer = 2 * Z.to_nat 2 /\
    (forall i, nth_error team1 i = nth_error buffer (2 * i)) /\
    (forall i, nth_error team2 i = nth_error buffer (2 * i + 1)) /\
    forall lo hi,
      (forall p, In p (team1 ++ team2) ->
                 lo <= elo (player_of ladder_world p) <= hi)%R ->
      (0 <= total_elo ladder_world team2 - total_elo ladder_world team1
       <= hi - lo)%R.
Proof.
  apply (two_teams_are_balanced quartet_store ladder_world 2).
  - apply PlayerStore_init_wf.
  - lia.
  - simpl. lia.
Defined.

(** ** [run]: no limit, and exceptions *)

Section RunEdges.

Variable event_loop :
  nat -> list (Game * Task) -> World -> list (Game * Task) * World.

Lemma run_loop_unlimited (fuel : nat) :
  forall ticks rf srv w,
    truthy (max_round srv) = false ->
    stop_of (run_loop event_loop fuel ticks rf srv w) = None.
Proof.
  induction fuel as [|fuel IH]; intros ticks rf srv w Hm; [reflexivity|].
  cbn [run_loop].
  destruct (tick event_loop ticks srv w) as [[[srv1 w1] f1]|e] eqn:Et;
    [|reflexivity].
  rewrite (tick_max_round _ _ _ _ _ _ _ Et), Hm.
  apply IH. rewrite (tick_max_round _ _ _ _ _ _ _ Et). exact Hm.
Qed.

(** X18: without a limit ([max_round] is [None] or 0) [run] never leaves
    its loop normally, however many iterations it is given and however
    many games complete. *)
Theorem run_without_max_round_never_stops
    (srv : MatchMakerServer) (w : World) (fuel : nat) :
  truthy (max_round srv) = false ->
  stop_of (run event_loop fuel srv w) = None.
Proof.
  intros Hm. unfold run. apply run_loop_unlimited. exact Hm.
Qed.

Variable srv : MatchMakerServer.
Variable w : World.



End RunEdges.


Lemma run_without_max_round_never_stops_witness :
  stop_of (run finish_all 3
             (MatchMakerServer_init [0] one_by_one_settings None false 10 2)
             lobby_world) = None.
Proof.
  apply (run_without_max_round_never_stops finish_all
           (MatchMakerServer_init [0] one_by_one_settings None false 10 2)
           lobby_world 3).
  reflexivity.
Defined.

(** ** [handle_games] *)

Section HandleGames.

Lemma PlayerStore_set_keeps (status : PlayerStatus) (players : list pref) :
  forall st w,
    team_of (snd (PlayerStore_set st players status w)) = team_of w /\
    team_count (snd (PlayerStore_set st players status w)) = team_count w /\
    rng (snd (PlayerStore_set st players status w)) = rng w /\
    forall q,
      elo (player_of (snd (PlayerStore_set st players status w)) q)
        = elo (player_of w q) /\
      win (player_of (snd (PlayerStore_set st players status w)) q)
        = win (player_of w q) /\
      lose (player_of (snd (PlayerStore_set st players status w)) q)
        = lose (player_of w q) /\
      true_rating (player_of (snd (PlayerStore_set st players status w)) q)
        = true_rating (player_of w q).
Proof.
  induction players as [|x players IH]; intros st w.
  - simpl. repeat split.
  - rewrite PlayerStore_set_cons.
    destruct (IH (fst (set_one status (st, w) x))
                 (snd (set_one status (st, w) x))) as (H1 & H2 & H3 & H4).
    rewrite H1, H2, H3.
    split; [reflexivity|]. split; [reflexivity|]. split; [reflexivity|].
    intros q. destruct (H4 q) as (E1 & E2 & E3 & E4).
    rewrite E1, E2, E3, E4. unfold set_one. simpl. unfold upd.
    destruct (Nat.eqb_spec q x) as [->|Hne]; rewrite ?Nat.eqb_refl;
      repeat split; reflexivity.
Qed.

Lemma Game_players_rosters (w1 w2 : World) (g : Game)
    (ignore_team : option tref) :
  team_of w1 = team_of w2 ->
  Game_players w1 g ignore_team = Game_players w2 g ignore_team.
Proof. intros H. unfold Game_players. rewrite H. reflexivity. Qed.

Lemma update_elo_rosters (g : Game) (k : R) (w w' : World) :
  update_elo g k w = Ok w' -> team_of w' = team_of w.
Proof.
  unfold update_elo.
  destruct (collect_deltas w g k) as [[h delta]|e]; cbn [bind];
    [|discriminate].
  destruct (foldM (apply_delta (game_nudge g)) delta (h, rng w))
    as [[h' g']|e]; cbn [bind]; [|discriminate].
  intros H. inversion H; subst. reflexivity.
Qed.

Variable k : R.

Lemma handle_games_fold (games : list (Game * Task)) :
  forall st w n st' w' n',
    foldM (handle_game k) games (st, w, n) = Ok (st', w', n') ->
    n' = n + done_count games /\
    team_of w' = team_of w /\
    (forall p, dict_get (statuses st) p = Some WAITING ->
               dict_get (statuses st') p = Some WAITING) /\
    (forall game result p,
       In (game, Done result) games ->
       In p (map snd (Game_players w game None)) ->
       dict_get (statuses st') p = Some WAITING).
Proof.
  induction games as [|[game task] games IH]; intros st w n st' w' n' H;
    cbn [foldM] in H.
  - inversion H; subst. unfold done_count. simpl.
    repeat split; auto. intros game result p [].
  - destruct task as [|result].
    + cbn [handle_game bind] in H.
      destruct (IH _ _ _ _ _ _ H) as (H1 & H2 & H3 & H4).
      unfold done_count in *. simpl. repeat split; auto.
      intros g' r p [Heq|Hin]; [discriminate|]. apply (H4 g' r p Hin).
    + cbn [handle_game] in H.
      destruct result as [[]|e]; cbn [bind] in H; [|discriminate].
      destruct (update_elo game k w) as [w1|e] eqn:Eu; cbn [bind] in H;
        [|discriminate].
      pose proof (update_elo_rosters _ _ _ _ Eu) as Hr1.
      set (ps := map snd (Game_players w1 game None)) in *.
      destruct (PlayerStore_set st ps WAITING w1) as [st1 w2] eqn:Es.
      cbn [bind] in H.
      pose proof (PlayerStore_set_keeps WAITING ps st w1) as (Hr2 & _).
      rewrite Es in Hr2. simpl in Hr2.
      destruct (IH _ _ _ _ _ _ H) as (H1 & H2 & H3 & H4).
      assert (Hkeep : forall p, dict_get (statuses st) p = Some WAITING ->
                                dict_get (statuses st1) p = Some WAITING).
      { intros p Hp. destruct (in_dec Nat.eq_dec p ps) as [Hin|Hout].
        - pose proof (PlayerStore_set_status WAITING ps st w1 p Hin) as Hs.
          rewrite Es in Hs. exact Hs.
        - destruct (PlayerStore_set_frame WAITING ps st w1 p Hout) as [Hs _].
          rewrite Es in Hs. simpl in Hs. rewrite Hs. exact Hp. }
      split; [|split; [|split]].
      * rewrite H1. unfold done_count. simpl. lia.
      * rewrite H2, Hr2, Hr1. reflexivity.
      * intros p Hp. apply H3, Hkeep, Hp.
      * intros g' r p [Heq|Hin] Hp.
        -- inversion Heq; subst. apply H3.
           pose proof (PlayerStore_set_status WAITING ps st w1 p) as Hs.
           rewrite Es in Hs. apply Hs. unfold ps.
           rewrite (Game_players_rosters w1 w g' None Hr1). exact Hp.
        -- apply (H4 g' r p Hin).
           rewrite (Game_players_rosters w2 w g' None); [exact Hp|].
           rewrite Hr2, Hr1. reflexivity.
Qed.

Lemma handle_games_fold_pending (games : list (Game * Task)) :
  (forall entry, In entry games -> is_pending entry = true) ->
  forall acc, foldM (handle_game k) games acc = Ok acc /\
              filter is_pending games = games.
Proof.
  induction games as [|[game task] games IH]; intros Hall acc.
  - split; reflexivity.
  - pose proof (Hall _ (or_introl eq_refl)) as Hp.
    destruct task; [|discriminate].
    destruct (IH (fun e He => Hall e (or_intror He)) acc) as [IH1 IH2].
    destruct acc as [[st w] n]. cbn [foldM handle_game bind].
    split; [exact IH1|]. simpl. rewrite IH2. reflexivity.
Qed.

Lemma handle_games_fold_failed (pre post : list (Game * Task)) (game : Game)
    (e : exn) :
  (forall entry, In entry pre -> is_pending entry = true) ->
  forall acc,
    foldM (handle_game k) (pre ++ (game, Done (Raise e)) :: post) acc
    = Raise e.
Proof.
  intros Hpre acc. rewrite foldM_app.
  destruct (handle_games_fold_pending pre Hpre acc) as [-> _].
  destruct acc as [[st w] n]. reflexivity.
Qed.

Lemma handle_games_fold_raises (games : list (Game * Task)) (game : Game)
    (e : exn) :
  In (game, Done (Raise e)) games ->
  forall acc, exists e', foldM (handle_game k) games acc = Raise e'.
Proof.
  induction games as [|entry games IH]; intros Hin acc; [contradiction|].
  cbn [foldM].
  destruct (handle_game k acc entry) as [acc1|e1] eqn:E; cbn [bind];
    [|eauto].
  destruct Hin as [->|Hin]; [|apply IH; exact Hin].
  destruct acc as [[st w] n]. discriminate.
Qed.

End HandleGames.

(** X20: with no finished task [handle_games] changes nothing and
    reports no completed game. *)
Theorem handle_games_all_pending (srv : MatchMakerServer) (w : World) :
  (forall entry, In entry (active_games srv) -> is_pending entry = true) ->
  handle_games srv w = Ok (srv, w, 0%Z).
Proof.
  intros Hall. unfold handle_games.
  destruct (handle_games_fold_pending (k_factor srv) (active_games srv) Hall
              (srv_players srv, w, 0)) as [Hf Hfilter].
  rewrite Hf. cbn [bind Nat.ltb Nat.leb]. rewrite Hfilter.
  destruct srv; reflexivity.
Qed.

(** X21: the failure of a game's task is never swallowed: if some active
    game's task has failed, [handle_games] raises; when every game before
    it in the dict is still running, it raises that very exception. *)
Theorem handle_games_reraises_a_failed_task (srv : MatchMakerServer)
    (w : World) (game : Game) (e : exn) :
  (In (game, Done (Raise e)) (active_games srv) ->
   exists e', handle_games srv w = Raise e') /\
  (forall pre post,
     active_games srv = pre ++ (game, Done (Raise e)) :: post ->
     (forall entry, In entry pre -> is_pending entry = true) ->
     handle_games srv w = Raise e).
Proof.
  split.
  - intros Hin. unfold handle_games.
    destruct (handle_games_fold_raises (k_factor srv) _ _ _ Hin
                (srv_players srv, w, 0)) as [e' He'].
    rewrite He'. cbn [bind]. eauto.
  - intros pre post Heq Hpre. unfold handle_games.
    rewrite Heq, (handle_games_fold_failed (k_factor srv) pre post game e Hpre).
    reflexivity.
Qed.

Lemma handle_games_reraises_a_failed_task_witness :
  handle_games failed_server duel_world = Raise ZeroDivisionError.
Proof.
  apply (proj2 (handle_games_reraises_a_failed_task failed_server duel_world
                  duel_game ZeroDivisionError) [] []).
  - reflexivity.
  - intros entry [].
Defined.

(** X22: when [handle_games] returns, it has counted the games whose task
    was done, exactly those games are gone from the active games, every
    player of such a game is WAITING, and no roster has changed. *)
Theorem handle_games_releases_finished_games (srv srv' : MatchMakerServer)
    (w w' : World) (finished : Z) :
  handle_games srv w = Ok (srv', w', finished) ->
  finished = Z.of_nat (done_count (active_games srv)) /\
  active_games srv' = filter is_pending (active_games srv) /\
  Z.of_nat (length (active_games srv))
  = (finished + Z.of_nat (length (active_games srv')))%Z /\
  team_of w' = team_of w /\
  (forall game result p,
     In (game, Done result) (active_games srv) ->
     In p (map snd (Game_players w game None)) ->
     dict_get (statuses (srv_players srv')) p = Some WAITING).
Proof.
  unfold handle_games.
  destruct (foldM (handle_game (k_factor srv)) (active_games srv)
                  (srv_players srv, w, 0)) as [[[st w1] n]|e] eqn:Ef;
    cbn [bind]; [|discriminate].
  destruct (if (0 <? n)%nat then update_data (plot srv) st w1
            else Ok (plot srv)) as [pl|e]; cbn [bind]; [|discriminate].
  intros H. inversion H; subst. clear H. simpl.
  destruct (handle_games_fold _ _ _ _ _ _ _ _ Ef) as (H1 & H2 & _ & H4).
  simpl in H1. subst n.
  split; [reflexivity|]. split; [reflexivity|].
  split; [|split; [exact H2|exact H4]].
  assert (Hsplit : forall games : list (Game * Task),
            length games
            = done_count games + length (filter is_pending games)).
  { unfold done_count.
    induction games as [|entry games IH]; simpl; [reflexivity|].
    destruct (is_pending entry); simpl; lia. }
  rewrite (Hsplit (active_games srv)) at 1. lia.
Qed.

Lemma handle_games_all_pending_witness :
  handle_games (fst solo_started) (snd solo_started)
  = Ok (fst solo_started, snd solo_started, 0%Z).
Proof.
  apply (handle_games_all_pending (fst solo_started) (snd solo_started)).
  intros entry Hin. vm_compute in Hin.
  destruct Hin as [<-|[]]. reflexivity.
Defined.

Lemma handle_games_releases_finished_games_witness :
  exists srv' w' finished,
    handle_games (fst solo_finished) (snd solo_finished)
      = Ok (srv', w', finished) /\
    finished = Z.of_nat (done_count (active_games (fst solo_finished))) /\
    active_games srv' = filter is_pending (active_games (fst solo_finished)) /\
    Z.of_nat (length (active_games (fst solo_finished)))
    = (finished + Z.of_nat (length (active_games srv')))%Z /\
    team_of w' = team_of (snd solo_finished) /\
    (forall game result p,
       In (game, Done result) (active_games (fst solo_finished)) ->
       In p (map snd (Game_players (snd solo_finished) game None)) ->
       dict_get (statuses (srv_players srv')) p = Some WAITING).
Proof.
  destruct (handle_games (fst solo_finished) (snd solo_finished))
    as [[[srv' w'] finished]|e] eqn:E.
  - exists srv', w', finished. split; [reflexivity|].
    exact (handle_games_releases_finished_games
             (fst solo_finished) srv' (snd solo_finished) w' finished E).
  - exfalso. vm_compute in E. discriminate.
Defined.

Example solo_finished_has_a_done_game :
  done_count (active_games (fst solo_finished)) = 1.
Proof. vm_compute. reflexivity. Qed.

(** ** [try_create_game] when a game can be formed *)

Section CreateGame.

Lemma find_players_teams (st : PlayerStore) (w : World)
    (num_per_teams num_teams : Z) :
  store_wf st -> (0 < num_per_teams)%Z -> (0 < num_teams)%Z ->
  (num_per_teams * num_teams
   <= Z.of_nat (length (PlayerStore_get st WAITING)))%Z ->
  exists teams,
    find_players st w num_per_teams num_teams = Ok (Some teams) /\
    length teams = Z.to_nat num_teams /\
    NoDup (concat teams).
Proof.
  intros Hwf Hs Ht Hlen.
  destruct (find_players_pool st w num_per_teams num_teams Hwf Hs Ht Hlen)
    as (first_player & rest & Hsort & Hn & Hnd & Hfind).
  set (n := Z.to_nat (num_per_teams * num_teams - 1)) in *.
  destruct (selection_facts w first_player rest n Hnd Hn)
    as (Hsnd & Hslen & _).
  assert (Hpperm : Permutation (pool w first_player rest n)
                               (selection w first_player rest n))
    by apply sort_by_perm.
  assert (Hpnd : NoDup (pool w first_player rest n))
    by (apply (Permutation_NoDup (Permutation_sym Hpperm)); exact Hsnd).
  assert (Hplen : length (pool w first_player rest n)
                  = Z.to_nat num_per_teams * Z.to_nat num_teams).
  { rewrite (Permutation_length Hpperm), Hslen. unfold n.
    rewrite <- Z2Nat.inj_mul by lia. lia. }
  destruct (take_teams num_teams (Z.to_nat num_per_teams)
              (Z.to_nat num_teams) 0 [] _ ltac:(lia) Hpnd Hplen)
    as (teams & Hfold & Hcount & _ & Hp).
  unfold range in Hfind. rewrite Hfold in Hfind. cbn [bind app] in Hfind.
  exists teams. split; [exact Hfind|]. split; [exact Hcount|].
  apply (Permutation_NoDup (Permutation_sym Hp)). exact Hpnd.
Qed.

Lemma new_teams (teams : list (list pref)) :
  forall acc w,
    fst (fold_left new_team teams (acc, w))
      = acc ++ seq (team_count w) (length teams) /\
    team_count (snd (fold_left new_team teams (acc, w)))
      = team_count w + length teams /\
    player_of (snd (fold_left new_team teams (acc, w))) = player_of w /\
    rng (snd (fold_left new_team teams (acc, w))) = rng w /\
    clock (snd (fold_left new_team teams (acc, w))) = clock w /\
    (forall t, t < team_count w ->
       team_of (snd (fold_left new_team teams (acc, w))) t = team_of w t) /\
    (forall i roster, nth_error teams i = Some roster ->
       team_of (snd (fold_left new_team teams (acc, w))) (team_count w + i)
       = Team_init roster).
Proof.
  induction teams as [|roster teams IH]; intros acc w.
  - simpl. rewrite app_nil_r, Nat.add_0_r.
    repeat split; try reflexivity. intros i r Hi. destruct i; discriminate.
  - cbn [fold_left new_team].
    set (w1 := with_teams w (upd (team_of w) (team_count w)
                                 (Team_init roster))
                          (S (team_count w))).
    destruct (IH (acc ++ [team_count w]) w1) as (H1 & H2 & H3 & H4 & H5 & H6 & H7).
    rewrite H1, H2, H3, H4, H5. simpl team_count. simpl length.
    split; [rewrite <- app_assoc; reflexivity|].
    split; [lia|]. split; [reflexivity|]. split; [reflexivity|].
    split; [reflexivity|]. split.
    + intros t Ht. rewrite H6 by (simpl; lia). simpl.
      apply upd_other. lia.
    + intros i r Hi. destruct i as [|i]; simpl in Hi.
      * inversion Hi; subst. rewrite Nat.add_0_r.
        rewrite H6 by (simpl; lia). simpl. apply upd_same.
      * replace (team_count w + S i) with (team_count w1 + i)
          by (simpl; lia).
        apply H7. exact Hi.
Qed.

Lemma Game_init_fields (teams : list tref) (nudge : option Z) (boost : R)
    (g : Rng) :
  game_teams (fst (Game_init teams nudge boost g)) = teams /\
  game_nudge (fst (Game_init teams nudge boost g)) = nudge /\
  god_boost (fst (Game_init teams nudge boost g)) = boost.
Proof.
  unfold Game_init. destruct (random_tag 5 g). simpl. auto.
Qed.

Lemma Game_players_all (w : World) (g : Game) :
  map snd (Game_players w g None)
  = concat (map (fun t => team_players (team_of w t)) (game_teams g)).
Proof.
  unfold Game_players. simpl.
  induction (game_teams g) as [|t ts IH]; simpl; [reflexivity|].
  rewrite map_app, IH, map_map. simpl. rewrite map_id. reflexivity.
Qed.

Lemma NoDup_concat_each {A : Type} (ls : list (list A)) :
  NoDup (concat ls) -> forall l, In l ls -> NoDup l.
Proof.
  induction ls as [|x ls IH]; simpl; intros Hnd l Hin; [contradiction|].
  destruct Hin as [<-|Hin].
  - apply NoDup_app_remove_r in Hnd. exact Hnd.
  - apply IH; [|exact Hin]. apply NoDup_app_remove_l in Hnd. exact Hnd.
Qed.

Lemma rosters_of_new_teams (teams : list (list pref)) (h : tref -> Team)
    (base : nat) :
  NoDup (concat teams) ->
  (forall i roster, nth_error teams i = Some roster ->
     h (base + i) = Team_init roster) ->
  map h (seq base (length teams)) = map Team_init teams /\
  concat (map (fun t => team_players (h t)) (seq base (length teams)))
  = concat teams.
Proof.
  revert base. induction teams as [|roster teams IH]; intros base Hnd Hh.
  - split; reflexivity.
  - simpl.
    pose proof (Hh 0 roster eq_refl) as H0. rewrite Nat.add_0_r in H0.
    destruct (IH (S base)) as [IH1 IH2].
    + simpl in Hnd. apply NoDup_app_remove_l in Hnd. exact Hnd.
    + intros i r Hi. replace (S base + i) with (base + S i) by lia.
      apply Hh. exact Hi.
    + rewrite H0, IH1, IH2. split; [reflexivity|].
      simpl. rewrite nodup_fixed_point; [reflexivity|].
      simpl in Hnd. apply NoDup_app_remove_r in Hnd. exact Hnd.
Qed.

Lemma update_latency_spec (pl : LivePlot) (players : list pref) (w : World) :
  length (latency_buffer (fst (update_latency pl players w)))
    = length (latency_buffer pl) + length players /\
  team_of (snd (update_latency pl players w)) = team_of w /\
  player_of (snd (update_latency pl players w)) = player_of w.
Proof.
  unfold update_latency, perf_counter. simpl.
  rewrite length_app, length_map. auto.
Qed.

Variable srv : MatchMakerServer.
Variable w : World.

(** X23: when a game can be formed, [try_create_game] adds one pending
    game on new, unscored teams with the rosters found by [find_players];
    the players of these rosters, and only they, become IN_GAME; no
    rating, counter or latent skill changes; the teams that existed are
    untouched; and one latency sample per booked player is recorded. *)
Theorem try_create_game_books_the_players :
  store_wf (srv_players srv) ->
  (0 < team_size srv)%Z -> (0 < team_number srv)%Z ->
  (team_size srv * team_number srv
   <= Z.of_nat (length (PlayerStore_get (srv_players srv) WAITING)))%Z ->
  exists teams srv' w' game,
    find_players (srv_players srv) w (team_size srv) (team_number srv)
      = Ok (Some teams) /\
    try_create_game srv w = Ok (srv', w') /\
    active_games srv' = active_games srv ++ [(game, Pending)] /\
    game_teams game = seq (team_count w) (length teams) /\
    map (team_of w') (game_teams game) = map Team_init teams /\
    (forall p, In p (concat teams) ->
       dict_get (statuses (srv_players srv')) p = Some IN_GAME) /\
    (forall p, ~ In p (concat teams) ->
       dict_get (statuses (srv_players srv')) p
         = dict_get (statuses (srv_players srv)) p /\
       player_of w' p = player_of w p) /\
    (forall p,
       elo (player_of w' p) = elo (player_of w p) /\
       win (player_of w' p) = win (player_of w p) /\
       lose (player_of w' p) = lose (player_of w p) /\
       true_rating (player_of w' p) = true_rating (player_of w p)) /\
    (forall t, t < team_count w -> team_of w' t = team_of w t) /\
    length (latency_buffer (plot srv'))
    = length (latency_buffer (plot srv)) + length (concat teams).
Proof.
  intros Hwf Hs Ht Hlen.
  destruct (find_players_teams (srv_players srv) w (team_size srv)
              (team_number srv) Hwf Hs Ht Hlen)
    as (teams & Hfind & Hcount & Hnd).
  unfold try_create_game. rewrite Hfind. cbn [bind].
  destruct (new_teams teams [] w) as (N1 & N2 & N3 & N4 & N5 & N6 & N7).
  destruct (fold_left new_team teams ([], w)) as [trefs w1].
  simpl in N1, N2, N3, N4, N5, N6, N7. subst trefs.
  destruct (Game_init_fields (seq (team_count w) (length teams))
              (srv_nudge srv) (srv_god_boost srv) (rng w1))
    as (G1 & G2 & G3).
  destruct (Game_init (seq (team_count w) (length teams)) (srv_nudge srv)
                      (srv_god_boost srv) (rng w1)) as [game g1].
  simpl in G1, G2, G3.
  set (w2 := with_rng w1 g1).
  destruct (rosters_of_new_teams teams (team_of w1) (team_count w) Hnd N7)
    as [R1 R2].
  assert (Hps : forall w0, team_of w0 = team_of w1 ->
                  map snd (Game_players w0 game None) = concat teams).
  { intros w0 Hw0. rewrite Game_players_all, G1, Hw0. exact R2. }
  pose proof (update_latency_spec (plot srv)
                (map snd (Game_players w2 game None)) w2)
    as (U1 & U2 & U3).
  destruct (update_latency (plot srv) (map snd (Game_players w2 game None))
                           w2) as [pl w3].
  simpl in U1, U2, U3.
  rewrite (Hps w2 eq_refl) in U1.
  rewrite (Hps w3 U2).
  pose proof (PlayerStore_set_status IN_GAME (concat teams)
                (srv_players srv) w3) as Hstatus.
  pose proof (PlayerStore_set_frame IN_GAME (concat teams)
                (srv_players srv) w3) as Hframe.
  pose proof (PlayerStore_set_keeps IN_GAME (concat teams)
                (srv_players srv) w3) as (K1 & K2 & K3 & K4).
  destruct (PlayerStore_set (srv_players srv) (concat teams) IN_GAME w3)
    as [store w4].
  simpl in Hstatus, Hframe, K1, K2, K3, K4.
  exists teams. eexists. exists w4, game.
  split; [reflexivity|]. split; [reflexivity|].
  split; [reflexivity|]. split; [exact G1|].
  split; [rewrite G1, K1, U2; exact R1|].
  split; [exact Hstatus|].
  split.
  { intros p Hp. destruct (Hframe p Hp) as [F1 F2].
    split; [exact F1|]. rewrite F2, U3. simpl. rewrite N3. reflexivity. }
  split.
  { intros p. destruct (K4 p) as (E1 & E2 & E3 & E4).
    rewrite E1, E2, E3, E4, U3. simpl. rewrite N3. repeat split. }
  split.
  { intros t Hlt. rewrite K1, U2. simpl. apply N6. exact Hlt. }
  simpl. exact U1.
Qed.

End CreateGame.

Lemma try_create_game_books_the_players_witness :
  exists teams srv' w' game,
    find_players (srv_players solo_server) lobby_world
                 (team_size solo_server) (team_number solo_server)
      = Ok (Some teams) /\
    try_create_game solo_server lobby_world = Ok (srv', w') /\
    active_games srv' = active_games solo_server ++ [(game, Pending)] /\
    game_teams game = seq (team_count lobby_world) (length teams) /\
    map (team_of w') (game_teams game) = map Team_init teams /\
    (forall p, In p (concat teams) ->
       dict_get (statuses (srv_players srv')) p = Some IN_GAME) /\
    (forall p, ~ In p (concat teams) ->
       dict_get (statuses (srv_players srv')) p
         = dict_get (statuses (srv_players solo_server)) p /\
       player_of w' p = player_of lobby_world p) /\
    (forall p,
       elo (player_of w' p) = elo (player_of lobby_world p) /\
       win (player_of w' p) = win (player_of lobby_world p) /\
       lose (player_of w' p) = lose (player_of lobby_world p) /\
       true_rating (player_of w' p) = true_rating (player_of lobby_world p)) /\
    (forall t, t < team_count lobby_world ->
       team_of w' t = team_of lobby_world t) /\
    length (latency_buffer (plot srv'))
    = length (latency_buffer (plot solo_server)) + length (concat teams).
Proof.
  apply (try_create_game_books_the_players solo_server lobby_world).
  - apply PlayerStore_init_wf.
  - reflexivity.
  - reflexivity.
  - simpl. lia.
Defined.

(** ** [LivePlot.update_data] *)

Section UpdateData.

Lemma plot_append_known (d : list (pref * list R)) (p : pref) (x : R) :
  In p (map fst d) ->
  exists d', plot_append d p x = Ok d' /\ map fst d' = map fst d.
Proof.
  induction d as [|[q l] d IH]; simpl; intros Hin; [contradiction|].
  destruct (Nat.eqb_spec q p) as [->|Hne]; [eauto|].
  destruct IH as (d' & Hd' & Hk); [destruct Hin; [congruence|assumption]|].
  rewrite Hd'. simpl. exists ((q, l) :: d'). simpl. rewrite Hk. auto.
Qed.

Lemma plot_append_unknown (d : list (pref * list R)) (p : pref) (x : R) :
  ~ In p (map fst d) -> plot_append d p x = Raise KeyError.
Proof.
  induction d as [|[q l] d IH]; simpl; intros Hout; [reflexivity|].
  destruct (Nat.eqb_spec q p) as [->|Hne]; [tauto|].
  rewrite IH by tauto. reflexivity.
Qed.

Variable w : World.

Lemma plot_appends (players : list pref) :
  forall d,
    (incl players (map fst d) ->
     exists d',
       foldM (fun d player => plot_append d player (elo (player_of w player)))
             players d = Ok d' /\
       map fst d' = map fst d) /\
    ((exists p, In p players /\ ~ In p (map fst d)) ->
     foldM (fun d player => plot_append d player (elo (player_of w player)))
           players d = Raise KeyError).
Proof.
  induction players as [|p players IH]; intros d.
  - split; [intros _; exists d; split; reflexivity|].
    intros (p & Hin & _). destruct Hin.
  - cbn [foldM]. destruct (in_dec Nat.eq_dec p (map fst d)) as [Hin|Hout].
    + destruct (plot_append_known d p (elo (player_of w p)) Hin)
        as (d1 & Hd1 & Hk1).
      rewrite Hd1. cbn [bind]. destruct (IH d1) as [IH1 IH2]. split.
      * intros Hincl. destruct IH1 as (d' & Hd' & Hk').
        { rewrite Hk1. intros q Hq. apply Hincl. right. exact Hq. }
        exists d'. split; [exact Hd'|congruence].
      * intros (q & [<-|Hq] & Hout); [contradiction|].
        apply IH2. exists q. rewrite Hk1. auto.
    + rewrite (plot_append_unknown d p _ Hout). split.
      * intros Hincl. exfalso. apply Hout, Hincl. left. reflexivity.
      * reflexivity.
Qed.

(** X24: [update_data] needs a series for every stored player and at
    least one latency sample: a stored player without a series is a
    [KeyError]; with the series there and an empty latency buffer the
    average divides by zero; otherwise one cycle is recorded, the buffer
    moves to the raw samples and is emptied. *)
Theorem update_data_needs_series_and_samples (pl : LivePlot)
    (st : PlayerStore) :
  ((exists p, In p (PlayerStore_get_all st)
              /\ ~ In p (map fst (elo_plot_data pl))) ->
   update_data pl st w = Raise KeyError) /\
  (incl (PlayerStore_get_all st) (map fst (elo_plot_data pl)) ->
   latency_buffer pl = [] ->
   update_data pl st w = Raise ZeroDivisionError) /\
  (incl (PlayerStore_get_all st) (map fst (elo_plot_data pl)) ->
   latency_buffer pl <> [] ->
   exists pl',
     update_data pl st w = Ok pl' /\
     cycle pl' = cycle pl + 1 /\
     latency_buffer pl' = [] /\
     latency_raw pl' = latency_raw pl ++ latency_buffer pl /\
     length (latency_avg pl') = S (length (latency_avg pl)) /\
     length (latency_max pl') = S (length (latency_max pl)) /\
     map fst (elo_plot_data pl') = map fst (elo_plot_data pl)).
Proof.
  destruct (plot_appends (PlayerStore_get_all st) (elo_plot_data pl))
    as [Hok Hbad].
  unfold update_data. split; [|split].
  - intros H. rewrite (Hbad H). reflexivity.
  - intros Hincl Hempty. destruct (Hok Hincl) as (d' & -> & _).
    cbn [bind]. rewrite Hempty. reflexivity.
  - intros Hincl Hne. destruct (Hok Hincl) as (d' & -> & Hk).
    cbn [bind]. rewrite (truediv_nonempty _ _ Hne). cbn [bind].
    destruct (latency_buffer pl) as [|x rest] eqn:Eb; [congruence|].
    cbn [Rmax_list bind]. eexists. split; [reflexivity|]. simpl.
    rewrite !length_app. simpl.
    repeat split; try lia. exact Hk.
Qed.

End UpdateData.

Lemma update_data_needs_series_and_samples_witness :
  update_data (LivePlot_init pair_store false 10) pair_store lobby_world
  = Raise ZeroDivisionError.
Proof.
  apply (proj1 (proj2 (update_data_needs_series_and_samples lobby_world
                         (LivePlot_init pair_store false 10) pair_store))).
  - intros x Hx. exact Hx.
  - reflexivity.
Defined.

(** ** A god's latent skill *)

(** X25: a god is always nudged upwards and never draws a random number:
    from a non-negative [true_rating] and with non-negative magnitudes,
    its [true_rating] grows by exactly the sum of the magnitudes. *)
Theorem god_nudges_add_up (p : Player) (nudges : list Z) (g : Rng) :
  god p = true ->
  (0 <= true_rating p)%Z ->
  Forall (fun n => 0 <= n)%Z nudges ->
  true_rating (fst (nudge_many p nudges g))
    = (true_rating p + fold_right Z.add 0 nudges)%Z /\
  snd (nudge_many p nudges g) = g.
Proof.
  intros Hgod Htr Hall. revert p Hgod Htr.
  induction Hall as [|n nudges Hn Hall IH]; intros p Hgod Htr; simpl.
  - split; [lia|reflexivity].
  - unfold Player_nudge. rewrite Hgod.
    destruct (IH (set_true_rating p (Z.max 0 (true_rating p + n))))
      as [IH1 IH2]; [exact Hgod|simpl; lia|].
    rewrite IH1, IH2. simpl. split; [lia|reflexivity].
Qed.

Lemma god_nudges_add_up_witness :
  true_rating
    (fst (nudge_many
            {| elo := 1000; name := 0; last_played := 0; last_played_ns := 0;
               god := true; true_rating := 200; win := 0; lose := 0 |}
            [5; 5; 5]%Z idle_rng))
    = (200 + fold_right Z.add 0 [5; 5; 5])%Z /\
  snd (nudge_many
         {| elo := 1000; name := 0; last_played := 0; last_played_ns := 0;
            god := true; true_rating := 200; win := 0; lose := 0 |}
         [5; 5; 5]%Z idle_rng) = idle_rng.
Proof.
  apply (god_nudges_add_up
           {| elo := 1000; name := 0; last_played := 0; last_played_ns := 0;
              god := true; true_rating := 200; win := 0; lose := 0 |}
           [5; 5; 5]%Z idle_rng).
  - reflexivity.
  - simpl. lia.
  - repeat constructor; lia.
Defined.

(** ** Sums of reals over lists *)

Section Sums.

Open Scope R_scope.

Context {A : Type}.

Lemma sumR_nil (f : A -> R) : sumR f [] = 0.
Proof. reflexivity. Qed.

Lemma sumR_cons (f : A -> R) (x : A) (l : list A) :
  sumR f (x :: l) = f x + sumR f l.
Proof. unfold sumR. simpl map. apply Rsum_cons. Qed.

Lemma sumR_app (f : A -> R) (l1 l2 : list A) :
  sumR f (l1 ++ l2) = sumR f l1 + sumR f l2.
Proof.
  induction l1 as [|x l1 IH]; simpl.
  - rewrite sumR_nil. ring.
  - rewrite !sumR_cons, IH. ring.
Qed.

Lemma sumR_ext (f f' : A -> R) (l : list A) :
  (forall x, In x l -> f x = f' x) -> sumR f l = sumR f' l.
Proof.
  induction l as [|x l IH]; intros H; [reflexivity|].
  rewrite !sumR_cons, (H x (or_introl eq_refl)), IH; [reflexivity|].
  intros y Hy. apply H. right. exact Hy.
Qed.

Lemma sumR_zero (l : list A) : sumR (fun _ => 0) l = 0.
Proof.
  induction l as [|x l IH]; [reflexivity|]. rewrite sumR_cons, IH. ring.
Qed.

Lemma sumR_plus (f f' : A -> R) (l : list A) :
  sumR (fun x => f x + f' x) l = sumR f l + sumR f' l.
Proof.
  induction l as [|x l IH]; [rewrite !sumR_nil; ring|].
  rewrite !sumR_cons, IH. ring.
Qed.

Lemma sumR_scale (f : A -> R) (c : R) (l : list A) :
  sumR (fun x => f x * c) l = sumR f l * c.
Proof.
  induction l as [|x l IH]; [rewrite !sumR_nil; ring|].
  rewrite !sumR_cons, IH. ring.
Qed.

Lemma sumR_exchange {B : Type} (F : A -> B -> R) (l1 : list A)
    (l2 : list B) :
  sumR (fun x => Rsum (map (fun y => F x y) l2)) l1
  = Rsum (map (fun y => sumR (fun x => F x y) l1) l2).
Proof.
  induction l1 as [|x l1 IH].
  - rewrite sumR_nil.
    induction l2 as [|y l2 IH2]; [reflexivity|].
    simpl map. rewrite Rsum_cons, <- IH2, sumR_nil. ring.
  - rewrite sumR_cons, IH. clear IH.
    induction l2 as [|y l2 IH2]; [unfold Rsum; simpl; ring|].
    simpl map. rewrite !Rsum_cons, sumR_cons, <- IH2. ring.
Qed.

End Sums.

Lemma sumR_flat_map {A B : Type} (f : B -> R) (F : A -> list B)
    (l : list A) :
  sumR f (flat_map F l) = sumR (fun x => sumR f (F x)) l.
Proof.
  induction l as [|x l IH]; [reflexivity|].
  simpl flat_map. rewrite sumR_app, sumR_cons, IH. reflexivity.
Qed.

Lemma sumR_map {A B : Type} (f : B -> R) (m : A -> B) (l : list A) :
  sumR f (map m l) = sumR (fun x => f (m x)) l.
Proof. unfold sumR. rewrite map_map. reflexivity. Qed.

Lemma sumR_indicator (P : list pref) (x : pref) (v : R) :
  NoDup P -> In x P ->
  sumR (fun q => if Nat.eqb x q then v else 0%R) P = v.
Proof.
  induction 1 as [|y P Hnotin Hnd IH]; intros Hin; [contradiction|].
  rewrite sumR_cons. destruct Hin as [->|Hin].
  - rewrite Nat.eqb_refl.
    rewrite (sumR_ext _ (fun _ => 0%R)), sumR_zero; [ring|].
    intros q Hq. destruct (Nat.eqb_spec x q) as [->|]; [tauto|reflexivity].
  - destruct (Nat.eqb_spec x y) as [->|]; [tauto|].
    rewrite IH by exact Hin. ring.
Qed.

(** ** [update_elo] on teams of equal size: the ratings are conserved *)

Section Conservation.

Open Scope R_scope.

Variable w : World.
Variable g : Game.
Variable k : R.

Lemma get_elo_delta_flip (a b : Player) (o : GameOutcome) :
  get_elo_delta a b o k = - get_elo_delta b a (invert o) k.
Proof.
  unfold get_elo_delta.
  pose proof (rating_pos a) as Ha. pose proof (rating_pos b) as Hb.
  destruct o; simpl; field; lra.
Qed.

Lemma outcome_flip (t o : tref) :
  team_score (team_of w t) <> None -> team_score (team_of w o) <> None ->
  outcome w o t = invert (outcome w t o).
Proof.
  intros Ht Ho. unfold outcome, Team_compare.
  destruct (team_score (team_of w t)) as [x|]; [|congruence].
  destruct (team_score (team_of w o)) as [y|]; [|congruence].
  destruct (Z.gtb_spec x y), (Z.ltb_spec x y), (Z.gtb_spec y x),
           (Z.ltb_spec y x); try lia; reflexivity.
Qed.

Lemma cross_antisymmetric (a b : tref * pref) :
  scored w g ->
  In (fst a) (game_teams g) -> In (fst b) (game_teams g) ->
  cross w k a b = - cross w k b a.
Proof.
  intros Hs Ha Hb. unfold cross. rewrite (Nat.eqb_sym (fst a) (fst b)).
  destruct (Nat.eqb (fst b) (fst a)); [ring|].
  unfold delta_of. rewrite get_elo_delta_flip.
  rewrite (outcome_flip (fst a) (fst b) (Hs _ Ha) (Hs _ Hb)). reflexivity.
Qed.

Lemma sum_over_opponents (f : tref * pref -> R) (t : tref) :
  sumR f (Game_players w g (Some t))
  = sumR (fun b => if Nat.eqb (fst b) t then 0 else f b)
         (Game_players w g None).
Proof.
  unfold Game_players. rewrite !sumR_flat_map.
  apply sumR_ext. intros team _. simpl.
  destruct (Nat.eqb team t) eqn:E.
  - rewrite sumR_nil, sumR_map. simpl. rewrite E. symmetry. apply sumR_zero.
  - rewrite !sumR_map. simpl. rewrite E. reflexivity.
Qed.

Lemma comparisons_sum :
  sumR (fun c => delta_of w k (fst c) (snd c)) (comparisons w g)
  = sumR (fun a => sumR (fun b => cross w k a b) (Game_players w g None))
         (Game_players w g None).
Proof.
  unfold comparisons. rewrite sumR_flat_map.
  apply sumR_ext. intros a _. rewrite sumR_map. simpl.
  rewrite sum_over_opponents. reflexivity.
Qed.

Lemma comparisons_sum_zero :
  scored w g ->
  sumR (fun c => delta_of w k (fst c) (snd c)) (comparisons w g) = 0.
Proof.
  intros Hs. rewrite comparisons_sum.
  set (A := Game_players w g None).
  set (S := sumR (fun a => sumR (fun b => cross w k a b) A) A).
  assert (Hneg : S = - S).
  { unfold S at 1.
    rewrite (sumR_ext _ (fun a => sumR (fun b => - cross w k b a) A)).
    - unfold sumR at 2.
      rewrite (sumR_exchange (fun a b => - cross w k b a) A A).
      fold (sumR (fun y => sumR (fun x => - cross w k y x) A) A).
      rewrite (sumR_ext _ (fun y => sumR (fun x => cross w k y x) A * -1)).
      + rewrite sumR_scale. unfold S. ring.
      + intros y _. rewrite <- sumR_scale. apply sumR_ext.
        intros x _. ring.
    - intros a Ha. apply sumR_ext. intros b Hb.
      apply cross_antisymmetric; [exact Hs| |];
        apply (Game_players_team w g None); assumption. }
  lra.
Qed.

Lemma Rsum_app (l1 l2 : list R) : Rsum (l1 ++ l2) = Rsum l1 + Rsum l2.
Proof.
  induction l1 as [|x l1 IH]; simpl.
  - unfold Rsum at 2. simpl. ring.
  - rewrite !Rsum_cons, IH. ring.
Qed.

Lemma frozen_deltas_sum (q : pref)
    (cs : list ((tref * pref) * (tref * pref))) :
  Rsum (frozen_deltas w k q cs)
  = sumR (fun c => if Nat.eqb (snd (fst c)) q
                   then delta_of w k (fst c) (snd c) else 0) cs.
Proof.
  induction cs as [|c cs IH]; [reflexivity|].
  unfold frozen_deltas in *. simpl flat_map. rewrite Rsum_app, IH, sumR_cons.
  f_equal. destruct (Nat.eqb_spec (snd (fst c)) q) as [<-|Hne].
  - unfold Rsum. simpl. unfold delta_of. ring.
  - reflexivity.
Qed.

Lemma deltas_regroup (P : list pref) :
  NoDup P ->
  (forall c, In c (comparisons w g) -> In (snd (fst c)) P) ->
  sumR (fun q => Rsum (pairwise_deltas w g k q)) P
  = sumR (fun c => delta_of w k (fst c) (snd c)) (comparisons w g).
Proof.
  intros Hnd Hin.
  rewrite (sumR_ext _
    (fun q => Rsum (map (fun c => if Nat.eqb (snd (fst c)) q
                                  then delta_of w k (fst c) (snd c) else 0)
                        (comparisons w g)))).
  - rewrite (sumR_exchange
      (fun q c => if Nat.eqb (snd (fst c)) q
                  then delta_of w k (fst c) (snd c) else 0)
      P (comparisons w g)).
    fold (sumR (fun c => sumR (fun q => if Nat.eqb (snd (fst c)) q
                                        then delta_of w k (fst c) (snd c)
                                        else 0) P) (comparisons w g)).
    apply sumR_ext. intros c Hc. apply sumR_indicator; auto.
  - intros q _. rewrite <- frozen_deltas_comparisons.
    apply frozen_deltas_sum.
Qed.

End Conservation.

Section ConservationTheorem.

Variable w : World.
Variable g : Game.
Variable k : R.

Lemma Game_players_length (t : tref) :
  length (Game_players w g (Some t)) = opposing_players w g t.
Proof.
  unfold Game_players, opposing_players.
  induction (game_teams g) as [|o ts IH]; cbn [flat_map map list_sum];
    [reflexivity|].
  rewrite length_app, IH.
  destruct (same_team (Some t) o); simpl; rewrite ?length_map; reflexivity.
Qed.

Lemma pairwise_deltas_length (q : pref) :
  length (pairwise_deltas w g k q) = opponents_of w g q.
Proof.
  unfold pairwise_deltas, opponents_of.
  rewrite <- (list_sum_ext
    (fun team => list_sum (map (fun p => if Nat.eqb p q
                                         then opposing_players w g team
                                         else 0)
                               (team_players (team_of w team))))).
  2:{ intros team. apply list_sum_indicator. }
  unfold Game_players at 2. cbn [same_team].
  induction (game_teams g) as [|team ts IH]; cbn [flat_map map list_sum];
    [reflexivity|].
  rewrite flat_map_app, length_app, IH.
  change (list_sum (?x :: ?l)) with (x + list_sum l). f_equal.
  induction (team_players (team_of w team)) as [|p ps IHp];
    cbn [flat_map map]; [reflexivity|].
  rewrite length_app, IHp.
  change (list_sum (?x :: ?l)) with (x + list_sum l). f_equal.
  cbn [snd fst].
  destruct (Nat.eqb p q); [|reflexivity].
  rewrite length_map. apply Game_players_length.
Qed.

Variable size : nat.
Hypothesis teams_distinct : NoDup (game_teams g).
Hypothesis equal_sizes :
  forall t, In t (game_teams g) ->
    length (team_players (team_of w t)) = size.

Lemma opposing_players_uniform (t : tref) :
  In t (game_teams g) ->
  opposing_players w g t = size * (length (game_teams g) - 1).
Proof.
  intros Ht. unfold opposing_players.
  assert (H : forall ts, NoDup ts ->
            (forall o, In o ts ->
               length (team_players (team_of w o)) = size) ->
            list_sum (map (fun other =>
                             if same_team (Some t) other then 0
                             else length (team_players (team_of w other)))
                          ts)
            = size * (length ts - (if in_dec Nat.eq_dec t ts then 1 else 0))).
  { induction 1 as [|o ts Hnotin Hnd IH]; intros Hsz; [simpl; lia|].
    cbn [map length].
    change (list_sum (?x :: ?l)) with (x + list_sum l).
    rewrite IH by (intros o' Ho'; apply Hsz; right; exact Ho').
    rewrite (Hsz o (or_introl eq_refl)). unfold same_team.
    destruct (Nat.eqb_spec o t) as [->|Hne].
    - destruct (in_dec Nat.eq_dec t ts) as [Hin|_]; [contradiction|].
      destruct (in_dec Nat.eq_dec t (t :: ts)) as [_|Hout];
        [lia|exfalso; apply Hout; left; reflexivity].
    - destruct (in_dec Nat.eq_dec t ts) as [Hin|Hout];
        destruct (in_dec Nat.eq_dec t (o :: ts)) as [Hin'|Hout'];
        try (exfalso; apply Hout'; right; exact Hin);
        try (exfalso; destruct Hin' as [Heq|Hin']; [congruence|tauto]).
      + assert (0 < length ts) by (destruct ts; [contradiction|simpl; lia]).
        nia.
      + nia. }
  rewrite (H (game_teams g) teams_distinct equal_sizes).
  destruct (in_dec Nat.eq_dec t (game_teams g)); [reflexivity|contradiction].
Qed.

Lemma count_occ_players (q : pref) :
  list_sum (map (fun team => count_occ Nat.eq_dec
                               (team_players (team_of w team)) q)
                (game_teams g))
  = count_occ Nat.eq_dec (map snd (Game_players w g None)) q.
Proof.
  clear teams_distinct equal_sizes. rewrite Game_players_all.
  induction (game_teams g) as [|team ts IH]; simpl; [reflexivity|].
  rewrite count_occ_app, IH. reflexivity.
Qed.

Lemma opponents_of_uniform (q : pref) :
  NoDup (map snd (Game_players w g None)) ->
  In q (map snd (Game_players w g None)) ->
  opponents_of w g q = size * (length (game_teams g) - 1).
Proof.
  intros Hnd Hin. unfold opponents_of.
  rewrite (list_sum_ext_in _
    (fun team => count_occ Nat.eq_dec (team_players (team_of w team)) q
                 * (size * (length (game_teams g) - 1)))).
  2:{ intros team Ht. rewrite (opposing_players_uniform team Ht).
      reflexivity. }
  assert (Hfactor : forall (f : tref -> nat) (c : nat) (l : list tref),
            list_sum (map (fun x => f x * c) l) = list_sum (map f l) * c).
  { intros f c l. induction l as [|x l IHl]; simpl; [reflexivity|].
    rewrite IHl. lia. }
  rewrite Hfactor, count_occ_players.
  rewrite (proj1 (NoDup_count_occ' Nat.eq_dec _) Hnd q Hin). lia.
Qed.

Lemma update_elo_total_elo :
  scored w g ->
  NoDup (map snd (Game_players w g None)) ->
  exists w',
    update_elo g k w = Ok w' /\
    total_elo w' (map snd (Game_players w g None))
    = total_elo w (map snd (Game_players w g None)).
Proof.
  intros Hs Hnd.
  destruct (update_elo_scored w g k Hs)
    as (h & delta & w' & _ & Hup & _ & _ & Hnew & _).
  exists w'. split; [exact Hup|].
  set (P := map snd (Game_players w g None)) in *.
  set (L := (size * (length (game_teams g) - 1))%nat).
  assert (Hlen : forall q, In q P ->
                   length (pairwise_deltas w g k q) = L).
  { intros q Hq. rewrite pairwise_deltas_length.
    apply opponents_of_uniform; assumption. }
  unfold total_elo.
  change (Rsum (map (fun p => elo (player_of w' p)) P))
    with (sumR (fun p => elo (player_of w' p)) P).
  change (Rsum (map (fun p => elo (player_of w p)) P))
    with (sumR (fun p => elo (player_of w p)) P).
  destruct L as [|L'] eqn:EL.
  - apply sumR_ext. intros q Hq. rewrite Hnew.
    pose proof (Hlen q Hq) as Hq0.
    destruct (pairwise_deltas w g k q); [reflexivity|discriminate].
  - rewrite (sumR_ext _
      (fun q => elo (player_of w q)
                + Rsum (pairwise_deltas w g k q) * / INR (S L'))%R).
    + rewrite sumR_plus, sumR_scale.
      rewrite (deltas_regroup w g k P Hnd).
      * rewrite (comparisons_sum_zero w g k Hs). ring.
      * intros [[team p] [other q]] Hc. simpl.
        apply in_comparisons in Hc. destruct Hc as (Ht & Hp & _).
        unfold P. apply in_map_iff. exists (team, p).
        split; [reflexivity|]. apply in_Game_players. simpl. auto.
    + intros q Hq. rewrite Hnew. pose proof (Hlen q Hq) as Hq0.
      unfold new_elo.
      destruct (pairwise_deltas w g k q) as [|d ds] eqn:Ed;
        [discriminate|].
      rewrite Hq0. reflexivity.
Qed.

(** X26: over exact real arithmetic on the ratings, rating is zero-sum on
    equal teams.  On a scored game whose teams are distinct, have the same
    number of players, and share no player, [update_elo], when it returns,
    has left the sum of the players' ratings unchanged: what the winners
    gain is what the losers lose. *)
Theorem update_elo_conserves_total_rating (w' : World) :
  scored w g ->
  NoDup (map snd (Game_players w g None)) ->
  update_elo g k w = Ok w' ->
  total_elo w' (map snd (Game_players w g None))
  = total_elo w (map snd (Game_players w g None)).
Proof.
  intros Hs Hnd Hup.
  destruct (update_elo_total_elo Hs Hnd) as (w'' & Hup' & Heq).
  rewrite Hup in Hup'. inversion Hup'; subst w''. exact Heq.
Qed.

End ConservationTheorem.

Lemma duel_players_distinct :
  NoDup (map snd (Game_players duel_world duel_game None)).
Proof. simpl. repeat constructor; simpl; intuition lia. Qed.

Lemma update_elo_conserves_total_rating_witness :
  exists w',
    update_elo duel_game 20 duel_world = Ok w' /\
    total_elo w' (map snd (Game_players duel_world duel_game None))
    = total_elo duel_world (map snd (Game_players duel_world duel_game None)).
Proof.
  destruct (update_elo_scored duel_world duel_game 20 duel_scored)
    as (h & delta & w' & _ & Hup & _).
  exists w'. split; [exact Hup|].
  apply (update_elo_conserves_total_rating duel_world duel_game 20 2).
  - exact duel_teams_distinct.
  - intros t [<-|[<-|[]]]; reflexivity.
  - exact duel_scored.
  - exact duel_players_distinct.
  - exact Hup.
Defined.
